(** * Tetrolith game engine: a shallow embedding of [pkg/game/game.go]

    The development follows the Go source function by function.  Go [int]
    values are integers in [Z] (no arithmetic of the engine can leave the
    64-bit range: indices stay within the 16 slots and counters grow by one
    per event).  A Go [string] is a [String.string]; the engine handles ASCII
    words, for which a rune is a byte.  A [*Question] is held by value: the
    engine allocates one [Question] per dealt alphagram in [start] and every
    later operation moves that pointer (queue, slot, attack queue), so no two
    places of a board ever hold the same pointer.  A Go panic (nil
    dereference, index out of range) is the result [None]. *)

From Stdlib Require Import ZArith Ascii String Lia.
From stdpp Require Import base option list gmap strings sorting.

Local Open Scope string_scope.
Local Open Scope list_scope.
Local Open Scope Z_scope.

(** ** Constants *)

Definition TotalNumQuestions : Z := 50.
Definition NumSlots : Z := 16.
Definition Second : Z := 1000000000.
Definition TickDuration : Z := 1 * Second.
Definition OppTickDuration : Z := 3 * Second.
Definition InitGameCountdownTime : Z := 2 * Second.
Definition NextGameCountdownTime : Z := 10 * Second.

(** ** Strings: [strings.ToLower], [strings.TrimSpace], [alphagrammize]

    A Go string is a sequence of bytes, which [[]rune(w)],
    [strings.ToLower] and [strings.TrimSpace] decode as UTF-8.  The
    functions of this section are those of the source on the strings of
    ASCII characters ([isASCII]): there a byte is a code point, the letters
    that have a lower case are A to Z, and the white space is 9 to 13 and
    32.  On other strings they are not the functions of the source, so a
    statement whose proof looks into them assumes [isASCII] of the strings
    that they are applied to. *)

Definition rune := ascii.

Definition runes (w : string) : list rune := list_ascii_of_string w.
Definition of_runes (rns : list rune) : string := string_of_list_ascii rns.

Definition isASCII (s : string) : bool :=
  forallb (fun c => (N_of_ascii c <? 128)%N) (runes s).

Definition isUpper (c : rune) : bool :=
  ((65 <=? N_of_ascii c) && (N_of_ascii c <=? 90))%N.

Definition toLowerRune (c : rune) : rune :=
  if isUpper c then ascii_of_N (N_of_ascii c + 32) else c.

Definition ToLower (s : string) : string := of_runes (map toLowerRune (runes s)).

(** The ASCII white space of [unicode.IsSpace]: tab, line feed, vertical tab,
    form feed, carriage return, space. *)
Definition isSpace (c : rune) : bool :=
  let n := N_of_ascii c in
  (((9 <=? n) && (n <=? 13)) || (n =? 32))%N.

Fixpoint trimLeft (l : list rune) : list rune :=
  match l with
  | c :: l' => if isSpace c then trimLeft l' else l
  | [] => []
  end.

Definition TrimSpace (s : string) : string :=
  of_runes (rev (trimLeft (rev (trimLeft (runes s))))).

(** [sort.Slice] with [rns[i] < rns[j]] leaves the runes in ascending order of
    code point; equal runes are indistinguishable, so the result is the one
    ascending arrangement, computed here by insertion. *)
Fixpoint insertRune (c : rune) (l : list rune) : list rune :=
  match l with
  | [] => [c]
  | d :: l' =>
      if (N_of_ascii c <=? N_of_ascii d)%N then c :: l else d :: insertRune c l'
  end.

Definition sortRunes (l : list rune) : list rune := foldr insertRune [] l.

Definition alphagrammize (w : string) : string := of_runes (sortRunes (runes w)).

(** ** Questions *)

(** [wordsearcher.Alphagram]: the alphagram string and the [Word] field of
    each of its answer entries. *)
Record Alphagram := mkAlphagram {
  alphagram : string;
  Words : list string
}.

Record Question := mkQuestion {
  OrigQuestion : Alphagram;
  Whose : Z;
  AnswerMap : gset string
}.

#[global] Instance Alphagram_eq_dec : EqDecision Alphagram.
Proof. solve_decision. Defined.

#[global] Instance Question_eq_dec : EqDecision Question.
Proof. solve_decision. Defined.

Definition freshAnswerMap (words : list string) : gset string :=
  foldl (fun m answer => {[ ToLower answer ]} ∪ m) ∅ words.

Definition populateMap (a : Question) : Question :=
  {| OrigQuestion := OrigQuestion a;
     Whose := Whose a;
     AnswerMap := freshAnswerMap (Words (OrigQuestion a)) |}.

Definition answersLeft (a : Question) : Z := Z.of_nat (size (AnswerMap a)).

(** [solveQuestion] returns the question as it is after the call, then the
    three flags of the source: partially solved, fully solved, wrong. *)
Definition solveQuestion (q : Question) (guess : string)
  : Question * bool * bool * bool :=
  if decide (guess ∈ AnswerMap q) then
    let q' := {| OrigQuestion := OrigQuestion q;
                 Whose := Whose q;
                 AnswerMap := AnswerMap q ∖ {[ guess ]} |} in
    (q', true, bool_decide (answersLeft q' = 0), false)
  else
    (q, false, false,
     bool_decide (alphagrammize guess = ToLower (alphagram (OrigQuestion q)))).

(** ** Boards *)

Inductive Status := Countdown | Playing | PermanentlyOver.

Inductive BoardStatus := PieceDropping | PieceAboutToDrop | PlayerQueueEmpty.

(** [StateChangeType] is a string type; [NoChange] is its zero value, the
    empty string of a board whose [LastStateChange] was never assigned. *)
Inductive StateChangeType :=
  | NoChange | PieceFall | PieceLand | StackRise | StackQueue
  | FullySolveQuestion | Lost.

Record StateChange := mkStateChange {
  ChangeType : StateChangeType;
  PayloadNum : Z;
  PayloadNum2 : Z;
  PayloadString : string
}.

Definition stateChange0 (t : StateChangeType) : StateChange :=
  mkStateChange t 0 0 "".
Definition stateChange1 (t : StateChangeType) (n : Z) : StateChange :=
  mkStateChange t n 0 "".
Definition stateChange2 (t : StateChangeType) (n n2 : Z) : StateChange :=
  mkStateChange t n n2 "".

#[global] Instance Status_eq_dec : EqDecision Status.
Proof. solve_decision. Defined.
#[global] Instance BoardStatus_eq_dec : EqDecision BoardStatus.
Proof. solve_decision. Defined.
#[global] Instance StateChangeType_eq_dec : EqDecision StateChangeType.
Proof. solve_decision. Defined.
#[global] Instance StateChange_eq_dec : EqDecision StateChange.
Proof. solve_decision. Defined.

(** A [*time.Timer] field is [None] while nil and [Some d] once it points to
    a timer made by [time.NewTimer(d)]. *)
Record GameBoard := mkGameBoard {
  Slots : list (option Question);
  Timer : option Z;
  Queue : list Question;
  OppQueue : list Question;
  fallerPos : Z;
  OppQueueTimer : option Z;
  Dead : bool;
  Won : bool;
  Idx : Z;
  oppqueueReady : bool;
  Solved : Z;
  quitting : bool;
  status : BoardStatus;
  LastStateChange : StateChange
}.

#[global] Instance GameBoard_eq_dec : EqDecision GameBoard.
Proof. solve_decision. Defined.

Definition set_Slots (v : list (option Question)) (gb : GameBoard) : GameBoard :=
  mkGameBoard v (Timer gb) (Queue gb) (OppQueue gb) (fallerPos gb)
    (OppQueueTimer gb) (Dead gb) (Won gb) (Idx gb) (oppqueueReady gb)
    (Solved gb) (quitting gb) (status gb) (LastStateChange gb).
Definition set_Timer (v : option Z) (gb : GameBoard) : GameBoard :=
  mkGameBoard (Slots gb) v (Queue gb) (OppQueue gb) (fallerPos gb)
    (OppQueueTimer gb) (Dead gb) (Won gb) (Idx gb) (oppqueueReady gb)
    (Solved gb) (quitting gb) (status gb) (LastStateChange gb).
Definition set_Queue (v : list Question) (gb : GameBoard) : GameBoard :=
  mkGameBoard (Slots gb) (Timer gb) v (OppQueue gb) (fallerPos gb)
    (OppQueueTimer gb) (Dead gb) (Won gb) (Idx gb) (oppqueueReady gb)
    (Solved gb) (quitting gb) (status gb) (LastStateChange gb).
Definition set_OppQueue (v : list Question) (gb : GameBoard) : GameBoard :=
  mkGameBoard (Slots gb) (Timer gb) (Queue gb) v (fallerPos gb)
    (OppQueueTimer gb) (Dead gb) (Won gb) (Idx gb) (oppqueueReady gb)
    (Solved gb) (quitting gb) (status gb) (LastStateChange gb).
Definition set_fallerPos (v : Z) (gb : GameBoard) : GameBoard :=
  mkGameBoard (Slots gb) (Timer gb) (Queue gb) (OppQueue gb) v
    (OppQueueTimer gb) (Dead gb) (Won gb) (Idx gb) (oppqueueReady gb)
    (Solved gb) (quitting gb) (status gb) (LastStateChange gb).
Definition set_OppQueueTimer (v : option Z) (gb : GameBoard) : GameBoard :=
  mkGameBoard (Slots gb) (Timer gb) (Queue gb) (OppQueue gb) (fallerPos gb)
    v (Dead gb) (Won gb) (Idx gb) (oppqueueReady gb)
    (Solved gb) (quitting gb) (status gb) (LastStateChange gb).
Definition set_Dead (v : bool) (gb : GameBoard) : GameBoard :=
  mkGameBoard (Slots gb) (Timer gb) (Queue gb) (OppQueue gb) (fallerPos gb)
    (OppQueueTimer gb) v (Won gb) (Idx gb) (oppqueueReady gb)
    (Solved gb) (quitting gb) (status gb) (LastStateChange gb).
Definition set_Won (v : bool) (gb : GameBoard) : GameBoard :=
  mkGameBoard (Slots gb) (Timer gb) (Queue gb) (OppQueue gb) (fallerPos gb)
    (OppQueueTimer gb) (Dead gb) v (Idx gb) (oppqueueReady gb)
    (Solved gb) (quitting gb) (status gb) (LastStateChange gb).
Definition set_oppqueueReady (v : bool) (gb : GameBoard) : GameBoard :=
  mkGameBoard (Slots gb) (Timer gb) (Queue gb) (OppQueue gb) (fallerPos gb)
    (OppQueueTimer gb) (Dead gb) (Won gb) (Idx gb) v
    (Solved gb) (quitting gb) (status gb) (LastStateChange gb).
Definition set_Solved (v : Z) (gb : GameBoard) : GameBoard :=
  mkGameBoard (Slots gb) (Timer gb) (Queue gb) (OppQueue gb) (fallerPos gb)
    (OppQueueTimer gb) (Dead gb) (Won gb) (Idx gb) (oppqueueReady gb)
    v (quitting gb) (status gb) (LastStateChange gb).
Definition set_quitting (v : bool) (gb : GameBoard) : GameBoard :=
  mkGameBoard (Slots gb) (Timer gb) (Queue gb) (OppQueue gb) (fallerPos gb)
    (OppQueueTimer gb) (Dead gb) (Won gb) (Idx gb) (oppqueueReady gb)
    (Solved gb) v (status gb) (LastStateChange gb).
Definition set_status (v : BoardStatus) (gb : GameBoard) : GameBoard :=
  mkGameBoard (Slots gb) (Timer gb) (Queue gb) (OppQueue gb) (fallerPos gb)
    (OppQueueTimer gb) (Dead gb) (Won gb) (Idx gb) (oppqueueReady gb)
    (Solved gb) (quitting gb) v (LastStateChange gb).
Definition set_LastStateChange (v : StateChange) (gb : GameBoard) : GameBoard :=
  mkGameBoard (Slots gb) (Timer gb) (Queue gb) (OppQueue gb) (fallerPos gb)
    (OppQueueTimer gb) (Dead gb) (Won gb) (Idx gb) (oppqueueReady gb)
    (Solved gb) (quitting gb) (status gb) v.

(** What a call does to the world outside the board record, in order:
    operations on the two timers, assignments to [LastStateChange], sends on
    [manager.addToOppQueue], [manager.stateChange] and
    [manager.boardexited]. *)
Inductive Event :=
  | TimerStop
  | TimerNew (d : Z)
  | Changed (sc : StateChange)
  | SendToOpp (q : Question)
  | OppQueueTimerStop
  | OppQueueTimerNew (d : Z)
  | NotifyStateChange
  | SignalExit (idx : Z).

#[global] Instance Event_eq_dec : EqDecision Event.
Proof. solve_decision. Defined.

Definition newGameBoard (idx : Z) : GameBoard :=
  {| Slots := replicate (Z.to_nat NumSlots) None;
     Timer := None;
     Queue := [];
     OppQueue := [];
     fallerPos := -1;
     OppQueueTimer := Some 0;
     Dead := false;
     Won := false;
     Idx := idx;
     oppqueueReady := false;
     Solved := 0;
     quitting := false;
     status := PieceDropping;
     LastStateChange := stateChange0 NoChange |}.

(** *** The slot array

    [gb.Slots[i]] on the array [[NumSlots]*Question]: an index outside
    [0 .. NumSlots) panics. *)
Definition slotAt (slots : list (option Question)) (i : Z)
  : option (option Question) :=
  if decide (0 <= i < NumSlots) then slots !! Z.to_nat i else None.

Definition setSlot (slots : list (option Question)) (i : Z)
  (v : option Question) : option (list (option Question)) :=
  if decide (0 <= i < NumSlots) then
    if decide (Z.to_nat i < length slots)%nat
    then Some (<[Z.to_nat i := v]> slots) else None
  else None.

(** [s[i], s[j] = s[j], s[i]] *)
Definition swapSlots (i j : Z) (slots : list (option Question))
  : option (list (option Question)) :=
  a ← slotAt slots i;
  b ← slotAt slots j;
  slots1 ← setSlot slots i b;
  setSlot slots1 j a.

Fixpoint topOfStackFrom (fp : Z) (i : Z) (slots : list (option Question)) : Z :=
  match slots with
  | [] => NumSlots
  | s :: rest =>
      if bool_decide (s <> None) && bool_decide (i <> fp) then i
      else topOfStackFrom fp (i + 1) rest
  end.

Definition topOfStack (gb : GameBoard) : Z :=
  topOfStackFrom (fallerPos gb) 0 (Slots gb).

Definition LetGoNextPiece (gb : GameBoard) : option (GameBoard * bool) :=
  match last (Queue gb) with
  | Some nextq =>
      slots ← setSlot (Slots gb) 0 (Some nextq);
      Some (set_Slots slots
              (set_Queue (take (length (Queue gb) - 1) (Queue gb)) gb), true)
  | None => Some (gb, false)
  end.

Definition SetOppQueueReady (gb : GameBoard) : GameBoard :=
  set_oppqueueReady true gb.

Definition shouldQuitSoon (gb : GameBoard) : GameBoard :=
  set_quitting true gb.

(** The inner loop of [addOppQueue]: for [i] from 1 to 15, swap slots [i]
    and [i-1]. *)
Definition shiftUp (slots : list (option Question))
  : option (list (option Question)) :=
  foldl (fun acc i => s ← acc; swapSlots i (i - 1) s) (Some slots)
        (map Z.of_nat (seq 1 (Z.to_nat NumSlots - 1))).

Fixpoint addOppQueueLoop (oq : list Question) (gb : GameBoard) (added : Z)
  : option (GameBoard * Z) :=
  match oq with
  | [] => Some (set_OppQueue [] gb, added)
  | nextq :: rest =>
      slots1 ← shiftUp (Slots gb);
      slots2 ← setSlot slots1 (NumSlots - 1) (Some nextq);
      top ← slotAt slots2 0;
      let gb1 := set_Slots slots2 (set_OppQueue rest gb) in
      let gb2 :=
        if bool_decide (top <> None) && bool_decide (rest <> [])
        then set_Dead true gb1 else gb1 in
      addOppQueueLoop rest gb2 (added + 1)
  end.

Definition addOppQueue (gb : GameBoard) : option (GameBoard * Z) :=
  addOppQueueLoop (OppQueue gb) gb 0.

(** *** Tick *)

(** The first half of [Tick], up to the landing test: either the call has
    returned, or it goes on with the board and the local [topOfStack]. *)
Inductive TickPhase :=
  | TickReturn (gb : GameBoard) (evs : list Event)
  | TickContinue (gb : GameBoard) (tos : Z).

Definition lose (gb : GameBoard) : GameBoard :=
  set_LastStateChange (stateChange0 Lost) (set_Dead true gb).

Definition Tick_release (gb : GameBoard) : option TickPhase :=
  match status gb with
  | PieceDropping =>
      let tos := topOfStack gb in
      if decide (tos = 0) then
        Some (TickReturn (lose gb) [Changed (stateChange0 Lost)])
      else
        gb1 ← (if decide (fallerPos gb = -1)
               then fst <$> LetGoNextPiece gb else Some gb);
        Some (TickContinue (set_fallerPos (fallerPos gb1 + 1) gb1) tos)
  | PieceAboutToDrop | PlayerQueueEmpty =>
      if oppqueueReady gb && bool_decide (OppQueue gb <> []) then
        '(gb1, added) ← addOppQueue gb;
        let gb2 := set_oppqueueReady false gb1 in
        if Dead gb2 then
          Some (TickReturn (set_LastStateChange (stateChange0 Lost) gb2)
                  [Changed (stateChange0 Lost)])
        else
          Some (TickReturn
                  (set_LastStateChange (stateChange1 StackRise added)
                     (set_Timer (Some TickDuration) gb2))
                  [TimerNew TickDuration;
                   Changed (stateChange1 StackRise added)])
      else if decide (Queue gb = []) then
        Some (TickReturn
                (set_Timer (Some TickDuration) (set_status PlayerQueueEmpty gb))
                [TimerNew TickDuration])
      else
        let tos := topOfStack gb in
        if decide (tos = 0) then
          Some (TickReturn (lose gb) [Changed (stateChange0 Lost)])
        else
          gb1 ← fst <$> LetGoNextPiece gb;
          Some (TickContinue (set_fallerPos 0 gb1) tos)
  end.

(** [if gb.fallerPos > 0 { swap Slots[fallerPos-1], Slots[fallerPos] }] *)
Definition followFaller (gb : GameBoard) : option GameBoard :=
  if decide (fallerPos gb > 0) then
    slots ← swapSlots (fallerPos gb - 1) (fallerPos gb) (Slots gb);
    Some (set_Slots slots gb)
  else Some gb.

Definition Tick_land (gb : GameBoard) (tos : Z)
  : option (GameBoard * list Event) :=
  let fp := fallerPos gb in
  if decide (fp = tos - 1) then
    let sc := stateChange2 PieceLand fp (fp - 1) in
    gb1 ← followFaller (set_LastStateChange sc gb);
    let tickDuration :=
      if decide (fp = 0) then TickDuration else Z.quot TickDuration 4 in
    Some (set_Timer (Some tickDuration)
            (set_status PieceAboutToDrop (set_fallerPos (-1) gb1)),
          [Changed sc; TimerNew tickDuration])
  else if decide (fp = 0 /\ tos = 0) then
    Some (lose gb, [Changed (stateChange0 Lost)])
  else
    gb1 ← followFaller gb;
    let sc := stateChange2 PieceFall fp (fp - 1) in
    Some (set_Timer (Some TickDuration)
            (set_status PieceDropping (set_LastStateChange sc gb1)),
          [Changed sc; TimerNew TickDuration]).

Definition Tick (gb : GameBoard) : option (GameBoard * list Event) :=
  ph ← Tick_release gb;
  match ph with
  | TickReturn gb' evs => Some (gb', evs)
  | TickContinue gb' tos => Tick_land gb' tos
  end.

(** *** Guess handling *)

(** The locals of [handleGuessEvent] that live across the slot walk. *)
Record GuessVars := mkGuessVars {
  partiallySolved : bool;
  fullySolvedQuestion : bool;
  gotWrong : bool;
  fullySolvedSlot : Z;
  madePunishableMistake : bool;
  stateChanged : bool
}.

Definition guessVars0 : GuessVars := mkGuessVars false false false (-1) false false.

(** [for slot, question := range gb.Slots] from index [slot] on: the slots
    still to visit are [todo]; the result is those slots after the walk and
    the locals. *)
Fixpoint guessLoop (g : string) (fp : Z) (slot : Z)
  (todo : list (option Question)) (v : GuessVars)
  : list (option Question) * GuessVars :=
  match todo with
  | [] => ([], v)
  | None :: rest =>
      let '(rest', v') := guessLoop g fp (slot + 1) rest v in
      (None :: rest', v')
  | Some question :: rest =>
      let '(q', partially, fully, wrong) := solveQuestion question g in
      let fsSlot := if fully then slot else fullySolvedSlot v in
      if partially then
        (Some q' :: rest,
         mkGuessVars partially fully wrong fsSlot (madePunishableMistake v) true)
      else
        let punish := wrong && bool_decide (slot = fp) in
        let v1 :=
          mkGuessVars partially fully wrong fsSlot
            (if punish then true else madePunishableMistake v)
            (if punish then true else stateChanged v) in
        let '(rest', v') := guessLoop g fp (slot + 1) rest v1 in
        (Some q' :: rest', v')
  end.

(** The loop that lets the pieces resting on a solved slot fall into it:
    [lastSlot] runs down from [n]. *)
Fixpoint shiftDown (n : nat) (fp : Z) (slots : list (option Question))
  : option (list (option Question)) :=
  match n with
  | O => Some slots
  | S n' =>
      let lastSlot := Z.of_nat n in
      cur ← slotAt slots lastSlot;
      if bool_decide (cur <> None) && bool_decide (lastSlot <> fp) then
        slots1 ← swapSlots lastSlot (lastSlot + 1) slots;
        shiftDown n' fp slots1
      else Some slots
  end.

Definition allSlotsEmpty (slots : list (option Question)) : bool :=
  forallb (fun s => bool_decide (s = None)) slots.

Definition handleGuessEvent (gb : GameBoard) (g : string)
  : option (GameBoard * bool * list Event) :=
  let g := ToLower (TrimSpace g) in
  let '(slots1, v) := guessLoop g (fallerPos gb) 0 (Slots gb) guessVars0 in
  let gb := set_Slots slots1 gb in
  if negb (partiallySolved v) && madePunishableMistake v then
    _ ← Timer gb;
    let tos := topOfStack gb in
    if decide (tos = 0) then
      Some (lose gb, stateChanged v, [TimerStop; Changed (stateChange0 Lost)])
    else
      slots2 ← swapSlots (fallerPos gb) (tos - 1) (Slots gb);
      let sc := stateChange2 PieceLand (tos - 1) (fallerPos gb) in
      Some (set_Timer (Some (Z.quot TickDuration 4))
              (set_status PieceAboutToDrop
                 (set_fallerPos (-1)
                    (set_LastStateChange sc (set_Slots slots2 gb)))),
            stateChanged v,
            [TimerStop; Changed sc; TimerNew (Z.quot TickDuration 4)])
  else if fullySolvedQuestion v then
    let fs := fullySolvedSlot v in
    oq ← slotAt (Slots gb) fs;
    q ← oq;
    let sent :=
      if decide (Whose q = Idx gb) then [SendToOpp (populateMap q)] else [] in
    slots2 ← setSlot (Slots gb) fs None;
    let sc := stateChange1 FullySolveQuestion fs in
    let gb1 :=
      set_LastStateChange sc
        (set_Solved (Solved gb + 1) (set_Slots slots2 gb)) in
    if decide (fallerPos gb1 = fs) then
      Some (set_Timer (Some (Z.quot TickDuration 4))
              (set_status PieceAboutToDrop (set_fallerPos (-1) gb1)),
            stateChanged v,
            sent ++ [Changed sc; TimerNew (Z.quot TickDuration 4)])
    else
      slots3 ← shiftDown (Z.to_nat (fs - 1)) (fallerPos gb1) (Slots gb1);
      let gb2 := set_Slots slots3 gb1 in
      let gb3 :=
        if decide (Queue gb2 = []) then
          if allSlotsEmpty (Slots gb2) then set_Won true gb2 else gb2
        else gb2 in
      Some (gb3, stateChanged v, sent ++ [Changed sc])
  else Some (gb, stateChanged v, []).

(** *** The board loop *)

(** [gb.status = PieceDropping] on entry of [loop]. *)
Definition loopEnter (gb : GameBoard) : GameBoard := set_status PieceDropping gb.

(** [case alph := <-gb.oppQueueChan] *)
Definition receiveAttack (alph : Question) (gb : GameBoard) : GameBoard :=
  let gb1 := set_OppQueue (OppQueue gb ++ [alph]) gb in
  if decide (OppQueue gb = []) then set_OppQueueTimer (Some OppTickDuration) gb1
  else gb1.

(** What the [select] of [loop] can receive. *)
Inductive BoardEvent :=
  | MainTimer
  | OppTimer
  | GuessEvent (evt : string)
  | OppQueueChan (alph : Question)
  | StopChan.

(** One iteration of the [select]; the last component is [false] for
    [break gbloop]. *)
Definition loopIteration (ev : BoardEvent) (gb : GameBoard)
  : option (GameBoard * list Event * bool) :=
  match ev with
  | MainTimer =>
      '(gb1, evs) ← Tick gb;
      Some (gb1, evs ++ [NotifyStateChange],
            negb (Won gb1 || Dead gb1 || quitting gb1))
  | OppTimer => Some (SetOppQueueReady gb, [], true)
  | GuessEvent evt =>
      '(gb1, changed, evs) ← handleGuessEvent gb evt;
      Some (gb1, evs ++ (if (changed : bool) then [NotifyStateChange] else []),
            negb (Won gb1 || Dead gb1))
  | OppQueueChan alph =>
      Some (receiveAttack alph gb,
            NotifyStateChange ::
              (if decide (OppQueue gb = [])
               then [OppQueueTimerNew OppTickDuration] else []),
            true)
  | StopChan => Some (gb, [], false)
  end.

(** The loop on the events that its channels deliver, in order; each
    [select] reads [gb.Timer.C] and [gb.OppQueueTimer.C], which panics on a
    nil timer.  The last component says whether the loop was left. *)
Fixpoint loopFrom (evs : list BoardEvent) (gb : GameBoard)
  : option (GameBoard * list Event * bool) :=
  match evs with
  | [] => Some (gb, [], false)
  | ev :: rest =>
      _ ← Timer gb;
      _ ← OppQueueTimer gb;
      '(gb1, out, continue) ← loopIteration ev gb;
      if (continue : bool) then
        '(gb2, out2, over) ← loopFrom rest gb1;
        Some (gb2, out ++ out2, over)
      else
        Some (gb1, out ++ [OppQueueTimerStop; TimerStop; SignalExit (Idx gb1)],
              true)
  end.

Definition loop (evs : list BoardEvent) (gb : GameBoard)
  : option (GameBoard * list Event * bool) :=
  loopFrom evs (loopEnter gb).

(** ** The match manager *)

Record GameStateManager := mkGameStateManager {
  ID : string;
  gsStatus : Status;
  timer : option Z;
  Boards : list GameBoard;
  Players : list string;
  QuestionOffset : Z;
  SearchCriteria : string;
  exitedboards : list bool
}.

#[global] Instance GameStateManager_eq_dec : EqDecision GameStateManager.
Proof. solve_decision. Defined.

Definition set_gsStatus (v : Status) (gs : GameStateManager) : GameStateManager :=
  mkGameStateManager (ID gs) v (timer gs) (Boards gs) (Players gs)
    (QuestionOffset gs) (SearchCriteria gs) (exitedboards gs).
Definition set_timer (v : option Z) (gs : GameStateManager) : GameStateManager :=
  mkGameStateManager (ID gs) (gsStatus gs) v (Boards gs) (Players gs)
    (QuestionOffset gs) (SearchCriteria gs) (exitedboards gs).
Definition set_Boards (v : list GameBoard) (gs : GameStateManager) : GameStateManager :=
  mkGameStateManager (ID gs) (gsStatus gs) (timer gs) v (Players gs)
    (QuestionOffset gs) (SearchCriteria gs) (exitedboards gs).
Definition set_QuestionOffset (v : Z) (gs : GameStateManager) : GameStateManager :=
  mkGameStateManager (ID gs) (gsStatus gs) (timer gs) (Boards gs) (Players gs)
    v (SearchCriteria gs) (exitedboards gs).
Definition set_exitedboards (v : list bool) (gs : GameStateManager) : GameStateManager :=
  mkGameStateManager (ID gs) (gsStatus gs) (timer gs) (Boards gs) (Players gs)
    (QuestionOffset gs) (SearchCriteria gs) v.

Definition NewGameStateManager (searchCriteria : string) (players : list string)
  (id : string) : GameStateManager :=
  {| ID := id; gsStatus := Countdown; timer := None; Boards := [];
     Players := players; QuestionOffset := 0;
     SearchCriteria := searchCriteria; exitedboards := [] |}.

Definition StartGameCountdown (gs : GameStateManager) : GameStateManager :=
  set_timer (Some InitGameCountdownTime) gs.

(** What the question provider answers to one [start]: decoding the search
    criteria fails, the search call fails, or it returns alphagrams. *)
Inductive SearchOutcome :=
  | UnmarshalFails (err : string)
  | SearchFails (err : string)
  | SearchReturns (alphagrams : list Alphagram).

(** What the manager sends out: bytes of [Marshal] on [stateOut] (the state
    that was serialized stands for them), a question on a board's
    [oppQueueChan], a token on its own [stateChange] channel. *)
Inductive Output :=
  | Snapshot (gs : GameStateManager)
  | ToBoard (opp : Z) (alph : Question)
  | StateChangeSignal.

(** The body of the dealing loop of [start] for the alphagram [alph] at
    index [idx] of the dealt slice. *)
Definition dealtQuestion (idx : Z) (alph : Alphagram) : Question :=
  populateMap
    {| OrigQuestion :=
         {| alphagram := alphagrammize (alphagram alph); Words := Words alph |};
       Whose := Z.rem idx 2;
       AnswerMap := ∅ |}.

(** [gs.Boards[whose].Queue = append(gs.Boards[whose].Queue, q)] *)
Definition enqueue (whose : Z) (q : Question) (boards : list GameBoard)
  : option (list GameBoard) :=
  if decide (0 <= whose) then
    gb ← boards !! Z.to_nat whose;
    Some (<[Z.to_nat whose := set_Queue (Queue gb ++ [q]) gb]> boards)
  else None.

Fixpoint deal (idx : Z) (alphs : list Alphagram) (boards : list GameBoard)
  : option (list GameBoard) :=
  match alphs with
  | [] => Some boards
  | alph :: rest =>
      let q := dealtQuestion idx alph in
      boards1 ← enqueue (Whose q) q boards;
      deal (idx + 1) rest boards1
  end.

(** [resp.Alphagrams[lo : lo+n]] once [lo + n <= len] is known. *)
Definition slice (lo n : Z) (alphs : list Alphagram) : option (list Alphagram) :=
  if decide (0 <= lo) then Some (take (Z.to_nat n) (drop (Z.to_nat lo) alphs))
  else None.

(** [start] returns the manager as the call leaves it, the error if any, and
    what it sent.  [shuffle] is the permutation that [randomizer.Shuffle]
    applies for the stored seed. *)
Definition start (shuffle : list Alphagram -> list Alphagram)
  (found : SearchOutcome) (gs : GameStateManager)
  : option (GameStateManager * option string * list Output) :=
  let gs := set_exitedboards (replicate (length (Players gs)) false) gs in
  match found with
  | UnmarshalFails err => Some (gs, Some err, [])
  | SearchFails err => Some (gs, Some err, [])
  | SearchReturns alphagrams =>
      let alphagrams := shuffle alphagrams in
      if decide (Z.of_nat (length alphagrams) - QuestionOffset gs
                 < TotalNumQuestions) then
        Some (gs, Some "too few questions left", [])
      else
        dealt ← slice (QuestionOffset gs) TotalNumQuestions alphagrams;
        let boards0 :=
          imap (fun i _ => newGameBoard (Z.of_nat i)) (Players gs) in
        boards1 ← deal 0 dealt boards0;
        let gs1 :=
          set_QuestionOffset (QuestionOffset gs + TotalNumQuestions)
            (set_Boards boards1 gs) in
        boards2 ← mapM (fun gb => fst <$> Tick gb) (Boards gs1);
        Some (set_gsStatus Playing (set_Boards boards2 gs1), None,
              [StateChangeSignal])
  end.

Inductive ManagerEvent :=
  | TimerFires (found : SearchOutcome)
  | AttackRouted (alph : Question)
  | StopRequested
  | StateChangeNotified
  | BoardExited (idx : Z).

(** One iteration of the [select] of [Loop]: the manager after it, what was
    sent, and whether the loop goes on ([false] is [break gloop]). *)
Definition Loop_iteration (shuffle : list Alphagram -> list Alphagram)
  (ev : ManagerEvent) (gs : GameStateManager)
  : option (GameStateManager * list Output * bool) :=
  match ev with
  | TimerFires found =>
      if decide (gsStatus gs = Countdown) then
        '(gs1, err, outs) ← start shuffle found gs;
        match err with
        | Some _ => Some (gs1, outs, false)
        | None => Some (gs1, outs, true)
        end
      else Some (gs, [], true)
  | AttackRouted alph =>
      let opp := 1 - Whose alph in
      if decide (0 <= opp) then
        _ ← Boards gs !! Z.to_nat opp;
        Some (gs, [ToBoard opp alph], true)
      else None
  | StopRequested => Some (gs, [], false)
  | StateChangeNotified => Some (gs, [Snapshot gs], true)
  | BoardExited idx =>
      if decide (0 <= idx) then
        _ ← exitedboards gs !! Z.to_nat idx;
        let exited := <[Z.to_nat idx := true]> (exitedboards gs) in
        let gs1 := set_exitedboards exited gs in
        if forallb id exited then
          Some (set_gsStatus Countdown
                  (set_timer (Some NextGameCountdownTime) gs1), [], true)
        else
          Some (set_Boards
                  (imap (fun i gb =>
                           if decide (Z.of_nat i <> idx)
                           then shouldQuitSoon gb else gb) (Boards gs1)) gs1,
                [], true)
      else None
  end.

(** [Loop] on the events that its channels deliver, in order; each [select]
    reads [gs.timer.C], which panics on a nil timer.  The result says
    whether the loop was left ([true]) or is waiting for a further event;
    leaving sets [PermanentlyOver] and sends the last snapshot. *)
Fixpoint Loop (shuffle : list Alphagram -> list Alphagram)
  (evs : list ManagerEvent) (gs : GameStateManager)
  : option (GameStateManager * list Output * bool) :=
  match evs with
  | [] => Some (gs, [], false)
  | ev :: rest =>
      _ ← timer gs;
      '(gs1, outs, continue) ← Loop_iteration shuffle ev gs;
      if (continue : bool) then
        '(gs2, outs2, over) ← Loop shuffle rest gs1;
        Some (gs2, outs ++ outs2, over)
      else
        let gs2 := set_gsStatus PermanentlyOver gs1 in
        Some (gs2, outs ++ [Snapshot gs2], true)
  end.

(** ** Guesses through the manager *)

(** How a call ends: it returns, it panics, or it blocks for ever. *)
Inductive Outcome (A : Type) :=
  | Returns (a : A)
  | Panics
  | Blocks.
Arguments Returns {A} a.
Arguments Panics {A}.
Arguments Blocks {A}.

(** The channel [guessEvents] of a board, which [newGameBoard] makes with a
    buffer of 5, as a sender finds it: the guesses that wait in the buffer,
    oldest first, and whether the loop of the board, the only code that
    receives from the channel, will receive from it again.  A loop that
    has been left does not. *)
Record GuessChan := mkGuessChan {
  waiting : list string;
  served : bool
}.

Definition guessEventsCap : nat := 5.

(** [GameBoard.Guess]: [gb.guessEvents <- guess].  With room in the buffer
    the send completes at once.  On a full buffer it completes when the
    loop has received the oldest guess, and never if the loop does not
    receive again. *)
Definition GameBoard_Guess (guess : string) (ch : GuessChan) : Outcome GuessChan :=
  if decide (length (waiting ch) < guessEventsCap)%nat then
    Returns (mkGuessChan (waiting ch ++ [guess]) (served ch))
  else if served ch then
    Returns (mkGuessChan (drop 1 (waiting ch) ++ [guess]) (served ch))
  else Blocks.

(** [GameStateManager.Guess]: the guess is sent to the board of the first
    player of that name ([gs.Boards[i].Guess(guess)], which panics when
    [gs.Boards] has no index [i]), or the call returns the error.  [chan i]
    is the channel [guessEvents] of [gs.Boards[i]].  The call returns the
    error, if any, and the channel that it has sent on, as the send leaves
    it, with the index of its board. *)
Definition Guess (username guess : string) (chan : nat -> GuessChan)
  (gs : GameStateManager)
  : Outcome (option string * option (nat * GuessChan)) :=
  match list_find (fun p => p = username) (Players gs) with
  | Some (i, _) =>
      match Boards gs !! i with
      | Some _ =>
          match GameBoard_Guess guess (chan i) with
          | Returns ch => Returns (None, Some (i, ch))
          | Panics => Panics
          | Blocks => Blocks
          end
      | None => Panics
      end
  | None => Returns (Some "player is not in this game", None)
  end.

(** ** Game sessions

    The session manager of package [game] keeps two maps of pointers to
    [GameSession]: by game id and by player.  One session is reached from
    both maps and from the entry of each of its players, and [Join] writes
    to it through the pointer, so the sessions live in a store of cells and
    the maps hold addresses.  [Seek] takes a new address for each session;
    an address without cell, which the code cannot produce, is read as a
    nil pointer. *)

Module GameSession.
Record t := mk {
  Players : list string;
  ID : string;
  ListName : string;
  SearchCriteria : string;
  GameManager : option GameStateManager
}.
End GameSession.

Record SessionManager := mkSessionManager {
  cells : gmap nat GameSession.t;
  Sessions : gmap string nat;
  SessionsForPlayer : gmap string nat
}.

Definition NewSessionManager : SessionManager :=
  {| cells := ∅; Sessions := ∅; SessionsForPlayer := ∅ |}.

(** [Seek] returns the session manager as the call leaves it and the
    pointer to the new session or the error; [newid] is what
    [shortuuid.New()] gives. *)
Definition Seek (seeker listname searchcriteria newid : string)
  (s : SessionManager) : Outcome (SessionManager * (nat + string)) :=
  match SessionsForPlayer s !! seeker with
  | Some a =>
      match cells s !! a with
      | Some sess =>
          Returns (s, inr (match GameSession.GameManager sess with
                           | None => "player already has a seek open"
                           | Some _ => "player already in game session"
                           end))
      | None => Panics
      end
  | None =>
      let a := fresh (dom (cells s)) in
      let gs := GameSession.mk [seeker] newid listname searchcriteria None in
      Returns ({| cells := <[a := gs]> (cells s);
                  Sessions := <[newid := a]> (Sessions s);
                  SessionsForPlayer := <[seeker := a]> (SessionsForPlayer s) |},
               inl a)
  end.

Definition Unseek (seeker : string) (s : SessionManager)
  : Outcome (SessionManager * option string) :=
  match SessionsForPlayer s !! seeker with
  | None => Returns (s, Some "not seeking a game")
  | Some a =>
      match cells s !! a with
      | Some sess =>
          match GameSession.GameManager sess with
          | Some _ => Returns (s, Some "game already started")
          | None =>
              Returns ({| cells := cells s;
                          Sessions := delete (GameSession.ID sess) (Sessions s);
                          SessionsForPlayer := delete seeker (SessionsForPlayer s) |},
                       None)
          end
      | None => Panics
      end
  end.

(** [Join] appends the joiner to the players of the session, gives it a new
    manager on those players and starts its countdown. *)
Definition Join (joiner id : string) (s : SessionManager)
  : Outcome (SessionManager * (nat + string)) :=
  match SessionsForPlayer s !! joiner with
  | Some a =>
      match cells s !! a with
      | Some sess =>
          Returns (s, inr (match GameSession.GameManager sess with
                           | None => "please cancel seek before accepting a game"
                           | Some _ => "player already in game session"
                           end))
      | None => Panics
      end
  | None =>
      match Sessions s !! id with
      | None => Returns (s, inr "session did not exist")
      | Some a =>
          match cells s !! a with
          | Some gs =>
              let players := GameSession.Players gs ++ [joiner] in
              let manager :=
                StartGameCountdown
                  (NewGameStateManager (GameSession.SearchCriteria gs) players id) in
              let gs' :=
                GameSession.mk players (GameSession.ID gs)
                  (GameSession.ListName gs) (GameSession.SearchCriteria gs)
                  (Some manager) in
              Returns ({| cells := <[a := gs']> (cells s);
                          Sessions := Sessions s;
                          SessionsForPlayer := <[joiner := a]> (SessionsForPlayer s) |},
                       inl a)
          | None => Panics
          end
      end
  end.

(** [gs.GameManager.Guess(sender, guess)]: the method reads [gs.Players] of
    its receiver, which panics on the nil manager of an open seek.  [chan]
    gives the channels of the boards of that manager. *)
Definition SendGuess (sender gid guess : string) (chan : nat -> GuessChan)
  (s : SessionManager)
  : Outcome (option string * option (nat * GuessChan)) :=
  match Sessions s !! gid with
  | None => Returns (Some "no session with that game id", None)
  | Some a =>
      match cells s !! a with
      | Some gs =>
          match GameSession.GameManager gs with
          | Some manager => Guess sender guess chan manager
          | None => Panics
          end
      | None => Panics
      end
  end.

(** [gs.stop <- struct{}{}]: no code creates the channel [stop] of a
    [GameStateManager], and a send on a nil channel blocks for ever. *)
Definition Stop (gs : GameStateManager) : Outcome unit := Blocks.

(** [TryDestroy] returns its error, if any.  The calls of [Quit] on the
    boards come after [gs.Stop()], which does not return, and have no part
    in the result. *)
Definition TryDestroy (gs : GameStateManager) : Outcome (option string) :=
  if decide (gsStatus gs <> Countdown) then
    Returns (Some "cannot destroy an ongoing game")
  else
    match Stop gs with
    | Returns _ => Returns None
    | Panics => Panics
    | Blocks => Blocks
    end.

Definition Leave (leaver id : string) (s : SessionManager)
  : Outcome (SessionManager * option string) :=
  match SessionsForPlayer s !! leaver with
  | None => Returns (s, Some "player not in session")
  | Some a =>
      match cells s !! a with
      | Some sess =>
          if decide (GameSession.ID sess <> id) then
            Returns (s, Some "unexpected - game session ID did not match!")
          else
            match GameSession.GameManager sess with
            | None => Panics
            | Some manager =>
                let players := Players manager in
                match TryDestroy manager with
                | Returns (Some err) => Returns (s, Some err)
                | Returns None =>
                    Returns ({| cells := cells s;
                                Sessions := delete (GameSession.ID sess) (Sessions s);
                                SessionsForPlayer :=
                                  foldr delete (SessionsForPlayer s) players |},
                             None)
                | Panics => Panics
                | Blocks => Blocks
                end
            end
      | None => Panics
      end
  end.

(** * Notions used in the statements *)

Definition answers (s : option Question) : gset string :=
  match s with Some q => AnswerMap q | None => ∅ end.

Definition noHit (g : string) (slots : list (option Question)) : Prop :=
  Forall (fun s => g ∉ answers s) slots.

#[global] Instance noHit_dec g slots : Decision (noHit g slots).
Proof. unfold noHit. apply _. Defined.

(** Slot [k] is the first one in which the guess is still an answer. *)
Definition lowestHit (g : string) (slots : list (option Question))
  (k : nat) (q : Question) : Prop :=
  slots !! k = Some (Some q) /\ g ∈ AnswerMap q /\ noHit g (take k slots).

Definition strike (g : string) (q : Question) : Question :=
  {| OrigQuestion := OrigQuestion q; Whose := Whose q;
     AnswerMap := AnswerMap q ∖ {[ g ]} |}.

Definition wrongFor (g : string) (q : Question) : bool :=
  bool_decide (alphagrammize g = ToLower (alphagram (OrigQuestion q))).

(** Whether the walk over [todo], whose first slot has index [slot], sees a
    wrong anagram of the faller. *)
Fixpoint punishable (g : string) (fp slot : Z) (todo : list (option Question))
  : bool :=
  match todo with
  | [] => false
  | None :: rest => punishable g fp (slot + 1) rest
  | Some q :: rest =>
      (wrongFor g q && bool_decide (slot = fp)) || punishable g fp (slot + 1) rest
  end.

(** What [handleGuessEvent] does once the walk has struck the guess from the
    question [q] of slot [k]. *)
Definition solvedBoard (gb : GameBoard) (k : nat) : GameBoard :=
  set_LastStateChange (stateChange1 FullySolveQuestion (Z.of_nat k))
    (set_Solved (Solved gb + 1) (set_Slots (<[k := None]> (Slots gb)) gb)).

Definition attackSent (gb : GameBoard) (q : Question) : list Event :=
  if decide (Whose q = Idx gb) then [SendToOpp (populateMap q)] else [].

Definition checkWon (gb : GameBoard) : GameBoard :=
  if decide (Queue gb = []) then
    if allSlotsEmpty (Slots gb) then set_Won true gb else gb
  else gb.

(** The questions that a call put on [manager.addToOppQueue]. *)
Definition sentToOpp (evs : list Event) : list Question :=
  omap (fun e => match e with SendToOpp q => Some q | _ => None end) evs.

Definition noUpper (s : string) : bool :=
  forallb (fun c => negb (isUpper c)) (runes s).

(** The question sits in the player queue or in a slot of the board. *)
Definition onBoard (gb : GameBoard) (q : Question) : Prop :=
  q ∈ Queue gb \/ Some q ∈ Slots gb.

(** A board as [start] leaves it before its first [Tick]. *)
Definition freshBoard (idx : Z) (queue : list Question) : GameBoard :=
  set_Queue queue (newGameBoard idx).

(** The boards that the engine can produce: a board as [start] deals it,
    followed by any calls of the board loop and of the manager. *)
Inductive reachable : GameBoard -> Prop :=
  | reach_fresh idx queue : reachable (freshBoard idx queue)
  | reach_Tick gb gb' evs :
      reachable gb -> Tick gb = Some (gb', evs) -> reachable gb'
  | reach_loopEnter gb : reachable gb -> reachable (loopEnter gb)
  | reach_guess gb g gb' changed evs :
      reachable gb -> handleGuessEvent gb g = Some (gb', changed, evs) ->
      reachable gb'
  | reach_attack gb alph : reachable gb -> reachable (receiveAttack alph gb)
  | reach_ready gb : reachable gb -> reachable (SetOppQueueReady gb)
  | reach_quit gb : reachable gb -> reachable (shouldQuitSoon gb).

(** While a piece is in flight the board is in [PieceDropping], its timer
    exists, and every slot down to the one under the faller is empty. *)
Definition fallerAloft (gb : GameBoard) : Prop :=
  length (Slots gb) = Z.to_nat NumSlots /\
  -1 <= fallerPos gb /\
  (0 <= fallerPos gb ->
   status gb = PieceDropping /\ Timer gb <> None /\
   fallerPos gb + 1 < NumSlots /\
   forall i, 0 <= i <= fallerPos gb + 1 -> i <> fallerPos gb ->
             slotAt (Slots gb) i = Some None).

(** The branch of [handleGuessEvent] that drops the faller after a wrong
    anagram. *)
Definition punishment (gb : GameBoard)
  : option (GameBoard * bool * list Event) :=
  _ ← Timer gb;
  let tos := topOfStack gb in
  if decide (tos = 0) then
    Some (lose gb, true, [TimerStop; Changed (stateChange0 Lost)])
  else
    slots2 ← swapSlots (fallerPos gb) (tos - 1) (Slots gb);
    let sc := stateChange2 PieceLand (tos - 1) (fallerPos gb) in
    Some (set_Timer (Some (Z.quot TickDuration 4))
            (set_status PieceAboutToDrop
               (set_fallerPos (-1)
                  (set_LastStateChange sc (set_Slots slots2 gb)))),
          true,
          [TimerStop; Changed sc; TimerNew (Z.quot TickDuration 4)]).

(** The call recorded a [PieceLand] whose first payload, the slot where the
    piece came to rest, is [n]. *)
Definition landedAt (evs : list Event) (n : Z) : Prop :=
  exists n2 s, Changed (mkStateChange PieceLand n n2 s) ∈ evs.

(** The duration of the last main timer that the call created. *)
Definition nextTick (evs : list Event) : option Z :=
  last (omap (fun e => match e with TimerNew d => Some d | _ => None end) evs).

Definition landingPause (n : Z) : Z :=
  if decide (n = 0) then TickDuration else Z.quot TickDuration 4.

Ltac no_landing H :=
  let n2 := fresh in let s := fresh in
  destruct H as (n2 & s & H);
  repeat (apply elem_of_cons in H as [H|H]; [by inversion H|]);
  by apply elem_of_nil in H.

(** ** A concrete match

    Fifty two-letter alphagrams in upper case, as the word database serves
    them, each with its one answer; two players; the shuffle leaves the
    order as it is. *)
Definition poolEntry (i : nat) : Alphagram :=
  let w := of_runes [ascii_of_nat (65 + i / 10); ascii_of_nat (75 + i mod 10)] in
  mkAlphagram w [w].

Definition pool : list Alphagram := map poolEntry (seq 0 50).

Definition match0 : GameStateManager :=
  StartGameCountdown (NewGameStateManager "" ["ann"; "bob"] "m").

(** The board of the first player when [start] has dealt the pool. *)
Definition board0 : GameBoard :=
  match start id (SearchReturns pool) match0 with
  | Some (gs, _, _) => default (newGameBoard 0) (Boards gs !! 0%nat)
  | None => newGameBoard 0
  end.

(** The claim of the specification on the stack: below an occupied slot
    that is not the faller, every slot is occupied or is the faller. *)
Definition stackContiguous (gb : GameBoard) : Prop :=
  forall i j,
    0 <= i -> i < j -> j < NumSlots ->
    i <> fallerPos gb -> (exists q, slotAt (Slots gb) i = Some (Some q)) ->
    j = fallerPos gb \/ exists q, slotAt (Slots gb) j = Some (Some q).

(** The first player solves every piece of the queue while it falls. *)
Definition solveInFlight : list BoardEvent :=
  flat_map (fun i => [GuessEvent (ToLower (alphagram (poolEntry (2 * i)))); MainTimer])
           (rev (seq 0 25)).

(** The board and the exit flag after the loop of [board0] has received
    the events. *)
Definition after (evs : list BoardEvent) : option (GameBoard * bool) :=
  '(gb, _, over) ← loop evs board0;
  Some (gb, over).

(** The question is in a slot, in the player queue or in the attack queue
    of the board. *)
Definition heldBy (gb : GameBoard) (q : Question) : Prop :=
  Some q ∈ Slots gb \/ q ∈ Queue gb \/ q ∈ OppQueue gb.

#[global] Instance heldBy_dec gb q : Decision (heldBy gb q).
Proof. unfold heldBy. apply _. Defined.

(** The attack that the second player sends by solving "ET", the first
    piece of the second board: [populateMap] gives it all its answers
    again. *)
Definition attackET : Question := dealtQuestion 49 (poolEntry 49).

(** The first player solves nothing.  The attack arrives while the 14th
    piece falls (after tick 130); the ticks that follow come after 1 s, 1 s,
    0.25 s, 1 s and 0.25 s and bring the 14th and 15th piece to rest and the
    16th into slot 0; the attack timer, 3 s after the arrival, fires during
    the pause of 1 s that follows. *)
Definition attackOnFullColumn : list BoardEvent :=
  replicate 130 MainTimer ++ [OppQueueChan attackET] ++
  replicate 5 MainTimer ++ [OppTimer].

(** The match once [start] has dealt the pool. *)
Definition startedMatch : GameStateManager :=
  match start id (SearchReturns pool) match0 with
  | Some (gs, _, _) => gs
  | None => match0
  end.

(** The piece "ES", the last of the first player's queue and so the first
    to fall. *)
Definition pieceES : Question := dealtQuestion 48 (poolEntry 48).

(** The first player's board when "ES" has come to rest at the bottom. *)
Definition settled : GameBoard :=
  match after (replicate 15 MainTimer) with
  | Some (gb, _) => gb
  | None => board0
  end.

Ltac crunch :=
  first [ vm_compute; reflexivity
        | vm_compute; discriminate
        | apply (bool_decide_unpack _); vm_compute; exact I ].

(** The order of [sort.Slice] in [alphagrammize]: by code point. *)
Definition runeLe (c d : rune) : Prop := (N_of_ascii c <= N_of_ascii d)%N.

Definition allUpper (s : string) : bool := forallb isUpper (runes s).

(** The provider's string is written in one case. *)
Definition uniformCase (s : string) : Prop :=
  allUpper s = true \/ noUpper s = true.

#[global] Instance runeLe_trans : Transitive runeLe.
Proof. unfold runeLe. intros c d e. lia. Qed.

#[global] Instance runeLe_antisym : AntiSymm (=) runeLe.
Proof.
  unfold runeLe. intros c d Hcd Hdc.
  rewrite <- (ascii_N_embedding c), <- (ascii_N_embedding d). f_equal. lia.
Qed.

(** The slot holds a question. *)
Definition occupied (s : option Question) : bool := bool_decide (s <> None).

(** The call assigned a [LastStateChange] of the given type. *)
Definition recorded (t : StateChangeType) (evs : list Event) : bool :=
  existsb (fun e => match e with
                    | Changed sc => bool_decide (ChangeType sc = t)
                    | _ => false
                    end) evs.

(** The board has left its first [Tick]: a faller has room under it and
    both timers exist. *)
Definition running (gb : GameBoard) : Prop :=
  fallerAloft gb /\ Timer gb <> None /\ OppQueueTimer gb <> None.

(** [n] calls of [Tick] in a row, with nothing else in between. *)
Fixpoint Ticks (n : nat) (gb : GameBoard) : option (GameBoard * list Event) :=
  match n with
  | O => Some (gb, [])
  | S n' =>
      '(gb1, evs1) ← Tick gb;
      '(gb2, evs2) ← Ticks n' gb1;
      Some (gb2, evs1 ++ evs2)
  end.

(** The questions that the dealing loop of [start] appends to the queue of
    board [whose], in the order of dealing, when it deals [alphs] with the
    first index [idx]. *)
Definition dealtTo (whose idx : Z) (alphs : list Alphagram) : list Question :=
  filter (fun q => Whose q = whose)
         (imap (fun k alph => dealtQuestion (idx + Z.of_nat k) alph) alphs).

(** What one [Tick] does to the column and the queues of a board: nothing
    (the board is lost, or waits with an empty queue), the attacks due are
    pushed in from below, the faller moves down one slot, or the next piece
    is released into slot 0. *)
Inductive tickStep (gb gb' : GameBoard) : Prop :=
  | step_idle :
      Slots gb' = Slots gb -> fallerPos gb' = fallerPos gb ->
      Queue gb' = Queue gb -> OppQueue gb' = OppQueue gb -> tickStep gb gb'
  | step_rise :
      status gb <> PieceDropping -> oppqueueReady gb = true ->
      OppQueue gb <> [] ->
      fallerPos gb = -1 -> fallerPos gb' = -1 ->
      Slots gb' = drop (length (OppQueue gb))
                       (Slots gb ++ (Some <$> OppQueue gb)) ->
      Queue gb' = Queue gb -> OppQueue gb' = [] -> tickStep gb gb'
  | step_fall s :
      0 <= fallerPos gb ->
      Slots gb !! Z.to_nat (fallerPos gb) = Some s ->
      Slots gb' = <[Z.to_nat (fallerPos gb + 1) := s]>
                    (<[Z.to_nat (fallerPos gb) := None]> (Slots gb)) ->
      fallerPos gb' = (if decide (fallerPos gb + 2 = topOfStack gb)
                       then -1 else fallerPos gb + 1) ->
      Queue gb' = Queue gb -> OppQueue gb' = OppQueue gb -> tickStep gb gb'
  | step_release :
      fallerPos gb = -1 -> 0 < topOfStack gb ->
      Slots gb' = <[0%nat := last (Queue gb)]> (Slots gb) ->
      fallerPos gb' = (if decide (topOfStack gb = 1) then -1 else 0) ->
      Queue gb' = take (length (Queue gb) - 1) (Queue gb) ->
      OppQueue gb' = OppQueue gb -> tickStep gb gb'.

(** The questions that a board holds: in its slots from the top, in its
    queue and in its attack queue. *)
Definition held (gb : GameBoard) : list Question :=
  omap id (Slots gb) ++ Queue gb ++ OppQueue gb.

(** The two maps of the session manager agree with the sessions they point
    to: a player's entry leads to a session that lists the player and is
    found under its own id; an id leads to a session of that id whose
    players all have it as their entry; and a session without manager, an
    open seek, has its seeker as only player. *)
Definition sessionsConsistent (s : SessionManager) : Prop :=
  (forall p a, SessionsForPlayer s !! p = Some a ->
     exists sess, cells s !! a = Some sess /\
       p ∈ GameSession.Players sess /\
       Sessions s !! GameSession.ID sess = Some a) /\
  (forall id a, Sessions s !! id = Some a ->
     exists sess, cells s !! a = Some sess /\
       GameSession.ID sess = id /\
       (forall p, p ∈ GameSession.Players sess ->
                  SessionsForPlayer s !! p = Some a) /\
       (GameSession.GameManager sess = None ->
        exists seeker, GameSession.Players sess = [seeker])).

(** [stackContiguous] as a check on the 16 slots. *)
Definition stackContiguousb (gb : GameBoard) : bool :=
  let settledAt i :=
    bool_decide (i <> fallerPos gb) &&
    match slotAt (Slots gb) i with Some (Some _) => true | _ => false end in
  forallb (fun i =>
    forallb (fun j =>
      implb (bool_decide (i < j) && settledAt i)
            (bool_decide (j = fallerPos gb) || settledAt j))
      (seqZ 0 NumSlots))
    (seqZ 0 NumSlots).

(** The first player's board with the attack "ET" queued and due. *)
Definition attacked : GameBoard :=
  SetOppQueueReady (receiveAttack attackET settled).

(** The first player's board when 24 pieces were solved in flight and the
    last one, "AK", has come to rest at the bottom. *)
Definition lastAtRest : GameBoard :=
  match after (take 48 solveInFlight ++ replicate 17 MainTimer) with
  | Some (gb, _) => gb
  | None => board0
  end.

(** The piece "EQ", the next of the first player's queue after "ES". *)
Definition pieceEQ : Question := dealtQuestion 46 (poolEntry 46).

(** A session manager in which "ann" has an open seek with the id "g1". *)
Definition seekOpen : SessionManager :=
  match Seek "ann" "twos" "{}" "g1" NewSessionManager with
  | Returns (s, _) => s
  | _ => NewSessionManager
  end.

(** The session of that seek. *)
Definition annsSeek : GameSession.t := GameSession.mk ["ann"] "g1" "twos" "{}" None.

(** The exit flags after the boards [idxs] have reported their exit. *)
Definition exitedAfter (idxs : list Z) (exited : list bool) : list bool :=
  foldl (fun e idx => <[Z.to_nat idx := true]> e) exited idxs.

(** The first player's board when "ES" and, on top of it, "EQ" have come
    to rest. *)
Definition twoSettled : GameBoard :=
  match after (replicate 30 MainTimer) with
  | Some (gb, _) => gb
  | None => board0
  end.

(** What stays of a question while its answers are struck: the alphagram
    with its words, and the owner. *)
Definition ident (q : Question) : Alphagram * Z := (OrigQuestion q, Whose q).

(** The sends of [guesses] on the channel of one board, one call of
    [GameBoard_Guess] after the other. *)
Definition sendAll (guesses : list string) (ch : GuessChan) : Outcome GuessChan :=
  foldl (fun o guess =>
           match o with
           | Returns c => GameBoard_Guess guess c
           | Panics => Panics
           | Blocks => Blocks
           end) (Returns ch) guesses.

(** What makes [Loop] break: a stop request, or a timer event in
    [Countdown] whose [start] returns an error. *)
Definition breaksLoop (shuffle : list Alphagram -> list Alphagram)
  (ev : ManagerEvent) (gs0 gs1 : GameStateManager) (outs1 : list Output) : Prop :=
  (ev = StopRequested /\ gs1 = gs0 /\ outs1 = []) \/
  (exists found err,
     ev = TimerFires found /\ gsStatus gs0 = Countdown /\
     start shuffle found gs0 = Some (gs1, Some err, outs1)).

(** The channels of boards whose loops have been left, each with five
    guesses in its buffer. *)
Definition stuckChans : nat -> GuessChan :=
  fun _ => mkGuessChan ["aa"; "bb"; "cc"; "dd"; "ee"] false.

(** * Proofs *)

(** ** The walk over the slots *)

Lemma solveQuestion_miss q g :
  g ∉ AnswerMap q -> solveQuestion q g = (q, false, false, wrongFor g q).
Proof.
  intros Hg. unfold solveQuestion. destruct (decide (g ∈ AnswerMap q)); [done|].
  reflexivity.
Qed.

Lemma solveQuestion_hit q g :
  g ∈ AnswerMap q ->
  solveQuestion q g =
    (strike g q, true, bool_decide (answersLeft (strike g q) = 0), false).
Proof.
  intros Hg. unfold solveQuestion. destruct (decide (g ∈ AnswerMap q)); [|done].
  reflexivity.
Qed.

Lemma guessLoop_miss g fp todo : forall slot v,
  noHit g todo ->
  partiallySolved v = false -> fullySolvedQuestion v = false ->
  exists w,
    guessLoop g fp slot todo v =
      (todo,
       mkGuessVars false false w (fullySolvedSlot v)
         (madePunishableMistake v || punishable g fp slot todo)
         (stateChanged v || punishable g fp slot todo)).
Proof.
  induction todo as [|s rest IH]; intros slot v Hno Hp Hf.
  - exists (gotWrong v). destruct v; simpl in *. subst.
    by rewrite !orb_false_r.
  - apply Forall_cons in Hno as [Hs Hrest]. destruct s as [q|]; simpl.
    + simpl in Hs. rewrite (solveQuestion_miss _ _ Hs).
      set (v1 := mkGuessVars _ _ _ _ _ _).
      destruct (IH (slot + 1) v1 Hrest eq_refl eq_refl) as [w Hw].
      rewrite Hw. exists w. subst v1. simpl.
      destruct (wrongFor g q && bool_decide (slot = fp)); simpl;
        by rewrite ?orb_true_r.
    + destruct (IH (slot + 1) v Hrest Hp Hf) as [w Hw]. rewrite Hw. by exists w.
Qed.

Lemma punishable_ge g fp todo : forall slot,
  fp < slot -> punishable g fp slot todo = false.
Proof.
  induction todo as [|[q|] rest IH]; intros slot Hlt; simpl; [done| |].
  - rewrite IH by lia. rewrite bool_decide_eq_false_2 by lia.
    by rewrite andb_false_r.
  - apply IH. lia.
Qed.

Lemma set_Slots_id gb : set_Slots (Slots gb) gb = gb.
Proof. by destruct gb. Qed.

(** C10: on a board without faller ([fallerPos = -1]), a guess that, once
    lower-cased and trimmed, is an answer left in no occupied slot makes
    [handleGuessEvent] return [false] and leaves the whole board as it was,
    with nothing sent and no timer touched; a wrong anagram of a settled
    piece is therefore not punished. *)
Theorem wrong_guess_without_faller_is_ignored gb g :
  fallerPos gb = -1 ->
  noHit (ToLower (TrimSpace g)) (Slots gb) ->
  handleGuessEvent gb g = Some (gb, false, []).
Proof.
  intros Hfp Hno. unfold handleGuessEvent.
  destruct (guessLoop_miss _ (fallerPos gb) _ 0 guessVars0 Hno eq_refl eq_refl)
    as [w Hw].
  rewrite Hw. rewrite Hfp, punishable_ge by lia. simpl.
  by rewrite set_Slots_id.
Qed.

Lemma guessLoop_hit g fp todo : forall slot v k q,
  lowestHit g todo k q ->
  partiallySolved v = false -> fullySolvedQuestion v = false ->
  let fully := bool_decide (answersLeft (strike g q) = 0) in
  guessLoop g fp slot todo v =
    (<[k := Some (strike g q)]> todo,
     mkGuessVars true fully false
       (if fully then slot + Z.of_nat k else fullySolvedSlot v)
       (madePunishableMistake v || punishable g fp slot (take k todo))
       true).
Proof.
  induction todo as [|s rest IH]; intros slot v k q (Hk & Hin & Hno) Hp Hf fully.
  - done.
  - destruct k as [|k]; simpl in Hk.
    + injection Hk as ->. simpl. rewrite (solveQuestion_hit _ _ Hin).
      fold fully. rewrite Z.add_0_r, orb_false_r. reflexivity.
    + simpl in Hno. apply Forall_cons in Hno as [Hs Hrest].
      destruct s as [q0|]; simpl.
      * simpl in Hs. rewrite (solveQuestion_miss _ _ Hs).
        set (v1 := mkGuessVars _ _ _ _ _ _).
        rewrite (IH (slot + 1) v1 k q) by done.
        fold fully. subst v1. simpl.
        replace (slot + 1 + Z.of_nat k) with (slot + Z.of_nat (S k)) by lia.
        destruct (wrongFor g q0 && bool_decide (slot = fp)); simpl;
          by rewrite ?orb_true_r.
      * rewrite (IH (slot + 1) v k q) by done. fold fully.
        replace (slot + 1 + Z.of_nat k) with (slot + Z.of_nat (S k)) by lia.
        reflexivity.
Qed.

Lemma punishable_at g fp todo : forall slot q,
  slot <= fp ->
  todo !! Z.to_nat (fp - slot) = Some (Some q) ->
  wrongFor g q = true ->
  punishable g fp slot todo = true.
Proof.
  induction todo as [|s rest IH]; intros slot q Hle Hq Hw; [done|].
  destruct (decide (slot = fp)) as [->|Hne].
  - rewrite Z.sub_diag in Hq. simpl in Hq. injection Hq as ->. simpl.
    by rewrite Hw, bool_decide_eq_true_2.
  - replace (Z.to_nat (fp - slot)) with (S (Z.to_nat (fp - (slot + 1)))) in Hq
      by lia.
    simpl in Hq. assert (punishable g fp (slot + 1) rest = true) as Hrec
      by (eapply IH; [lia|done..]).
    destruct s; simpl; rewrite Hrec; by rewrite ?orb_true_r.
Qed.

(** ** The slot array *)

Lemma slotAt_lookup slots i x :
  slotAt slots i = Some x <-> 0 <= i < NumSlots /\ slots !! Z.to_nat i = Some x.
Proof.
  unfold slotAt. destruct (decide (0 <= i < NumSlots)).
  - split; [by intros H | by intros [_ H]].
  - split; [done | by intros [? _]].
Qed.

Lemma setSlot_insert slots i v :
  length slots = Z.to_nat NumSlots -> 0 <= i < NumSlots ->
  setSlot slots i v = Some (<[Z.to_nat i := v]> slots).
Proof.
  intros Hlen Hi. unfold setSlot.
  destruct (decide (0 <= i < NumSlots)); [|done].
  destruct (decide (Z.to_nat i < length slots)%nat); [done|]. lia.
Qed.

Lemma slotAt_in_range slots i :
  length slots = Z.to_nat NumSlots -> 0 <= i < NumSlots ->
  exists x, slotAt slots i = Some x /\ slots !! Z.to_nat i = Some x.
Proof.
  intros Hlen Hi. destruct (lookup_lt_is_Some_2 slots (Z.to_nat i)) as [x Hx];
    [lia|].
  exists x. split; [|done]. by apply slotAt_lookup.
Qed.

Lemma swapSlots_insert slots i j :
  length slots = Z.to_nat NumSlots ->
  0 <= i < NumSlots -> 0 <= j < NumSlots ->
  exists a b,
    slots !! Z.to_nat i = Some a /\ slots !! Z.to_nat j = Some b /\
    swapSlots i j slots =
      Some (<[Z.to_nat j := a]> (<[Z.to_nat i := b]> slots)).
Proof.
  intros Hlen Hi Hj.
  destruct (slotAt_in_range slots i Hlen Hi) as (a & Ha & Ha').
  destruct (slotAt_in_range slots j Hlen Hj) as (b & Hb & Hb').
  exists a, b. split_and!; [done..|].
  unfold swapSlots. rewrite Ha, Hb. simpl.
  rewrite setSlot_insert by done. simpl.
  rewrite setSlot_insert; [done| |done]. by rewrite length_insert.
Qed.

Lemma topOfStackFrom_range fp slots : forall i,
  i <= topOfStackFrom fp i slots <= i + Z.of_nat (length slots) \/
  topOfStackFrom fp i slots = NumSlots.
Proof.
  induction slots as [|s rest IH]; intros i; simpl; [by right|].
  destruct (bool_decide (s <> None) && bool_decide (i <> fp)); [left; lia|].
  destruct (IH (i + 1)) as [?|?]; [left; lia | by right].
Qed.

Lemma topOfStack_range gb :
  length (Slots gb) = Z.to_nat NumSlots -> 0 <= topOfStack gb <= NumSlots.
Proof.
  intros Hlen. unfold topOfStack.
  destruct (topOfStackFrom_range (fallerPos gb) (Slots gb) 0) as [H|H];
    unfold NumSlots in *; lia.
Qed.

Lemma setSlot_Some slots i v slots' :
  setSlot slots i v = Some slots' ->
  0 <= i < NumSlots /\ (Z.to_nat i < length slots)%nat /\
  slots' = <[Z.to_nat i := v]> slots.
Proof.
  unfold setSlot. repeat case_decide; [|done..]. by intros [= <-].
Qed.

Lemma swapSlots_Some i j slots slots' :
  swapSlots i j slots = Some slots' ->
  exists a b,
    0 <= i < NumSlots /\ 0 <= j < NumSlots /\
    slots !! Z.to_nat i = Some a /\ slots !! Z.to_nat j = Some b /\
    slots' = <[Z.to_nat j := a]> (<[Z.to_nat i := b]> slots).
Proof.
  unfold swapSlots. intros H.
  destruct (slotAt slots i) as [a|] eqn:Ha; [|done].
  destruct (slotAt slots j) as [b|] eqn:Hb; [|done].
  simpl in H. destruct (setSlot slots i b) as [s1|] eqn:H1; [|done].
  simpl in H. apply setSlot_Some in H1 as (_ & _ & ->).
  apply setSlot_Some in H as (_ & _ & ->).
  apply slotAt_lookup in Ha as [? ?]. apply slotAt_lookup in Hb as [? ?].
  by exists a, b.
Qed.

Lemma swapSlots_length i j slots slots' :
  swapSlots i j slots = Some slots' -> length slots' = length slots.
Proof.
  intros (a & b & _ & _ & _ & _ & ->)%swapSlots_Some.
  by rewrite !length_insert.
Qed.

Lemma swapSlots_elem i j slots slots' x :
  swapSlots i j slots = Some slots' -> x ∈ slots' -> x ∈ slots.
Proof.
  intros (a & b & _ & _ & Ha & Hb & ->)%swapSlots_Some Hx.
  apply list_elem_of_lookup in Hx as [n Hn].
  apply list_lookup_insert_Some in Hn as [(_ & <- & _)|[_ Hn]].
  { apply list_elem_of_lookup; eauto. }
  apply list_lookup_insert_Some in Hn as [(_ & <- & _)|[_ Hn]];
    apply list_elem_of_lookup; eauto.
Qed.

Lemma shiftDown_total fp : forall n slots,
  length slots = Z.to_nat NumSlots -> (n < 15)%nat ->
  exists slots',
    shiftDown n fp slots = Some slots' /\
    length slots' = Z.to_nat NumSlots /\
    (forall x, x ∈ slots' -> x ∈ slots).
Proof.
  induction n as [|n IH]; intros slots Hlen Hn; simpl.
  { by exists slots. }
  destruct (slotAt_in_range slots (Z.of_nat (S n)) Hlen) as (cur & Hcur & _).
  { unfold NumSlots. lia. }
  rewrite Hcur. simpl.
  destruct (bool_decide (cur <> None) && bool_decide (Z.of_nat (S n) <> fp)).
  - destruct (swapSlots_insert slots (Z.of_nat (S n)) (Z.of_nat (S n) + 1) Hlen)
      as (a & b & _ & _ & Hsw); [unfold NumSlots; lia..|].
    rewrite Hsw. simpl.
    destruct (IH (<[Z.to_nat (Z.of_nat (S n) + 1):=a]>
                    (<[Z.to_nat (Z.of_nat (S n)):=b]> slots)))
      as (slots' & Hs & Hl & Hel); [by rewrite !length_insert | lia |].
    exists slots'. split_and!; [done..|].
    intros x Hx. eapply swapSlots_elem; [exact Hsw|]. by apply Hel.
  - by exists slots.
Qed.

Lemma answersLeft_strike g q :
  g ∈ AnswerMap q ->
  bool_decide (answersLeft (strike g q) = 0) = bool_decide (AnswerMap q = {[ g ]}).
Proof.
  intros Hg. apply bool_decide_ext. unfold answersLeft. simpl.
  rewrite <- Nat2Z.inj_0, Nat2Z.inj_iff, size_empty_iff.
  split.
  - intros Hnone. apply set_eq. intros x. rewrite elem_of_singleton. split.
    + intros Hx. destruct (decide (x = g)) as [->|Hne]; [done|].
      exfalso. apply (not_elem_of_empty (C:=gset string) x). apply Hnone.
      apply elem_of_difference. split; [done|]. by rewrite elem_of_singleton.
    + by intros ->.
  - intros ->. intros x. rewrite elem_of_difference, elem_of_singleton.
    split; [by intros [? ?]|]. by intros ?%not_elem_of_empty.
Qed.

Lemma lowestHit_range g slots k q :
  lowestHit g slots k q -> (k < length slots)%nat.
Proof. intros (Hk & _). by eapply lookup_lt_Some. Qed.

(** C7: when the normalised guess is an answer left in no occupied slot and
    its sorted form equals the lower-cased alphagram of the question [q] at
    [fallerPos], [handleGuessEvent] stops the main timer and, if
    [topOfStack] is 0, sets [Dead] (recording [Lost]); otherwise it swaps
    the faller with slot [topOfStack - 1], sets [fallerPos] to -1, records
    [PieceLand], sets the status to [PieceAboutToDrop] and creates the next
    timer with [TickDuration / 4].  It returns [true] in both cases. *)
Theorem wrong_anagram_of_faller_is_punished gb g q :
  let g' := ToLower (TrimSpace g) in
  let fp := fallerPos gb in
  let tos := topOfStack gb in
  length (Slots gb) = Z.to_nat NumSlots ->
  Timer gb <> None ->
  noHit g' (Slots gb) ->
  slotAt (Slots gb) fp = Some (Some q) ->
  alphagrammize g' = ToLower (alphagram (OrigQuestion q)) ->
  (tos = 0 ->
   handleGuessEvent gb g =
     Some (set_LastStateChange (stateChange0 Lost) (set_Dead true gb), true,
           [TimerStop; Changed (stateChange0 Lost)])) /\
  (tos <> 0 ->
   exists below,
     slotAt (Slots gb) (tos - 1) = Some below /\
     handleGuessEvent gb g =
       Some (set_Timer (Some (Z.quot TickDuration 4))
               (set_status PieceAboutToDrop
                  (set_fallerPos (-1)
                     (set_LastStateChange (stateChange2 PieceLand (tos - 1) fp)
                        (set_Slots
                           (<[Z.to_nat (tos - 1) := Some q]>
                              (<[Z.to_nat fp := below]> (Slots gb))) gb)))),
             true,
             [TimerStop; Changed (stateChange2 PieceLand (tos - 1) fp);
              TimerNew (Z.quot TickDuration 4)])).
Proof.
  intros g' fp tos Hlen Htimer Hno Hq Hwrong.
  pose proof Hq as [Hfp Hq']%slotAt_lookup.
  assert (punishable g' fp 0 (Slots gb) = true) as Hpun.
  { eapply punishable_at; [lia| |].
    - rewrite Z.sub_0_r. exact Hq'.
    - by apply bool_decide_eq_true_2. }
  unfold handleGuessEvent. fold g'.
  destruct (guessLoop_miss g' fp (Slots gb) 0 guessVars0 Hno eq_refl eq_refl)
    as [w Hw].
  fold fp. rewrite Hw, Hpun. simpl. rewrite set_Slots_id.
  destruct (Timer gb) as [t|]; [|done]. simpl. fold tos.
  split; intros Htos.
  - destruct (decide (tos = 0)); [|done]. reflexivity.
  - destruct (decide (tos = 0)); [done|].
    pose proof (topOfStack_range gb Hlen) as Hr. fold tos in Hr.
    destruct (swapSlots_insert (Slots gb) fp (tos - 1) Hlen)
      as (a & b & Ha & Hb & Hsw); [lia..|].
    fold fp. rewrite Hsw. simpl. exists b. split.
    + apply slotAt_lookup. split; [lia|done].
    + rewrite Hq' in Ha. by injection Ha as <-.
Qed.

(** ** A solved slot *)

Lemma freshAnswerMap_spec words w :
  w ∈ freshAnswerMap words <-> exists answer, answer ∈ words /\ w = ToLower answer.
Proof.
  unfold freshAnswerMap.
  assert (forall (m : gset string),
    w ∈ foldl (fun m answer => {[ ToLower answer ]} ∪ m) m words <->
    w ∈ m \/ exists answer, answer ∈ words /\ w = ToLower answer) as Hgen.
  { induction words as [|a words IH]; intros m; simpl.
    - split; [by left|]. intros [?|(? & []%elem_of_nil & _)]; done.
    - rewrite IH, elem_of_union, elem_of_singleton. split.
      + intros [[->|?]|(x & Hx & ->)]; [right|by left|right].
        * exists a. split; [left|done].
        * exists x. split; [by right|done].
      + intros [?|(x & Hx & ->)]; [by left; right|].
        apply elem_of_cons in Hx as [->|Hx]; [by left; left|].
        right. by exists x. }
  rewrite Hgen. split; [intros [[]%elem_of_empty|?]; done | by right].
Qed.

Lemma handleGuessEvent_partial gb g k q :
  let g' := ToLower (TrimSpace g) in
  lowestHit g' (Slots gb) k q ->
  AnswerMap q <> {[ g' ]} ->
  handleGuessEvent gb g =
    Some (set_Slots (<[k := Some (strike g' q)]> (Slots gb)) gb, true, []).
Proof.
  intros g' Hhit Hmore. unfold handleGuessEvent. fold g'.
  rewrite (guessLoop_hit g' (fallerPos gb) (Slots gb) 0 guessVars0 k q Hhit)
    by done.
  destruct Hhit as (_ & Hin & _).
  rewrite (answersLeft_strike _ _ Hin), bool_decide_eq_false_2 by done.
  reflexivity.
Qed.

Lemma handleGuessEvent_full gb g k q :
  let g' := ToLower (TrimSpace g) in
  length (Slots gb) = Z.to_nat NumSlots ->
  lowestHit g' (Slots gb) k q ->
  AnswerMap q = {[ g' ]} ->
  let sc := stateChange1 FullySolveQuestion (Z.of_nat k) in
  (fallerPos gb = Z.of_nat k ->
   handleGuessEvent gb g =
     Some (set_Timer (Some (Z.quot TickDuration 4))
             (set_status PieceAboutToDrop
                (set_fallerPos (-1) (solvedBoard gb k))),
           true,
           attackSent gb q ++ [Changed sc; TimerNew (Z.quot TickDuration 4)])) /\
  (fallerPos gb <> Z.of_nat k ->
   exists slots3,
     shiftDown (Z.to_nat (Z.of_nat k - 1)) (fallerPos gb)
       (<[k := None]> (Slots gb)) = Some slots3 /\
     handleGuessEvent gb g =
       Some (checkWon (set_Slots slots3 (solvedBoard gb k)), true,
             attackSent gb q ++ [Changed sc])).
Proof.
  intros g' Hlen Hhit Hall sc.
  pose proof (lowestHit_range _ _ _ _ Hhit) as Hk.
  unfold handleGuessEvent. fold g'.
  rewrite (guessLoop_hit g' (fallerPos gb) (Slots gb) 0 guessVars0 k q Hhit)
    by done.
  destruct Hhit as (Hq & Hin & _).
  rewrite (answersLeft_strike _ _ Hin), bool_decide_eq_true_2 by done.
  cbn [partiallySolved negb andb fullySolvedQuestion fullySolvedSlot
       stateChanged Slots set_Slots].
  assert (0 <= 0 + Z.of_nat k < NumSlots) as Hr by (unfold NumSlots in *; lia).
  assert (slotAt (<[k:=Some (strike g' q)]> (Slots gb)) (0 + Z.of_nat k)
          = Some (Some (strike g' q))) as ->.
  { apply slotAt_lookup. split; [done|].
    replace (Z.to_nat (0 + Z.of_nat k)) with k by lia.
    by apply list_lookup_insert_eq. }
  cbn [mbind option_bind].
  rewrite setSlot_insert; [|by rewrite length_insert|done].
  replace (Z.to_nat (0 + Z.of_nat k)) with k by lia.
  rewrite list_insert_insert_eq. cbn [mbind option_bind].
  replace (0 + Z.of_nat k) with (Z.of_nat k) by lia.
  unfold solvedBoard, checkWon, attackSent.
  set (n := Z.to_nat (Z.of_nat k - 1)).
  destruct (shiftDown_total (fallerPos gb) n (<[k:=None]> (Slots gb)))
    as (slots3 & Hs & _ & _).
  { by rewrite length_insert. }
  { unfold NumSlots in *. lia. }
  destruct gb as [slots tm queue oppq fp oqt dead won idx rdy solved quit st lsc].
  simpl in *.
  split; intros Hfp.
  - destruct (decide (fp = Z.of_nat k)); [|done]. reflexivity.
  - destruct (decide (fp = Z.of_nat k)); [done|].
    exists slots3. split; [done|]. rewrite Hs. reflexivity.
Qed.

(** C4: when the guess removes the last answer of the question [q] in the
    lowest slot that still holds the guess, and [q] belongs to the board
    ([Whose q = Idx gb]), [handleGuessEvent] puts exactly one question on
    [manager.addToOppQueue]; it has the [Whose] and the alphagram of [q], and
    its answer map holds again the lower-cased form of every word of the
    alphagram, and nothing else. *)
Theorem solved_own_question_is_forwarded_fresh gb g k q :
  let g' := ToLower (TrimSpace g) in
  length (Slots gb) = Z.to_nat NumSlots ->
  lowestHit g' (Slots gb) k q ->
  AnswerMap q = {[ g' ]} ->
  Whose q = Idx gb ->
  exists gb' evs sent,
    handleGuessEvent gb g = Some (gb', true, evs) /\
    sentToOpp evs = [sent] /\
    Whose sent = Whose q /\
    OrigQuestion sent = OrigQuestion q /\
    (forall w, w ∈ AnswerMap sent <->
       exists answer, answer ∈ Words (OrigQuestion q) /\ w = ToLower answer).
Proof.
  intros g' Hlen Hhit Hall Hown.
  destruct (handleGuessEvent_full gb g k q Hlen Hhit Hall) as [Hfaller Hstack].
  assert (attackSent gb q = [SendToOpp (populateMap q)]) as Hsent.
  { unfold attackSent. by destruct (decide (Whose q = Idx gb)). }
  destruct (decide (fallerPos gb = Z.of_nat k)) as [Hfp|Hfp].
  - eexists _, _, (populateMap q). split; [exact (Hfaller Hfp)|].
    rewrite Hsent. split_and!; try reflexivity.
    intros w. apply freshAnswerMap_spec.
  - destruct (Hstack Hfp) as (slots3 & _ & Hres).
    eexists _, _, (populateMap q). split; [exact Hres|].
    rewrite Hsent. split_and!; try reflexivity.
    intros w. apply freshAnswerMap_spec.
Qed.

Lemma checkWon_Slots gb : Slots (checkWon gb) = Slots gb.
Proof.
  unfold checkWon. destruct (decide (Queue gb = [])); [|done].
  by destruct (allSlotsEmpty (Slots gb)).
Qed.

(** C8: once the provider has answered, [start] fails with "too few
    questions left" exactly when the length of the shuffled list minus
    [QuestionOffset] is below [TotalNumQuestions]; then [QuestionOffset] and
    [Boards] are as before, and [Loop], in [Countdown] when the timer
    fires, is left at once whatever events would follow: the status is
    [PermanentlyOver] and exactly one snapshot, of that last state, is
    sent.  (The countdown timer exists: [StartGameCountdown] creates it
    before it starts [Loop].) *)
Theorem too_few_questions_ends_the_match shuffle alphagrams gs :
  let remaining := Z.of_nat (length (shuffle alphagrams)) - QuestionOffset gs in
  let found := SearchReturns alphagrams in
  let gs0 := set_exitedboards (replicate (length (Players gs)) false) gs in
  (forall gs1 err outs,
     start shuffle found gs = Some (gs1, err, outs) ->
     (err = Some "too few questions left" <-> remaining < TotalNumQuestions)) /\
  (remaining < TotalNumQuestions ->
   start shuffle found gs = Some (gs0, Some "too few questions left", []) /\
   QuestionOffset gs0 = QuestionOffset gs /\
   Boards gs0 = Boards gs /\
   (gsStatus gs = Countdown -> timer gs <> None ->
    forall later,
      Loop shuffle (TimerFires found :: later) gs =
        Some (set_gsStatus PermanentlyOver gs0,
              [Snapshot (set_gsStatus PermanentlyOver gs0)], true))).
Proof.
  intros remaining found gs0. split.
  - intros gs1 err outs. unfold start. fold gs0. cbn [found].
    replace (Players gs0) with (Players gs) by reflexivity.
    replace (QuestionOffset gs0) with (QuestionOffset gs) by reflexivity.
    fold remaining. destruct (decide (remaining < TotalNumQuestions)) as [Hlt|Hge].
    + intros [= <- <- <-]. done.
    + intros H. split; [|done]. intros ->. exfalso.
      destruct (slice _ _ _); [|done]. simpl in H.
      destruct (deal _ _ _); [|done]. simpl in H.
      destruct (mapM _ _); done.
  - intros Hlt.
    assert (start shuffle found gs =
            Some (gs0, Some "too few questions left", [])) as Hstart.
    { unfold start. fold gs0. cbn [found].
      replace (QuestionOffset gs0) with (QuestionOffset gs) by reflexivity.
      fold remaining. by destruct (decide (remaining < TotalNumQuestions)). }
    split_and!; [done..|].
    intros Hcount Htimer later. cbn [Loop Loop_iteration].
    destruct (timer gs); [|done]. cbn [mbind option_bind].
    destruct (decide (gsStatus gs = Countdown)); [|done].
    rewrite Hstart. reflexivity.
Qed.

(** ** Dealing *)

Lemma ToLower_noUpper s : noUpper s = true -> ToLower s = s.
Proof.
  unfold noUpper, ToLower, of_runes, runes. intros H.
  rewrite <- (string_of_list_ascii_of_string s) at 2. f_equal.
  induction (list_ascii_of_string s) as [|c l IH]; [done|].
  simpl in *. apply andb_true_iff in H as [Hc Hl].
  rewrite IH by done. unfold toLowerRune.
  destruct (isUpper c); [done|]. reflexivity.
Qed.

Lemma deal_fresh (P : Question -> Prop) : forall alphs idx boards boards',
  (forall i alph, alph ∈ alphs -> P (dealtQuestion i alph)) ->
  deal idx alphs boards = Some boards' ->
  Forall (fun gb => exists i queue, gb = freshBoard i queue /\ Forall P queue) boards ->
  Forall (fun gb => exists i queue, gb = freshBoard i queue /\ Forall P queue) boards'.
Proof.
  induction alphs as [|alph rest IH]; intros idx boards boards' HP Hdeal Hall.
  { simpl in Hdeal. by injection Hdeal as <-. }
  simpl in Hdeal.
  destruct (enqueue _ _ boards) as [boards1|] eqn:Henq; [|done].
  simpl in Hdeal. eapply IH; [|exact Hdeal|].
  { intros i a Ha. apply HP. by right. }
  unfold enqueue in Henq. case_decide; [|done].
  destruct (boards !! _) as [gb|] eqn:Hgb; [|done].
  simpl in Henq. injection Henq as <-.
  apply Forall_insert; [done|].
  destruct (Forall_lookup_1 _ _ _ _ Hall Hgb) as (i & queue & -> & Hq).
  exists i, (queue ++ [dealtQuestion idx alph]). split; [done|].
  apply Forall_app. split; [done|]. apply Forall_singleton. apply HP. by left.
Qed.

Lemma Tick_fresh idx queue gb' evs :
  Tick (freshBoard idx queue) = Some (gb', evs) ->
  forall q, onBoard gb' q -> q ∈ queue.
Proof.
  unfold Tick, Tick_release, LetGoNextPiece.
  cbn [status freshBoard newGameBoard set_Queue fallerPos Queue Slots].
  change (topOfStack _) with 16.
  destruct (last queue) as [nextq|] eqn:Hlast; cbn.
  - intros [= <- <-] q [Hq|Hq]; cbn in Hq.
    + by eapply subseteq_take.
    + apply elem_of_cons in Hq as [Hq|Hq].
      * injection Hq as ->.
        apply last_Some in Hlast as [l' ->]. apply elem_of_app. right. by left.
      * exfalso. repeat (apply elem_of_cons in Hq as [?|Hq]; [done|]).
        by apply elem_of_nil in Hq.
  - intros [= <- <-] q [Hq|Hq]; cbn in Hq; [done|].
    exfalso. repeat (apply elem_of_cons in Hq as [?|Hq]; [done|]).
    by apply elem_of_nil in Hq.
Qed.

Lemma mapM_Tick_fresh (P : Question -> Prop) : forall boards boards',
  mapM (fun gb => fst <$> Tick gb) boards = Some boards' ->
  Forall (fun gb => exists i queue, gb = freshBoard i queue /\ Forall P queue) boards ->
  forall gb q, gb ∈ boards' -> onBoard gb q -> P q.
Proof.
  intros boards boards' Hticks Hall gb q Hgb Hq.
  apply mapM_Some in Hticks.
  apply list_elem_of_lookup in Hgb as [n Hn].
  destruct (Forall2_lookup_r _ _ _ _ _ Hticks Hn) as (gb0 & Hgb0 & Htick).
  destruct (Forall_lookup_1 _ _ _ _ Hall Hgb0) as (i & queue & -> & HP).
  destruct (Tick (freshBoard i queue)) as [[gb1 evs]|] eqn:HT; [|done].
  simpl in Htick. injection Htick as ->.
  eapply Forall_forall; [exact HP|]. eapply Tick_fresh; [exact HT|exact Hq].
Qed.

(** ** The faller has room under it on every reachable board *)

Lemma topOfStackFrom_spec fp slots : forall start,
  let t := topOfStackFrom fp start slots in
  (t = NumSlots \/
   (start <= t < start + Z.of_nat (length slots) /\ t <> fp /\
    exists q, slots !! Z.to_nat (t - start) = Some (Some q))) /\
  (forall i, start <= i < t -> i < start + Z.of_nat (length slots) ->
             i <> fp -> slots !! Z.to_nat (i - start) = Some None).
Proof.
  induction slots as [|s rest IH]; intros start; simpl.
  { split; [by left|]. intros i ? ?. lia. }
  destruct (bool_decide (s <> None) && bool_decide (start <> fp)) eqn:Hc.
  - apply andb_true_iff in Hc as [Hs Hfp].
    apply bool_decide_eq_true_1 in Hs. apply bool_decide_eq_true_1 in Hfp.
    split; [|intros; lia]. right. split; [lia|]. split; [done|].
    rewrite Z.sub_diag. simpl. destruct s as [q|]; [by exists q|done].
  - destruct (IH (start + 1)) as [Ht Hbelow]. split.
    + destruct Ht as [?|(Hr & Hne & q & Hq)]; [by left|right].
      split; [lia|]. split; [done|]. exists q.
      replace (Z.to_nat (topOfStackFrom fp (start + 1) rest - start))
        with (S (Z.to_nat (topOfStackFrom fp (start + 1) rest - (start + 1))))
        by lia.
      exact Hq.
    + intros i Hi Hlen Hne. destruct (decide (i = start)) as [->|Hne'].
      * rewrite Z.sub_diag. simpl.
        apply andb_false_iff in Hc as [Hs|Hs].
        -- apply bool_decide_eq_false_1 in Hs. destruct s; [|done].
           exfalso. by apply Hs.
        -- apply bool_decide_eq_false_1 in Hs. exfalso. apply Hs. done.
      * replace (Z.to_nat (i - start)) with (S (Z.to_nat (i - (start + 1))))
          by lia.
        simpl. apply Hbelow; lia.
Qed.

Lemma topOfStack_below gb i :
  length (Slots gb) = Z.to_nat NumSlots ->
  0 <= i < topOfStack gb -> i <> fallerPos gb ->
  slotAt (Slots gb) i = Some None.
Proof.
  intros Hlen Hi Hne.
  pose proof (topOfStack_range gb Hlen) as Hr.
  destruct (topOfStackFrom_spec (fallerPos gb) (Slots gb) 0) as [_ Hbelow].
  apply slotAt_lookup. split; [lia|].
  rewrite <- (Z.sub_0_r i). apply Hbelow; [done| |done].
  unfold NumSlots in *. lia.
Qed.

Lemma topOfStack_above gb m :
  0 <= m < NumSlots ->
  (forall i, 0 <= i <= m -> i <> fallerPos gb -> slotAt (Slots gb) i = Some None) ->
  m < topOfStack gb.
Proof.
  intros Hm Hempty.
  destruct (topOfStackFrom_spec (fallerPos gb) (Slots gb) 0) as [Ht _].
  fold (topOfStack gb) in Ht.
  destruct Ht as [->|(Hr & Hne & q & Hq)]; [lia|].
  destruct (decide (topOfStack gb <= m)) as [Hle|]; [|lia].
  specialize (Hempty (topOfStack gb)). 
  rewrite Z.sub_0_r in Hq.
  assert (slotAt (Slots gb) (topOfStack gb) = Some None) as Hn
    by (apply Hempty; [lia|done]).
  apply slotAt_lookup in Hn as [_ Hn]. congruence.
Qed.

Lemma shiftUp_total slots :
  length slots = Z.to_nat NumSlots ->
  exists top rest,
    slots = top :: rest /\ shiftUp slots = Some (rest ++ [top]).
Proof.
  change (Z.to_nat NumSlots) with 16%nat. intros Hlen.
  do 16 (destruct slots as [|? slots]; [done|]).
  destruct slots; [|done]. eexists _, _. split; reflexivity.
Qed.

Lemma addOppQueueLoop_total : forall oq gb added,
  length (Slots gb) = Z.to_nat NumSlots ->
  exists gb' n,
    addOppQueueLoop oq gb added = Some (gb', n) /\
    length (Slots gb') = Z.to_nat NumSlots /\
    fallerPos gb' = fallerPos gb /\ status gb' = status gb /\
    Timer gb' = Timer gb /\ Queue gb' = Queue gb.
Proof.
  induction oq as [|nextq rest IH]; intros gb added Hlen.
  { eexists _, _. split; [reflexivity|]. by destruct gb. }
  cbn [addOppQueueLoop].
  destruct (shiftUp_total _ Hlen) as (top & below & Hsl & ->).
  cbn [mbind option_bind].
  assert (length (below ++ [top]) = Z.to_nat NumSlots) as Hlen1.
  { rewrite Hsl in Hlen. rewrite length_app. simpl in *. lia. }
  rewrite setSlot_insert by (done || (unfold NumSlots; lia)).
  cbn [mbind option_bind].
  match goal with |- context [slotAt ?s 0] => set (slots2 := s) end.
  assert (length slots2 = Z.to_nat NumSlots) as Hlen2
    by (unfold slots2; by rewrite length_insert).
  destruct (slotAt_in_range slots2 0 Hlen2) as (x & -> & _);
    [unfold NumSlots; lia|].
  cbn [mbind option_bind].
  match goal with |- context [addOppQueueLoop rest ?g _] => set (gb2 := g) end.
  destruct (IH gb2 (added + 1)) as (gb' & n & Hrun & Hl & Hfp & Hst & Ht & Hq).
  { unfold gb2. by destruct (_ && _). }
  exists gb', n. split; [done|]. rewrite Hl, Hfp, Hst, Ht, Hq.
  unfold gb2. by destruct (_ && _); destruct gb.
Qed.

Lemma LetGoNextPiece_total gb :
  length (Slots gb) = Z.to_nat NumSlots ->
  exists gb1 released,
    LetGoNextPiece gb = Some (gb1, released) /\
    length (Slots gb1) = Z.to_nat NumSlots /\
    fallerPos gb1 = fallerPos gb /\ status gb1 = status gb /\
    Timer gb1 = Timer gb /\
    forall i, i <> 0 -> slotAt (Slots gb1) i = slotAt (Slots gb) i.
Proof.
  intros Hlen. unfold LetGoNextPiece.
  destruct (last (Queue gb)) as [nextq|].
  - rewrite setSlot_insert by (done || (unfold NumSlots; lia)).
    eexists _, _. split; [reflexivity|]. cbn.
    rewrite length_insert. split_and!; try done.
    intros i Hi. unfold slotAt. case_decide; [|done].
    apply list_lookup_insert_ne. lia.
  - eexists _, _. split; [reflexivity|]. done.
Qed.

(** The second half of [Tick] once the faller stands at its new position:
    the slots above the stack are empty, but for the one that the faller is
    about to leave. *)
Lemma Tick_land_aloft gb tos :
  length (Slots gb) = Z.to_nat NumSlots ->
  0 <= fallerPos gb < tos -> tos <= NumSlots ->
  (forall i, 0 <= i < tos -> i <> fallerPos gb -> i <> fallerPos gb - 1 ->
             slotAt (Slots gb) i = Some None) ->
  (0 < fallerPos gb -> slotAt (Slots gb) (fallerPos gb) = Some None) ->
  exists gb' evs, Tick_land gb tos = Some (gb', evs) /\ fallerAloft gb'.
Proof.
  intros Hlen Hfp Htos Hempty Hmid. unfold Tick_land, followFaller.
  destruct (decide (fallerPos gb = tos - 1)) as [Hland|Hfly].
  - cbn [fallerPos set_LastStateChange Slots].
    destruct (decide (fallerPos gb > 0)) as [Hpos|Hzero].
    + destruct (swapSlots_insert (Slots gb) (fallerPos gb - 1) (fallerPos gb) Hlen)
        as (a & b & _ & _ & ->); [lia..|].
      eexists _, _. split; [reflexivity|].
      split; [|split; [cbn; lia|cbn; lia]].
      cbn. by rewrite !length_insert.
    + eexists _, _. split; [reflexivity|].
      split; [|split; [cbn; lia|cbn; lia]]. done.
  - destruct (decide (fallerPos gb = 0 /\ tos = 0)) as [[_ ?]|_]; [lia|].
    destruct (decide (fallerPos gb > 0)) as [Hpos|Hzero].
    + destruct (swapSlots_insert (Slots gb) (fallerPos gb - 1) (fallerPos gb) Hlen)
        as (a & b & Ha & Hb & ->); [lia..|].
      eexists _, _. split; [reflexivity|].
      assert (b = None) as ->.
      { specialize (Hmid ltac:(lia)). apply slotAt_lookup in Hmid as [_ Hmid].
        congruence. }
      split; [cbn; by rewrite !length_insert|]. split; [cbn; lia|].
      intros _. cbn. split_and!; [done|done|lia|].
      intros i Hi Hne. apply slotAt_lookup. split; [lia|].
      destruct (decide (i = fallerPos gb - 1)) as [->|Hne'].
      * rewrite list_lookup_insert_ne by lia.
        apply list_lookup_insert_eq. lia.
      * rewrite !list_lookup_insert_ne by lia.
        specialize (Hempty i ltac:(lia) Hne Hne').
        by apply slotAt_lookup in Hempty as [_ ?].
    + eexists _, _. split; [reflexivity|].
      split; [done|]. split; [cbn; lia|].
      intros _. cbn. split_and!; [done|done|lia|].
      intros i Hi Hne. apply Hempty; lia.
Qed.

Lemma fallerAloft_grounded gb :
  length (Slots gb) = Z.to_nat NumSlots -> fallerPos gb = -1 -> fallerAloft gb.
Proof. intros Hlen Hfp. split; [done|]. rewrite Hfp. split; lia. Qed.

Lemma fallerAloft_same gb gb' :
  Slots gb' = Slots gb -> fallerPos gb' = fallerPos gb ->
  status gb' = status gb -> Timer gb' = Timer gb ->
  fallerAloft gb -> fallerAloft gb'.
Proof. unfold fallerAloft. by intros -> -> -> ->. Qed.

(** Releasing the next piece into slot 0 of a board without faller, and
    going on with the rest of [Tick]. *)
Lemma Tick_release_aloft gb gb1 released :
  length (Slots gb) = Z.to_nat NumSlots ->
  fallerPos gb = -1 -> topOfStack gb <> 0 ->
  LetGoNextPiece gb = Some (gb1, released) ->
  exists gb' evs,
    Tick_land (set_fallerPos 0 gb1) (topOfStack gb) = Some (gb', evs) /\
    fallerAloft gb'.
Proof.
  intros Hlen Hfp Htos Hlet.
  destruct (LetGoNextPiece_total gb Hlen)
    as (gb1' & r & Hlet' & Hlen1 & _ & _ & _ & Hsame).
  rewrite Hlet in Hlet'. injection Hlet' as <- <-.
  pose proof (topOfStack_range gb Hlen) as Hr.
  apply Tick_land_aloft; cbn [fallerPos set_fallerPos Slots].
  - done.
  - lia.
  - lia.
  - intros i Hi Hne _. rewrite Hsame by done.
    apply topOfStack_below; [done|done|lia].
  - lia.
Qed.

Lemma Tick_aloft gb :
  fallerAloft gb -> exists gb' evs, Tick gb = Some (gb', evs) /\ fallerAloft gb'.
Proof.
  intros (Hlen & Hfp & Hfly). unfold Tick, Tick_release.
  pose proof (topOfStack_range gb Hlen) as Hr.
  assert (fallerAloft (lose gb)) as Hlose.
  { by apply (fallerAloft_same gb). }
  destruct (status gb) eqn:Hst.
  - (* PieceDropping *)
    destruct (decide (topOfStack gb = 0)) as [Hz|Hnz].
    { eexists _, _. split; [reflexivity|done]. }
    destruct (decide (fallerPos gb = -1)) as [Hno|Hyes].
    + destruct (LetGoNextPiece_total gb Hlen)
        as (gb1 & r & Hlet & _ & Hfp1 & _).
      rewrite Hlet. cbn [fmap option_fmap option_map fst mbind option_bind].
      rewrite Hfp1, Hno.
      destruct (Tick_release_aloft gb gb1 r Hlen Hno Hnz Hlet)
        as (gb' & evs & Hland & Hok).
      exists gb', evs. split; [exact Hland|done].
    + cbn [mbind option_bind].
      destruct (Hfly ltac:(lia)) as (_ & Htimer & Hroom & Hempty).
      pose proof (topOfStack_above gb (fallerPos gb + 1) ltac:(lia) Hempty)
        as Habove.
      apply Tick_land_aloft; cbn [fallerPos set_fallerPos Slots].
      * done.
      * lia.
      * lia.
      * intros i Hi _ Hne. apply topOfStack_below; [done|lia|lia].
      * intros _. apply Hempty; lia.
  - (* PieceAboutToDrop *)
    assert (fallerPos gb = -1) as Hno.
    { destruct (decide (0 <= fallerPos gb)) as [Hge|]; [|lia].
      destruct (Hfly Hge) as [? _]. congruence. }
    destruct (oppqueueReady gb && bool_decide (OppQueue gb <> [])).
    { destruct (addOppQueueLoop_total (OppQueue gb) gb 0 Hlen)
        as (gb1 & n & Hadd & Hlen1 & Hfp1 & _).
      unfold addOppQueue. rewrite Hadd. cbn [mbind option_bind].
      cbn [Dead set_oppqueueReady]. destruct (Dead gb1).
      - eexists _, _. split; [reflexivity|].
        apply fallerAloft_grounded; cbn; [done|]. by rewrite Hfp1.
      - eexists _, _. split; [reflexivity|].
        apply fallerAloft_grounded; cbn; [done|]. by rewrite Hfp1. }
    destruct (decide (Queue gb = [])).
    { eexists _, _. split; [reflexivity|]. by apply fallerAloft_grounded. }
    destruct (decide (topOfStack gb = 0)) as [Hz|Hnz].
    { eexists _, _. split; [reflexivity|done]. }
    destruct (LetGoNextPiece_total gb Hlen) as (gb1 & r & Hlet & _).
    rewrite Hlet. cbn [fmap option_fmap option_map fst mbind option_bind].
    exact (Tick_release_aloft gb gb1 r Hlen Hno Hnz Hlet).
  - (* PlayerQueueEmpty *)
    assert (fallerPos gb = -1) as Hno.
    { destruct (decide (0 <= fallerPos gb)) as [Hge|]; [|lia].
      destruct (Hfly Hge) as [? _]. congruence. }
    destruct (oppqueueReady gb && bool_decide (OppQueue gb <> [])).
    { destruct (addOppQueueLoop_total (OppQueue gb) gb 0 Hlen)
        as (gb1 & n & Hadd & Hlen1 & Hfp1 & _).
      unfold addOppQueue. rewrite Hadd. cbn [mbind option_bind].
      cbn [Dead set_oppqueueReady]. destruct (Dead gb1).
      - eexists _, _. split; [reflexivity|].
        apply fallerAloft_grounded; cbn; [done|]. by rewrite Hfp1.
      - eexists _, _. split; [reflexivity|].
        apply fallerAloft_grounded; cbn; [done|]. by rewrite Hfp1. }
    destruct (decide (Queue gb = [])).
    { eexists _, _. split; [reflexivity|]. by apply fallerAloft_grounded. }
    destruct (decide (topOfStack gb = 0)) as [Hz|Hnz].
    { eexists _, _. split; [reflexivity|done]. }
    destruct (LetGoNextPiece_total gb Hlen) as (gb1 & r & Hlet & _).
    rewrite Hlet. cbn [fmap option_fmap option_map fst mbind option_bind].
    exact (Tick_release_aloft gb gb1 r Hlen Hno Hnz Hlet).
Qed.

Lemma hit_or_miss g slots :
  noHit g slots \/ exists k q, lowestHit g slots k q.
Proof.
  induction slots as [|s rest IH]; [left; constructor|].
  destruct (decide (g ∈ answers s)) as [Hin|Hout].
  - right. destruct s as [q|]; [|by apply elem_of_empty in Hin].
    exists 0%nat, q. split_and!; [done|done|constructor].
  - destruct IH as [Hno|(k & q & Hk & Hin & Hno)].
    + left. by constructor.
    + right. exists (S k), q. split_and!; [done|done|]. simpl. by constructor.
Qed.

Lemma punishable_inv g fp todo : forall slot,
  punishable g fp slot todo = true ->
  slot <= fp < slot + Z.of_nat (length todo) /\
  exists q, todo !! Z.to_nat (fp - slot) = Some (Some q) /\ wrongFor g q = true.
Proof.
  induction todo as [|s rest IH]; intros slot Hp; [done|].
  assert (punishable g fp (slot + 1) rest = true ->
          slot <= fp < slot + Z.of_nat (length (s :: rest)) /\
          exists q, (s :: rest) !! Z.to_nat (fp - slot) = Some (Some q) /\
                    wrongFor g q = true) as Hrec.
  { intros Hr. destruct (IH _ Hr) as (Hrange & q & Hq & Hw).
    split; [simpl; lia|]. exists q. split; [|done].
    replace (Z.to_nat (fp - slot)) with (S (Z.to_nat (fp - (slot + 1)))) by lia.
    exact Hq. }
  destruct s as [q|]; simpl in Hp; [|by apply Hrec].
  apply orb_true_iff in Hp as [Hp|Hp]; [|by apply Hrec].
  apply andb_true_iff in Hp as [Hw Heq]. apply bool_decide_eq_true_1 in Heq.
  subst fp. split; [simpl; lia|]. exists q. by rewrite Z.sub_diag.
Qed.

(** Below an empty slot [m] the loop that closes a solved slot changes
    nothing. *)
Lemma shiftDown_below fp m : forall n slots slots',
  (m <= n)%nat ->
  slots !! m = Some None ->
  shiftDown n fp slots = Some slots' ->
  forall i, (i <= m)%nat -> slots' !! i = slots !! i.
Proof.
  induction n as [|n IH]; intros slots slots' Hmn Hm Hs i Hi.
  { simpl in Hs. by injection Hs as <-. }
  simpl in Hs.
  destruct (slotAt slots (Z.of_nat (S n))) as [cur|] eqn:Hcur; [|done].
  simpl in Hs. apply slotAt_lookup in Hcur as [Hr Hcur].
  rewrite Nat2Z.id in Hcur.
  destruct (bool_decide (cur <> None) && bool_decide (Z.of_nat (S n) <> fp))
    eqn:Hc; [|by injection Hs as <-].
  destruct (swapSlots _ _ slots) as [slots1|] eqn:Hsw; [|done].
  simpl in Hs.
  apply swapSlots_Some in Hsw as (a & b & _ & _ & Ha & Hb & ->).
  rewrite Nat2Z.id in *.
  replace (Z.to_nat (Z.of_nat (S n) + 1)) with (S (S n)) in * by lia.
  assert (m <> S n) as Hne.
  { intros ->. rewrite Hm in Hcur. injection Hcur as <-.
    by rewrite bool_decide_eq_false_2 in Hc by (by intros ?). }
  assert (<[S (S n):=a]> (<[S n:=b]> slots) !! m = Some None) as Hm'
    by (by rewrite !list_lookup_insert_ne by lia).
  rewrite (IH _ _ ltac:(lia) Hm' Hs i Hi).
  by rewrite !list_lookup_insert_ne by lia.
Qed.

Lemma handleGuessEvent_miss gb g :
  let g' := ToLower (TrimSpace g) in
  noHit g' (Slots gb) ->
  handleGuessEvent gb g =
    if punishable g' (fallerPos gb) 0 (Slots gb) then punishment gb
    else Some (gb, false, []).
Proof.
  intros g' Hno. unfold handleGuessEvent. fold g'.
  destruct (guessLoop_miss g' (fallerPos gb) (Slots gb) 0 guessVars0 Hno
              eq_refl eq_refl) as [w ->].
  cbn [partiallySolved madePunishableMistake stateChanged fullySolvedQuestion
       guessVars0 negb andb orb].
  rewrite set_Slots_id.
  destruct (punishable g' (fallerPos gb) 0 (Slots gb)); reflexivity.
Qed.

Lemma punishment_aloft gb :
  fallerAloft gb -> 0 <= fallerPos gb < NumSlots ->
  exists slots2,
    fallerPos gb + 1 < topOfStack gb /\
    swapSlots (fallerPos gb) (topOfStack gb - 1) (Slots gb) = Some slots2 /\
    length slots2 = Z.to_nat NumSlots /\
    punishment gb =
      Some (set_Timer (Some (Z.quot TickDuration 4))
              (set_status PieceAboutToDrop
                 (set_fallerPos (-1)
                    (set_LastStateChange
                       (stateChange2 PieceLand (topOfStack gb - 1) (fallerPos gb))
                       (set_Slots slots2 gb)))),
            true,
            [TimerStop;
             Changed (stateChange2 PieceLand (topOfStack gb - 1) (fallerPos gb));
             TimerNew (Z.quot TickDuration 4)]).
Proof.
  intros (Hlen & _ & Hfly) Hfp.
  destruct (Hfly ltac:(lia)) as (_ & Htimer & Hroom & Hempty).
  pose proof (topOfStack_above gb (fallerPos gb + 1) ltac:(lia) Hempty) as Habove.
  pose proof (topOfStack_range gb Hlen) as Hr.
  destruct (swapSlots_insert (Slots gb) (fallerPos gb) (topOfStack gb - 1) Hlen)
    as (a & b & _ & _ & Hsw); [lia..|].
  eexists. split; [done|]. split; [exact Hsw|].
  split; [by rewrite !length_insert|].
  unfold punishment. destruct (Timer gb); [|done]. cbn [mbind option_bind].
  destruct (decide (topOfStack gb = 0)); [lia|].
  rewrite Hsw. reflexivity.
Qed.

Lemma handleGuessEvent_aloft gb g :
  fallerAloft gb ->
  exists gb' changed evs,
    handleGuessEvent gb g = Some (gb', changed, evs) /\ fallerAloft gb'.
Proof.
  intros Haloft. pose proof Haloft as (Hlen & Hfp & Hfly).
  set (g' := ToLower (TrimSpace g)).
  destruct (hit_or_miss g' (Slots gb)) as [Hno|(k & q & Hhit)].
  - rewrite (handleGuessEvent_miss gb g Hno). fold g'.
    destruct (punishable g' (fallerPos gb) 0 (Slots gb)) eqn:Hp.
    + apply punishable_inv in Hp as [Hr _].
      destruct (punishment_aloft gb Haloft) as (slots2 & _ & _ & Hl & ->).
      { unfold NumSlots in *. lia. }
      eexists _, _, _. split; [reflexivity|].
      by apply fallerAloft_grounded.
    + by eexists _, _, _.
  - pose proof (lowestHit_range _ _ _ _ Hhit) as Hk.
    pose proof Hhit as (Hq & _ & _).
    assert (0 <= fallerPos gb -> fallerPos gb <> Z.of_nat k ->
            fallerPos gb + 1 < Z.of_nat k) as Hdeep.
    { intros Hge Hne. destruct (Hfly Hge) as (_ & _ & _ & Hempty).
      destruct (decide (fallerPos gb + 1 < Z.of_nat k)); [done|].
      specialize (Hempty (Z.of_nat k) ltac:(lia) ltac:(lia)).
      apply slotAt_lookup in Hempty as [_ Hempty].
      rewrite Nat2Z.id in Hempty. congruence. }
    destruct (decide (AnswerMap q = {[ g' ]})) as [Hall|Hmore].
    + destruct (handleGuessEvent_full gb g k q Hlen Hhit Hall) as [Hfaller Hstack].
      destruct (decide (fallerPos gb = Z.of_nat k)) as [Heq|Hne].
      * rewrite (Hfaller Heq). eexists _, _, _. split; [reflexivity|].
        apply fallerAloft_grounded; cbn; [|done]. by rewrite length_insert.
      * destruct (Hstack Hne) as (slots3 & Hshift & ->).
        eexists _, _, _. split; [reflexivity|].
        destruct (shiftDown_total (fallerPos gb) (Z.to_nat (Z.of_nat k - 1))
                    (<[k:=None]> (Slots gb))) as (s3 & Hs & Hl3 & _).
        { by rewrite length_insert. }
        { unfold NumSlots in *. lia. }
        rewrite Hshift in Hs. injection Hs as <-.
        apply (fallerAloft_same (set_Slots slots3 (solvedBoard gb k)));
          [apply checkWon_Slots|unfold checkWon; repeat case_match; done..|].
        split; [done|]. split; [done|]. cbn. intros Hge.
        destruct (Hfly Hge) as (Hst & Htm & Hroom & Hempty).
        specialize (Hdeep Hge Hne). split_and!; [done..|].
        intros i Hi Hne'. apply slotAt_lookup. split; [lia|].
        assert (<[k:=None]> (Slots gb) !! Z.to_nat (fallerPos gb + 1)
                = Some None) as Hunder.
        { rewrite list_lookup_insert_ne by lia.
          specialize (Hempty (fallerPos gb + 1) ltac:(lia) ltac:(lia)).
          by apply slotAt_lookup in Hempty as [_ ?]. }
        assert (Z.to_nat (fallerPos gb + 1) <= Z.to_nat (Z.of_nat k - 1))%nat
          as Hmn by lia.
        rewrite (shiftDown_below (fallerPos gb) _ _ _ _ Hmn Hunder Hshift)
          by lia.
        rewrite list_lookup_insert_ne by lia.
        specialize (Hempty i Hi Hne').
        by apply slotAt_lookup in Hempty as [_ ?].
    + rewrite (handleGuessEvent_partial gb g k q Hhit Hmore).
      eexists _, _, _. split; [reflexivity|].
      split; [cbn; by rewrite length_insert|]. split; [done|].
      cbn. intros Hge. destruct (Hfly Hge) as (Hst & Htm & Hroom & Hempty).
      split_and!; [done..|]. intros i Hi Hne.
      specialize (Hempty i Hi Hne). apply slotAt_lookup in Hempty as [? Hempty].
      apply slotAt_lookup. split; [done|].
      rewrite list_lookup_insert_ne; [done|]. intros ->. congruence.
Qed.

Lemma reachable_aloft gb : reachable gb -> fallerAloft gb.
Proof.
  induction 1 as [idx queue|gb gb' evs _ IH Htick|gb _ IH
                  |gb g gb' changed evs _ IH Hguess|gb alph _ IH|gb _ IH|gb _ IH].
  - by apply fallerAloft_grounded.
  - destruct (Tick_aloft gb IH) as (gb1 & evs1 & Ht & Hok).
    rewrite Htick in Ht. by injection Ht as -> _.
  - destruct IH as (Hlen & Hfp & Hfly). split; [done|]. split; [done|].
    intros Hge. destruct (Hfly Hge) as (_ & ? & ? & ?). done.
  - destruct (handleGuessEvent_aloft gb g IH) as (gb1 & c & evs1 & Hg & Hok).
    rewrite Hguess in Hg. by injection Hg as -> _ _.
  - apply (fallerAloft_same gb); [..|done];
      unfold receiveAttack; by case_decide.
  - by apply (fallerAloft_same gb).
  - by apply (fallerAloft_same gb).
Qed.

(** ** Landings *)

Lemma Tick_land_landing gb tos gb' evs n :
  Tick_land gb tos = Some (gb', evs) -> landedAt evs n ->
  fallerPos gb' = -1 /\ nextTick evs = Some (landingPause n) /\
  Timer gb' = Some (landingPause n).
Proof.
  unfold Tick_land. intros Hland Hn.
  destruct (decide (fallerPos gb = tos - 1)).
  - destruct (followFaller _) as [gb1|] eqn:Hf; [|done].
    cbn [mbind option_bind] in Hland. injection Hland as <- <-.
    destruct Hn as (n2 & s & Hn).
    apply elem_of_cons in Hn as [Hn|Hn].
    + injection Hn as -> _ _. done.
    + apply elem_of_cons in Hn as [Hn|Hn]; [done|]. by apply elem_of_nil in Hn.
  - destruct (decide (fallerPos gb = 0 /\ tos = 0)).
    + injection Hland as <- <-. no_landing Hn.
    + destruct (followFaller gb) as [gb1|]; [|done].
      cbn [mbind option_bind] in Hland. injection Hland as <- <-.
      no_landing Hn.
Qed.

Lemma Tick_landing gb gb' evs n :
  Tick gb = Some (gb', evs) -> landedAt evs n ->
  fallerPos gb' = -1 /\ nextTick evs = Some (landingPause n) /\
  Timer gb' = Some (landingPause n).
Proof.
  unfold Tick. intros Htick Hn.
  destruct (Tick_release gb) as [[gb1 evs1|gb1 tos]|] eqn:Hrel; [| |done].
  - cbn [mbind option_bind] in Htick. injection Htick as <- <-.
    exfalso. unfold Tick_release in Hrel.
    repeat (case_match; simplify_option_eq; try no_landing Hn).
  - cbn [mbind option_bind] in Htick. by eapply Tick_land_landing.
Qed.

Lemma handleGuessEvent_landing gb g gb' changed evs n :
  fallerAloft gb ->
  handleGuessEvent gb g = Some (gb', changed, evs) -> landedAt evs n ->
  n <> 0 /\ fallerPos gb' = -1 /\ nextTick evs = Some (landingPause n) /\
  Timer gb' = Some (landingPause n).
Proof.
  intros Haloft Hguess Hn. pose proof Haloft as (Hlen & _ & _).
  set (g' := ToLower (TrimSpace g)).
  destruct (hit_or_miss g' (Slots gb)) as [Hno|(k & q & Hhit)].
  - rewrite (handleGuessEvent_miss gb g Hno) in Hguess. fold g' in Hguess.
    destruct (punishable g' (fallerPos gb) 0 (Slots gb)) eqn:Hp.
    + apply punishable_inv in Hp as [Hr _].
      destruct (punishment_aloft gb Haloft) as (slots2 & Hdeep & _ & _ & Hpun).
      { unfold NumSlots in *. lia. }
      rewrite Hpun in Hguess. injection Hguess as <- <- <-.
      destruct Hn as (n2 & s & Hn).
      apply elem_of_cons in Hn as [Hn|Hn]; [done|].
      apply elem_of_cons in Hn as [Hn|Hn].
      * injection Hn as -> _ _. unfold landingPause.
        destruct (decide (topOfStack gb - 1 = 0)); [lia|].
        split; [lia|done].
      * apply elem_of_cons in Hn as [Hn|Hn]; [done|].
        by apply elem_of_nil in Hn.
    + injection Hguess as <- <- <-. no_landing Hn.
  - exfalso. destruct (decide (AnswerMap q = {[ g' ]})) as [Hall|Hmore].
    + destruct (handleGuessEvent_full gb g k q Hlen Hhit Hall) as [Hfaller Hstack].
      assert (forall tail, (forall e, e ∈ tail -> forall sc, e = Changed sc ->
                              ChangeType sc <> PieceLand) ->
                landedAt (attackSent gb q ++ tail) n -> False) as Hnone.
      { intros tail Htail (n2 & s & Hin). apply elem_of_app in Hin as [Hin|Hin].
        - unfold attackSent in Hin. case_decide.
          + apply elem_of_cons in Hin as [Hin|Hin]; [done|].
            by apply elem_of_nil in Hin.
          + by apply elem_of_nil in Hin.
        - by apply (Htail _ Hin (mkStateChange PieceLand n n2 s)). }
      destruct (decide (fallerPos gb = Z.of_nat k)) as [Heq|Hne].
      * rewrite (Hfaller Heq) in Hguess. injection Hguess as <- <- <-.
        revert Hn. apply Hnone. intros e He sc ->.
        apply elem_of_cons in He as [He|He]; [by injection He as ->|].
        apply elem_of_cons in He as [He|He]; [done|]. by apply elem_of_nil in He.
      * destruct (Hstack Hne) as (slots3 & _ & Hres).
        rewrite Hres in Hguess. injection Hguess as <- <- <-.
        revert Hn. apply Hnone. intros e He sc ->.
        apply elem_of_cons in He as [He|He]; [by injection He as ->|].
        by apply elem_of_nil in He.
    + rewrite (handleGuessEvent_partial gb g k q Hhit Hmore) in Hguess.
      injection Hguess as <- <- <-. no_landing Hn.
Qed.

(** C3: on every board that the engine can reach, a call of [Tick] or of
    [handleGuessEvent] that records a [PieceLand] (a natural landing or the
    punishment drop) leaves [fallerPos] at -1 and creates the next main
    timer with [TickDuration] when the piece landed in slot 0 and with
    [TickDuration / 4] otherwise.  Neither call panics on such a board. *)
Theorem landing_schedules_the_next_tick gb :
  reachable gb ->
  (forall gb' evs n,
     Tick gb = Some (gb', evs) -> landedAt evs n ->
     fallerPos gb' = -1 /\ nextTick evs = Some (landingPause n) /\
     Timer gb' = Some (landingPause n)) /\
  (forall g gb' changed evs n,
     handleGuessEvent gb g = Some (gb', changed, evs) -> landedAt evs n ->
     fallerPos gb' = -1 /\ nextTick evs = Some (landingPause n) /\
     Timer gb' = Some (landingPause n)) /\
  is_Some (Tick gb) /\
  (forall g, is_Some (handleGuessEvent gb g)).
Proof.
  intros Haloft%reachable_aloft. split_and!.
  - intros gb' evs n. apply Tick_landing.
  - intros g gb' changed evs n Hg Hn.
    by destruct (handleGuessEvent_landing gb g gb' changed evs n Haloft Hg Hn)
      as (_ & ? & ? & ?).
  - destruct (Tick_aloft gb Haloft) as (gb' & evs & -> & _). by eexists.
  - intros g.
    destruct (handleGuessEvent_aloft gb g Haloft) as (gb' & c & evs & -> & _).
    by eexists.
Qed.

(** ** Alphagrams *)

Lemma runes_of_runes l : runes (of_runes l) = l.
Proof. apply list_ascii_of_string_of_list_ascii. Qed.

Lemma of_runes_runes s : of_runes (runes s) = s.
Proof. apply string_of_list_ascii_of_string. Qed.

Lemma insertRune_perm c l : insertRune c l ≡ₚ c :: l.
Proof.
  induction l as [|d l IH]; simpl; [done|].
  destruct (N_of_ascii c <=? N_of_ascii d)%N; [done|].
  rewrite IH. apply Permutation_swap.
Qed.

Lemma sortRunes_perm l : sortRunes l ≡ₚ l.
Proof.
  induction l as [|c l IH]; simpl; [done|].
  change (foldr insertRune [] l) with (sortRunes l).
  by rewrite insertRune_perm, IH.
Qed.

Lemma insertRune_sorted c l : Sorted runeLe l -> Sorted runeLe (insertRune c l).
Proof.
  induction l as [|d l IH]; intros Hs; simpl.
  { repeat constructor. }
  destruct (N.leb_spec (N_of_ascii c) (N_of_ascii d)) as [Hcd|Hcd].
  - constructor; [done|]. by constructor.
  - apply Sorted_inv in Hs as [Hl Hd]. constructor; [by apply IH|].
    destruct l as [|e l]; simpl.
    + constructor. unfold runeLe. lia.
    + apply HdRel_inv in Hd.
      destruct (N.leb_spec (N_of_ascii c) (N_of_ascii e));
        constructor; unfold runeLe in *; lia.
Qed.

Lemma sortRunes_sorted l : Sorted runeLe (sortRunes l).
Proof.
  induction l as [|c l IH]; simpl; [constructor|]. by apply insertRune_sorted.
Qed.

(** Two strings have the same alphagram exactly when one is a rearrangement
    of the runes of the other. *)
Lemma alphagrammize_eq_iff v w :
  alphagrammize v = alphagrammize w <-> runes v ≡ₚ runes w.
Proof.
  unfold alphagrammize. split.
  - intros H. apply (f_equal runes) in H. rewrite !runes_of_runes in H.
    by rewrite <- (sortRunes_perm (runes v)), H, sortRunes_perm.
  - intros H. f_equal.
    apply (Sorted_unique runeLe); [apply sortRunes_sorted..|].
    by rewrite !sortRunes_perm.
Qed.

Lemma N_toLowerRune_upper c :
  isUpper c = true -> N_of_ascii (toLowerRune c) = (N_of_ascii c + 32)%N.
Proof.
  intros Hc. unfold toLowerRune. rewrite Hc.
  apply N_ascii_embedding. unfold isUpper in Hc.
  apply andb_true_iff in Hc as [_ Hc]. apply N.leb_le in Hc. lia.
Qed.

Lemma insertRune_toLower c l :
  isUpper c = true -> Forall (fun d => isUpper d = true) l ->
  insertRune (toLowerRune c) (map toLowerRune l)
    = map toLowerRune (insertRune c l).
Proof.
  intros Hc Hl. induction Hl as [|d l Hd Hl IH]; simpl; [done|].
  rewrite !N_toLowerRune_upper by done.
  replace (N_of_ascii c + 32 <=? N_of_ascii d + 32)%N
    with (N_of_ascii c <=? N_of_ascii d)%N.
  - destruct (N_of_ascii c <=? N_of_ascii d)%N; simpl; [done|]. by rewrite IH.
  - apply eq_true_iff_eq. rewrite !N.leb_le. lia.
Qed.

Lemma insertRune_Forall (P : rune -> Prop) c l :
  P c -> Forall P l -> Forall P (insertRune c l).
Proof. intros Hc Hl. by rewrite insertRune_perm; constructor. Qed.

Lemma sortRunes_toLower l :
  Forall (fun d => isUpper d = true) l ->
  sortRunes (map toLowerRune l) = map toLowerRune (sortRunes l).
Proof.
  induction 1 as [|c l Hc Hl IH]; simpl; [done|].
  change (foldr insertRune [] ?x) with (sortRunes x).
  rewrite IH. apply insertRune_toLower; [done|].
  clear IH. induction Hl; simpl; [constructor|by apply insertRune_Forall].
Qed.

(** For a string in one case, lower-casing the sorted string is sorting the
    lower-cased string. *)
Lemma ToLower_alphagrammize s :
  uniformCase s -> ToLower (alphagrammize s) = alphagrammize (ToLower s).
Proof.
  intros [Hup|Hlow].
  - unfold ToLower, alphagrammize. rewrite !runes_of_runes. f_equal.
    symmetry. apply sortRunes_toLower.
    unfold allUpper in Hup. apply Forall_forall. intros c Hc.
    eapply forallb_forall in Hup; [exact Hup|]. by apply list_elem_of_In.
  - rewrite (ToLower_noUpper s Hlow). apply ToLower_noUpper.
    unfold noUpper, alphagrammize in *. rewrite runes_of_runes.
    apply forallb_forall. intros c Hc.
    eapply forallb_forall in Hlow; [exact Hlow|].
    apply list_elem_of_In. apply list_elem_of_In in Hc.
    by rewrite sortRunes_perm in Hc.
Qed.

(** C9, as amended: every question that a successful [start] has put on a
    board was built from an alphagram of the shuffled list, and its stored
    alphagram is [alphagrammize] of the provider's string: the code points
    sorted, the case of the letters kept.  For a provider's string of ASCII
    characters it is the lower-cased sorted form when the string has no
    upper-case letter.  The lower-casing happens in the comparison of
    [solveQuestion]: a guess counts as a wrong anagram when its sorted form
    equals the lower-cased stored string; for a provider's string of ASCII
    characters in one case and a guess of ASCII characters, that is exactly
    when the guess is a rearrangement of the letters of the lower-cased
    alphagram. *)
Theorem dealt_alphagram_is_sorted_not_lowercased shuffle alphagrams gs gs' outs :
  start shuffle (SearchReturns alphagrams) gs = Some (gs', None, outs) ->
  forall gb q,
    gb ∈ Boards gs' -> onBoard gb q ->
    exists idx alph,
      alph ∈ shuffle alphagrams /\
      q = dealtQuestion idx alph /\
      alphagram (OrigQuestion q) = alphagrammize (alphagram alph) /\
      (isASCII (alphagram alph) = true -> noUpper (alphagram alph) = true ->
       alphagram (OrigQuestion q) = alphagrammize (ToLower (alphagram alph))) /\
      (forall g, wrongFor g q =
         bool_decide (alphagrammize g = ToLower (alphagrammize (alphagram alph)))) /\
      (isASCII (alphagram alph) = true -> uniformCase (alphagram alph) ->
       forall g, isASCII g = true ->
                 (wrongFor g q = true <->
                  runes g ≡ₚ runes (ToLower (alphagram alph)))).
Proof.
  intros Hstart gb q Hgb Hq. unfold start in Hstart.
  case_decide; [done|].
  destruct (slice _ _ _) as [dealt|] eqn:Hslice; [|done]. simpl in Hstart.
  destruct (deal _ _ _) as [boards1|] eqn:Hdeal; [|done]. simpl in Hstart.
  destruct (mapM _ _) as [boards2|] eqn:Hticks; [|done].
  injection Hstart as <- <-. simpl in Hgb.
  set (P := fun q => exists idx alph, alph ∈ dealt /\ q = dealtQuestion idx alph).
  assert (Forall (fun gb => exists i queue, gb = freshBoard i queue /\ Forall P queue)
            boards1) as Hfresh.
  { eapply (deal_fresh P); [|exact Hdeal|].
    - intros i alph Ha. by exists i, alph.
    - apply Forall_forall. intros gb0 Hgb0.
      apply list_elem_of_lookup in Hgb0 as [n Hn].
      apply list_lookup_imap_Some in Hn as (p & _ & ->).
      exists (Z.of_nat n), []. split; [reflexivity|constructor]. }
  destruct (mapM_Tick_fresh P _ _ Hticks Hfresh gb q Hgb Hq)
    as (idx & alph & Halph & ->).
  exists idx, alph. split_and!.
  - unfold slice in Hslice. case_decide; [|done]. injection Hslice as <-.
    eapply subseteq_drop. eapply subseteq_take. exact Halph.
  - reflexivity.
  - reflexivity.
  - intros _ Hlow. simpl. by rewrite ToLower_noUpper.
  - intros g. reflexivity.
  - intros _ Hcase g _. unfold wrongFor. rewrite bool_decide_eq_true.
    cbn [dealtQuestion populateMap OrigQuestion alphagram].
    rewrite (ToLower_alphagrammize _ Hcase). apply alphagrammize_eq_iff.
Qed.

(** * Further properties of the engine *)

(** X1: on the 16 slots of a board, [topOfStack] is between 0 and
    [NumSlots]; every slot above it other than the faller is empty; and
    when it is below [NumSlots] it is the index of an occupied slot that is
    not the faller. *)
Theorem topOfStack_is_the_highest_settled_slot gb :
  length (Slots gb) = Z.to_nat NumSlots ->
  0 <= topOfStack gb <= NumSlots /\
  (forall i, 0 <= i < topOfStack gb -> i <> fallerPos gb ->
             slotAt (Slots gb) i = Some None) /\
  (topOfStack gb < NumSlots ->
   topOfStack gb <> fallerPos gb /\
   exists q, slotAt (Slots gb) (topOfStack gb) = Some (Some q)).
Proof.
  intros Hlen. pose proof (topOfStack_range gb Hlen) as Hr.
  split; [done|]. split.
  - intros i Hi Hne. by apply topOfStack_below.
  - intros Hlt.
    destruct (topOfStackFrom_spec (fallerPos gb) (Slots gb) 0) as [Ht _].
    fold (topOfStack gb) in Ht.
    destruct Ht as [Heq|(_ & Hne & q & Hq)]; [lia|].
    split; [done|]. exists q. apply slotAt_lookup. split; [lia|].
    by rewrite Z.sub_0_r in Hq.
Qed.

Lemma addOppQueueLoop_column : forall oq gb added,
  length (Slots gb) = Z.to_nat NumSlots ->
  let column := Slots gb ++ (Some <$> oq) in
  addOppQueueLoop oq gb added =
    Some (set_Dead (Dead gb || existsb occupied (take (length oq - 1) (drop 1 column)))
            (set_Slots (drop (length oq) column) (set_OppQueue [] gb)),
          added + Z.of_nat (length oq)).
Proof.
  induction oq as [|nextq rest IH]; intros gb added Hlen column.
  { cbn [addOppQueueLoop]. subst column. cbn.
    rewrite app_nil_r, orb_false_r, Z.add_0_r. by destruct gb. }
  cbn [addOppQueueLoop].
  destruct (shiftUp_total _ Hlen) as (top & below & Hsl & ->).
  cbn [mbind option_bind].
  assert (length below = 15%nat) as Hbelow.
  { rewrite Hsl in Hlen. simpl in Hlen. unfold NumSlots in Hlen. lia. }
  assert (setSlot (below ++ [top]) (NumSlots - 1) (Some nextq)
          = Some (below ++ [Some nextq])) as ->.
  { rewrite setSlot_insert.
    - f_equal. replace (Z.to_nat (NumSlots - 1)) with (length below + 0)%nat
        by (unfold NumSlots; lia).
      by rewrite insert_app_r.
    - rewrite length_app. simpl. unfold NumSlots. lia.
    - unfold NumSlots. lia. }
  cbn [mbind option_bind].
  assert (slotAt (below ++ [Some nextq]) 0 = Some (hd (Some nextq) below)) as ->.
  { apply slotAt_lookup. split; [unfold NumSlots; lia|].
    destruct below; [done|]. reflexivity. }
  cbn [mbind option_bind].
  match goal with |- addOppQueueLoop rest ?g _ = _ => set (gb2 := g) end.
  assert (Slots gb2 = below ++ [Some nextq]) as Hs2.
  { unfold gb2. by destruct (_ && _). }
  rewrite (IH gb2 (added + 1)).
  2:{ rewrite Hs2, length_app. simpl. unfold NumSlots. lia. }
  rewrite Hs2. subst column. rewrite Hsl. cbn [length drop].
  replace (S (length rest) - 1)%nat with (length rest) by lia.
  replace (added + 1 + Z.of_nat (length rest))
    with (added + Z.of_nat (S (length rest))) by lia.
  f_equal. f_equal.
  assert (Dead gb2 =
          Dead gb || (occupied (hd (Some nextq) below) && bool_decide (rest <> [])))
    as Hd2.
  { unfold gb2, occupied.
    destruct (bool_decide (hd (Some nextq) below <> None) && bool_decide (rest <> []));
      cbn; by rewrite ?orb_true_r, ?orb_false_r. }
  assert (set_OppQueue [] gb2 = set_Dead (Dead gb2)
            (set_Slots (below ++ [Some nextq]) (set_OppQueue [] gb))) as Hg2.
  { unfold gb2. destruct (_ && _); by destruct gb. }
  rewrite Hg2, Hd2. rewrite <- !app_assoc. cbn [app fmap list_fmap].
  assert (forall d s g, set_Dead d (set_Slots s (set_Dead (Dead gb || g)
            (set_Slots (below ++ [Some nextq]) (set_OppQueue [] gb))))
          = set_Dead d (set_Slots s (set_OppQueue [] gb))) as Hset
    by (intros; by destruct gb).
  rewrite Hset. f_equal.
  rewrite <- orb_assoc. f_equal.
  destruct rest as [|r rest']; [by rewrite andb_false_r|].
  rewrite bool_decide_eq_true_2, andb_true_r by done.
  cbn [length]. replace (S (length rest') - 1)%nat with (length rest') by lia.
  destruct below as [|b below']; [done|]. reflexivity.
Qed.

(** X2: [addOppQueue] on a board of 16 slots places every queued attack:
    it returns their number and empties the attack queue; the column moves
    up by that number, the attacks filling the bottom in their order of
    arrival, and what is pushed over the top is dropped; the board is marked
    dead exactly if it was dead or one of the slots that reach the top while
    attacks remain is occupied.  When the attacks are at most 16 and as many
    top slots are empty, nothing is dropped and [Dead] does not change. *)
Theorem addOppQueue_lifts_the_column gb :
  length (Slots gb) = Z.to_nat NumSlots ->
  let n := length (OppQueue gb) in
  let column := Slots gb ++ (Some <$> OppQueue gb) in
  exists gb',
    addOppQueue gb = Some (gb', Z.of_nat n) /\
    Slots gb' = drop n column /\
    OppQueue gb' = [] /\
    Dead gb' = Dead gb || existsb occupied (take (n - 1) (drop 1 column)) /\
    Queue gb' = Queue gb /\ fallerPos gb' = fallerPos gb /\
    Solved gb' = Solved gb /\ Won gb' = Won gb /\
    ((n <= 16)%nat -> Forall (fun s => s = None) (take n (Slots gb)) ->
     Slots gb' = drop n (Slots gb) ++ (Some <$> OppQueue gb) /\
     Dead gb' = Dead gb).
Proof.
  intros Hlen n column. eexists. unfold addOppQueue.
  rewrite (addOppQueueLoop_column (OppQueue gb) gb 0 Hlen).
  split; [reflexivity|]. cbn. split_and!; try reflexivity.
  intros Hn Hempty. fold n. fold column. split.
  - subst column. apply drop_app_le. unfold NumSlots in Hlen. lia.
  - assert (existsb occupied (take (n - 1) (drop 1 column)) = false) as ->;
      [|by rewrite orb_false_r].
    apply not_true_is_false. intros Hex.
    apply existsb_exists in Hex as (s & Hin & Hocc).
    apply list_elem_of_In, list_elem_of_lookup in Hin as [i Hi].
    apply lookup_take_Some in Hi as [Hi Hlt].
    rewrite lookup_drop in Hi. subst column.
    rewrite lookup_app_l in Hi by (unfold NumSlots in Hlen; lia).
    assert (take n (Slots gb) !! (1 + i)%nat = Some s) as Hs
      by (apply lookup_take_Some; split; [done|lia]).
    rewrite Forall_lookup in Hempty. rewrite (Hempty _ _ Hs) in Hocc.
    unfold occupied in Hocc. by rewrite bool_decide_eq_false_2 in Hocc by (by intros ?).
Qed.

(** X3: for a string of ASCII characters, the string that [alphagrammize]
    returns is again of ASCII characters, has its runes in ascending order,
    is a rearrangement of the runes of its argument (so it has the same
    length), and is left as it is by a second [alphagrammize]. *)
Theorem alphagrammize_sorts_the_runes w :
  isASCII w = true ->
  isASCII (alphagrammize w) = true /\
  Sorted runeLe (runes (alphagrammize w)) /\
  runes (alphagrammize w) ≡ₚ runes w /\
  length (runes (alphagrammize w)) = length (runes w) /\
  alphagrammize (alphagrammize w) = alphagrammize w.
Proof.
  intros Hascii. unfold isASCII, alphagrammize in *.
  rewrite !runes_of_runes. split_and!.
  - apply forallb_forall. intros c Hc.
    eapply forallb_forall in Hascii; [exact Hascii|].
    apply list_elem_of_In. apply list_elem_of_In in Hc.
    by rewrite sortRunes_perm in Hc.
  - apply sortRunes_sorted.
  - apply sortRunes_perm.
  - by rewrite sortRunes_perm.
  - f_equal. apply (Sorted_unique runeLe); [apply sortRunes_sorted..|].
    apply sortRunes_perm.
Qed.

Lemma freshAnswerMap_list_to_set words :
  freshAnswerMap words = list_to_set (ToLower <$> words).
Proof.
  apply set_eq. intros w. rewrite freshAnswerMap_spec, elem_of_list_to_set.
  rewrite list_elem_of_fmap.
  split; intros (answer & ? & ?); exists answer; by split.
Qed.

(** X4: after [populateMap] the answers of a question are the lower-cased
    words of its alphagram whatever its answer map held before; words that
    differ only in case count once, so that the number of answers left is
    the number of distinct lower-cased words, at most the number of
    words. *)
Theorem populateMap_restores_distinct_lowercased_words a :
  AnswerMap (populateMap a) = list_to_set (ToLower <$> Words (OrigQuestion a)) /\
  answersLeft (populateMap a)
    = Z.of_nat (length (remove_dups (ToLower <$> Words (OrigQuestion a)))) /\
  answersLeft (populateMap a) <= Z.of_nat (length (Words (OrigQuestion a))) /\
  (forall m, populateMap (mkQuestion (OrigQuestion a) (Whose a) m) = populateMap a).
Proof.
  assert (answersLeft (populateMap a)
          = Z.of_nat (length (remove_dups (ToLower <$> Words (OrigQuestion a)))))
    as Hsize.
  { unfold answersLeft, populateMap. cbn. rewrite freshAnswerMap_list_to_set.
    f_equal. rewrite <- (size_list_to_set (C:=gset string)) by apply NoDup_remove_dups.
    f_equal. apply set_eq. intros w.
    by rewrite !elem_of_list_to_set, elem_of_remove_dups. }
  split_and!.
  - apply freshAnswerMap_list_to_set.
  - exact Hsize.
  - rewrite Hsize. apply inj_le.
    rewrite <- (length_fmap ToLower (Words (OrigQuestion a))).
    apply submseteq_length, NoDup_submseteq; [apply NoDup_remove_dups|].
    intros w. by rewrite elem_of_remove_dups.
  - done.
Qed.

(** X5: [handleGuessEvent] sets [Won] only in a call that has fully solved
    a slot and leaves the player queue and all 16 slots empty; such a call
    returns [true]. *)
Theorem won_only_on_an_empty_board gb g gb' changed evs :
  length (Slots gb) = Z.to_nat NumSlots ->
  handleGuessEvent gb g = Some (gb', changed, evs) ->
  Won gb = false -> Won gb' = true ->
  Queue gb' = [] /\ allSlotsEmpty (Slots gb') = true /\ changed = true /\
  exists k, Changed (stateChange1 FullySolveQuestion k) ∈ evs.
Proof.
  intros Hlen Hguess Hnot Hwon.
  set (g' := ToLower (TrimSpace g)).
  destruct (hit_or_miss g' (Slots gb)) as [Hno|(k & q & Hhit)].
  - exfalso. rewrite (handleGuessEvent_miss gb g Hno) in Hguess. fold g' in Hguess.
    destruct (punishable g' (fallerPos gb) 0 (Slots gb)).
    + unfold punishment in Hguess.
      destruct (Timer gb); [|done]. cbn [mbind option_bind] in Hguess.
      destruct (decide (topOfStack gb = 0)).
      * injection Hguess as <- _ _. cbn in Hwon. congruence.
      * destruct (swapSlots _ _ _); [|done]. cbn [mbind option_bind] in Hguess.
        injection Hguess as <- _ _. cbn in Hwon. congruence.
    + injection Hguess as <- _ _. congruence.
  - destruct (decide (AnswerMap q = {[ g' ]})) as [Hall|Hmore].
    + destruct (handleGuessEvent_full gb g k q Hlen Hhit Hall) as [Hfaller Hstack].
      destruct (decide (fallerPos gb = Z.of_nat k)) as [Heq|Hne].
      * exfalso. rewrite (Hfaller Heq) in Hguess.
        injection Hguess as <- _ _. cbn in Hwon. congruence.
      * destruct (Hstack Hne) as (slots3 & _ & Hres).
        rewrite Hres in Hguess. injection Hguess as <- <- <-.
        unfold checkWon in *.
        destruct (decide (Queue (set_Slots slots3 (solvedBoard gb k)) = []))
          as [Hq|Hq]; [|cbn in Hwon; congruence].
        destruct (allSlotsEmpty (Slots (set_Slots slots3 (solvedBoard gb k))))
          eqn:Hempty; [|cbn in Hwon; congruence].
        split; [exact Hq|]. split; [exact Hempty|]. split; [done|].
        exists (Z.of_nat k). apply elem_of_app. right. by left.
    + exfalso. rewrite (handleGuessEvent_partial gb g k q Hhit Hmore) in Hguess.
      injection Hguess as <- _ _. cbn in Hwon. congruence.
Qed.

(** X6: on a board that the engine can reach, a guess never kills: the
    call of [handleGuessEvent] does not panic and leaves [Dead], the player
    queue, the attack queue and its readiness, [Idx] and [quitting] as they
    were; [Solved] grows by one in a call that records
    [FullySolveQuestion] and is unchanged otherwise. *)
Theorem guess_never_kills_a_reachable_board gb g :
  reachable gb ->
  exists gb' changed evs,
    handleGuessEvent gb g = Some (gb', changed, evs) /\
    Dead gb' = Dead gb /\ Queue gb' = Queue gb /\ OppQueue gb' = OppQueue gb /\
    oppqueueReady gb' = oppqueueReady gb /\ Idx gb' = Idx gb /\
    quitting gb' = quitting gb /\
    Solved gb' =
      Solved gb + (if recorded FullySolveQuestion evs then 1 else 0).
Proof.
  intros Haloft%reachable_aloft. pose proof Haloft as (Hlen & _ & _).
  set (g' := ToLower (TrimSpace g)).
  destruct (hit_or_miss g' (Slots gb)) as [Hno|(k & q & Hhit)].
  - rewrite (handleGuessEvent_miss gb g Hno). fold g'.
    destruct (punishable g' (fallerPos gb) 0 (Slots gb)) eqn:Hp.
    + apply punishable_inv in Hp as [Hr _].
      destruct (punishment_aloft gb Haloft) as (slots2 & _ & _ & _ & ->).
      { unfold NumSlots in *. lia. }
      eexists _, _, _. split; [reflexivity|]. split_and!; try reflexivity.
      change (recorded FullySolveQuestion _) with false. cbn. lia.
    + eexists _, _, _. split; [reflexivity|]. split_and!; try reflexivity.
      change (recorded FullySolveQuestion _) with false. cbn. lia.
  - destruct (decide (AnswerMap q = {[ g' ]})) as [Hall|Hmore].
    + destruct (handleGuessEvent_full gb g k q Hlen Hhit Hall) as [Hfaller Hstack].
      assert (forall tail,
                recorded FullySolveQuestion
                  (attackSent gb q ++
                   Changed (stateChange1 FullySolveQuestion (Z.of_nat k)) :: tail)
                = true) as Hyes.
      { intros tail. unfold recorded. rewrite existsb_app. cbn.
        by rewrite orb_true_r. }
      destruct (decide (fallerPos gb = Z.of_nat k)) as [Heq|Hne].
      * rewrite (Hfaller Heq). eexists _, _, _. split; [reflexivity|].
        rewrite Hyes. cbn. done.
      * destruct (Hstack Hne) as (slots3 & _ & ->).
        eexists _, _, _. split; [reflexivity|]. rewrite Hyes.
        unfold checkWon. repeat case_match; cbn; done.
    + rewrite (handleGuessEvent_partial gb g k q Hhit Hmore).
      eexists _, _, _. split; [reflexivity|]. split_and!; try reflexivity.
      change (recorded FullySolveQuestion _) with false. cbn. lia.
Qed.

Lemma addOppQueueLoop_frame : forall oq gb added gb' n,
  addOppQueueLoop oq gb added = Some (gb', n) ->
  Won gb' = Won gb /\ Solved gb' = Solved gb /\ Idx gb' = Idx gb /\
  quitting gb' = quitting gb /\ OppQueueTimer gb' = OppQueueTimer gb /\
  Timer gb' = Timer gb /\ Queue gb' = Queue gb /\
  (Dead gb = true -> Dead gb' = true).
Proof.
  induction oq as [|nextq rest IH]; intros gb added gb' n Hrun.
  { cbn in Hrun. by injection Hrun as <- _. }
  cbn [addOppQueueLoop] in Hrun.
  destruct (shiftUp (Slots gb)) as [slots1|]; [|done].
  cbn [mbind option_bind] in Hrun.
  destruct (setSlot slots1 _ _) as [slots2|]; [|done].
  cbn [mbind option_bind] in Hrun.
  destruct (slotAt slots2 0) as [top|]; [|done].
  cbn [mbind option_bind] in Hrun.
  apply IH in Hrun as (-> & -> & -> & -> & -> & -> & -> & Hd).
  destruct (_ && _); cbn in *; split_and!; try done. intros ?. by apply Hd.
Qed.

Lemma Tick_frame gb gb' evs :
  Tick gb = Some (gb', evs) ->
  Won gb' = Won gb /\ Solved gb' = Solved gb /\ Idx gb' = Idx gb /\
  quitting gb' = quitting gb /\ OppQueueTimer gb' = OppQueueTimer gb /\
  (Dead gb = true -> Dead gb' = true) /\
  (Timer gb <> None -> Timer gb' <> None).
Proof.
  assert (forall gb1 tos gb2 evs2,
            Tick_land gb1 tos = Some (gb2, evs2) ->
            Won gb2 = Won gb1 /\ Solved gb2 = Solved gb1 /\ Idx gb2 = Idx gb1 /\
            quitting gb2 = quitting gb1 /\ OppQueueTimer gb2 = OppQueueTimer gb1 /\
            (Dead gb1 = true -> Dead gb2 = true) /\
            (Timer gb1 <> None -> Timer gb2 <> None)) as Hland.
  { intros gb1 tos gb2 evs2. unfold Tick_land, followFaller.
    repeat case_match; intros; simplify_option_eq; cbn; split_and!; done. }
  assert (forall gb1 gb2 r, LetGoNextPiece gb1 = Some (gb2, r) ->
            Won gb2 = Won gb1 /\ Solved gb2 = Solved gb1 /\ Idx gb2 = Idx gb1 /\
            quitting gb2 = quitting gb1 /\ OppQueueTimer gb2 = OppQueueTimer gb1 /\
            Dead gb2 = Dead gb1 /\ Timer gb2 = Timer gb1) as Hlet.
  { intros gb1 gb2 r. unfold LetGoNextPiece.
    repeat case_match; intros; simplify_option_eq; cbn; split_and!; done. }
  unfold Tick. intros Htick.
  destruct (Tick_release gb) as [[gb1 evs1|gb1 tos]|] eqn:Hrel; [| |done];
    cbn [mbind option_bind] in Htick.
  - injection Htick as <- <-. unfold Tick_release, addOppQueue in Hrel.
    destruct (status gb).
    + repeat case_match; simplify_option_eq; cbn; split_and!; done.
    + destruct (oppqueueReady gb && bool_decide (OppQueue gb <> [])).
      * destruct (addOppQueueLoop _ _ _) as [[gb2 added]|] eqn:Hadd; [|done].
        apply addOppQueueLoop_frame in Hadd as (? & ? & ? & ? & ? & ? & ? & ?).
        cbn [mbind option_bind] in Hrel.
        repeat case_match; simplify_option_eq; cbn in *; intuition congruence.
      * repeat case_match; simplify_option_eq; cbn; split_and!; done.
    + destruct (oppqueueReady gb && bool_decide (OppQueue gb <> [])).
      * destruct (addOppQueueLoop _ _ _) as [[gb2 added]|] eqn:Hadd; [|done].
        apply addOppQueueLoop_frame in Hadd as (? & ? & ? & ? & ? & ? & ? & ?).
        cbn [mbind option_bind] in Hrel.
        repeat case_match; simplify_option_eq; cbn in *; intuition congruence.
      * repeat case_match; simplify_option_eq; cbn; split_and!; done.
  - apply Hland in Htick as (-> & -> & -> & -> & -> & Hd & Ht).
    assert (exists gbx fp,
              gb1 = set_fallerPos fp gbx /\
              (gbx = gb \/ exists r, LetGoNextPiece gb = Some (gbx, r))) as Hx.
    { unfold Tick_release in Hrel.
      destruct (LetGoNextPiece gb) as [[gby r]|] eqn:Hy;
        destruct (status gb); repeat case_match; simplify_option_eq;
        try (match type of Hrel with
             | context [let '(_, _) := ?p in _] => destruct p
             end; destruct (Dead _); discriminate Hrel);
        eexists _, _; split; try reflexivity; eauto. }
    destruct Hx as (gbx & fp & -> & [->|[r Hr]]).
    + cbn in *. split_and!; done.
    + apply Hlet in Hr as (? & ? & ? & ? & ? & ? & ?).
      cbn in *. split_and!; try congruence; intros; (apply Hd || apply Ht);
        congruence.
Qed.

Lemma handleGuessEvent_frame gb g gb' changed evs :
  handleGuessEvent gb g = Some (gb', changed, evs) ->
  Idx gb' = Idx gb /\ Queue gb' = Queue gb /\ OppQueue gb' = OppQueue gb /\
  OppQueueTimer gb' = OppQueueTimer gb /\ quitting gb' = quitting gb /\
  (Timer gb <> None -> Timer gb' <> None).
Proof.
  unfold handleGuessEvent.
  destruct (guessLoop _ _ _ _ _) as [slots1 v].
  repeat case_match; intros; simplify_option_eq; cbn;
    repeat case_match; cbn; split_and!; congruence.
Qed.

Lemma Tick_sends_nothing gb gb' evs :
  Tick gb = Some (gb', evs) -> sentToOpp evs = [] /\ TimerStop ∉ evs.
Proof.
  unfold Tick. intros Htick.
  destruct (Tick_release gb) as [[gb1 evs1|gb1 tos]|] eqn:Hrel; [| |done];
    cbn [mbind option_bind] in Htick.
  - injection Htick as <- <-. unfold Tick_release in Hrel.
    destruct (addOppQueue gb) as [[gb2 added]|];
      cbn [mbind option_bind Dead set_oppqueueReady] in Hrel;
      [destruct (Dead gb2) eqn:Hd2|];
      repeat case_match; simplify_option_eq;
      (split; [reflexivity|]); intros Hin;
      repeat (apply elem_of_cons in Hin as [Hin|Hin]; [discriminate Hin|]);
      by apply elem_of_nil in Hin.
  - unfold Tick_land in Htick.
    repeat case_match; simplify_option_eq;
      (split; [reflexivity|]); intros Hin;
      repeat (apply elem_of_cons in Hin as [Hin|Hin]; [discriminate Hin|]);
      by apply elem_of_nil in Hin.
Qed.

(** X7: [Tick] never declares a win and never counts a solve: it leaves
    [Won], [Solved], [Idx], [quitting] and the attack timer as they were, a
    dead board stays dead, an existing main timer is never replaced by
    nil, and the call neither sends a question to the opponent nor stops a
    timer. *)
Theorem Tick_keeps_score gb gb' evs :
  Tick gb = Some (gb', evs) ->
  (Won gb' = Won gb /\ Solved gb' = Solved gb /\ Idx gb' = Idx gb /\
   quitting gb' = quitting gb /\ OppQueueTimer gb' = OppQueueTimer gb /\
   (Dead gb = true -> Dead gb' = true) /\
   (Timer gb <> None -> Timer gb' <> None)) /\
  sentToOpp evs = [] /\ TimerStop ∉ evs.
Proof.
  intros Htick. split.
  - by eapply Tick_frame.
  - by eapply Tick_sends_nothing.
Qed.

Lemma loopIteration_running ev gb :
  running gb ->
  exists gb' out continue,
    loopIteration ev gb = Some (gb', out, continue) /\ running gb' /\
    Idx gb' = Idx gb /\
    (continue = false ->
     Won gb' = true \/ Dead gb' = true \/ quitting gb' = true \/ ev = StopChan).
Proof.
  intros (Haloft & Htimer & Hopp). destruct ev as [| |evt|alph|]; cbn [loopIteration].
  - destruct (Tick_aloft gb Haloft) as (gb' & evs & Htick & Hok).
    rewrite Htick. cbn [mbind option_bind]. eexists _, _, _. split; [reflexivity|].
    destruct (Tick_frame gb gb' evs Htick) as (_ & _ & Hi & _ & Ho & _ & Ht).
    split; [split_and!; [done|by apply Ht|congruence]|].
    split; [done|].
    intros Hc. apply negb_false_iff in Hc.
    destruct (Won gb'), (Dead gb'), (quitting gb'); auto; discriminate.
  - eexists _, _, _. split; [reflexivity|]. split; [|split; [done|done]].
    split_and!; [by apply (fallerAloft_same gb)|done..].
  - destruct (handleGuessEvent_aloft gb evt Haloft) as (gb' & c & evs & Hg & Hok).
    rewrite Hg. cbn [mbind option_bind]. eexists _, _, _. split; [reflexivity|].
    destruct (handleGuessEvent_frame gb evt gb' c evs Hg) as (Hi & _ & _ & Ho & _ & Ht).
    split; [split_and!; [done|by apply Ht|congruence]|].
    split; [done|].
    intros Hc. apply negb_false_iff in Hc.
    destruct (Won gb'), (Dead gb'); auto; discriminate.
  - eexists _, _, _. split; [reflexivity|].
    unfold receiveAttack. split; [|split; [by case_decide|done]].
    split_and!.
    + apply (fallerAloft_same gb); [..|done]; by case_decide.
    + by case_decide.
    + by case_decide.
  - eexists _, _, _. split; [reflexivity|]. split; [done|]. split; [done|]. auto.
Qed.

Lemma loopFrom_running : forall evs gb,
  running gb ->
  exists gb' out over,
    loopFrom evs gb = Some (gb', out, over) /\ running gb' /\
    Idx gb' = Idx gb /\
    (over = true ->
     (exists pre, out = pre ++ [OppQueueTimerStop; TimerStop; SignalExit (Idx gb)]) /\
     (Won gb' = true \/ Dead gb' = true \/ quitting gb' = true \/ StopChan ∈ evs)).
Proof.
  induction evs as [|ev rest IH]; intros gb Hrun.
  { eexists _, _, _. split; [reflexivity|]. split; [done|]. split; [done|]. done. }
  pose proof Hrun as (_ & Htimer & Hopp). cbn [loopFrom].
  destruct (Timer gb); [|done]. destruct (OppQueueTimer gb); [|done].
  cbn [mbind option_bind].
  destruct (loopIteration_running ev gb Hrun)
    as (gb1 & out & continue & -> & Hrun1 & Hidx1 & Hstop).
  cbn [mbind option_bind]. destruct continue.
  - destruct (IH gb1 Hrun1) as (gb2 & out2 & over & -> & Hrun2 & Hidx2 & Hover).
    cbn [mbind option_bind]. eexists _, _, _. split; [reflexivity|].
    split; [done|]. split; [congruence|]. intros Ho.
    destruct (Hover Ho) as [[pre ->] Hwhy]. split.
    + exists (out ++ pre). by rewrite Hidx1, app_assoc.
    + destruct Hwhy as [?|[?|[?|?]]]; auto. do 3 right. by right.
  - eexists _, _, _. split; [reflexivity|]. split; [done|]. split; [done|].
    intros _. split; [exists out; by rewrite Hidx1|].
    destruct (Hstop eq_refl) as [?|[?|[?| ->]]]; auto. do 3 right. by left.
Qed.

Lemma Tick_fresh_running idx queue :
  exists gb evs,
    Tick (freshBoard idx queue) = Some (gb, evs) /\ running gb /\ Idx gb = idx /\
    status gb = PieceDropping.
Proof.
  destruct (Tick_aloft (freshBoard idx queue)) as (gb & evs & Htick & Hok).
  { by apply fallerAloft_grounded. }
  exists gb, evs. split; [done|].
  revert Htick. unfold Tick, Tick_release, LetGoNextPiece.
  cbn [status freshBoard newGameBoard set_Queue fallerPos Queue Slots].
  change (topOfStack _) with 16.
  destruct (last queue) as [nextq|]; cbn; intros [= <- <-];
    (split; [split; [done|by split]|by split]).
Qed.

Lemma loopIteration_reachable ev gb gb' out continue :
  reachable gb -> loopIteration ev gb = Some (gb', out, continue) ->
  reachable gb'.
Proof.
  intros Hr. destruct ev as [| |evt|alph|]; cbn [loopIteration].
  - destruct (Tick gb) as [[gb1 evs]|] eqn:Htick; [|done].
    intros [= <- _ _]. by eapply reach_Tick.
  - intros [= <- _ _]. by apply reach_ready.
  - destruct (handleGuessEvent gb evt) as [[[gb1 changed] evs]|] eqn:Hg; [|done].
    intros [= <- _ _]. by eapply reach_guess.
  - intros [= <- _ _]. by apply reach_attack.
  - by intros [= <- _ _].
Qed.

Lemma loopFrom_reachable : forall evs gb gb' out over,
  reachable gb -> loopFrom evs gb = Some (gb', out, over) -> reachable gb'.
Proof.
  induction evs as [|ev rest IH]; intros gb gb' out over Hr; cbn [loopFrom].
  { by intros [= <- _ _]. }
  destruct (Timer gb); [|done]. destruct (OppQueueTimer gb); [|done].
  cbn [mbind option_bind].
  destruct (loopIteration ev gb) as [[[gb1 out1] continue]|] eqn:Hit; [|done].
  cbn [mbind option_bind].
  pose proof (loopIteration_reachable _ _ _ _ _ Hr Hit) as Hr1.
  destruct continue.
  - destruct (loopFrom rest gb1) as [[[gb2 out2] over2]|] eqn:Hrest; [|done].
    intros [= <- _ _]. by eapply IH.
  - by intros [= <- _ _].
Qed.

(** X8: the loop of a board never panics.  The first [Tick], which [start]
    calls on the board it has dealt, succeeds whatever the queue; from then
    on, whatever events the loop receives, every call it makes returns, the
    board keeps its index, and when the loop is left the last things it does
    are to stop both timers and to signal the exit with that index, which
    happens only on a board that has won, is dead or was told to quit, or
    after a stop request. *)
Theorem board_loop_never_panics idx queue :
  exists gb evs0,
    Tick (freshBoard idx queue) = Some (gb, evs0) /\
    forall evs, exists gb' out over,
      loop evs gb = Some (gb', out, over) /\
      Idx gb' = idx /\ reachable gb' /\
      (over = true ->
       (exists pre, out = pre ++ [OppQueueTimerStop; TimerStop; SignalExit idx]) /\
       (Won gb' = true \/ Dead gb' = true \/ quitting gb' = true \/ StopChan ∈ evs)).
Proof.
  destruct (Tick_fresh_running idx queue) as (gb & evs0 & Htick & Hrun & Hidx & Hst).
  exists gb, evs0. split; [done|]. intros evs. unfold loop.
  assert (loopEnter gb = gb) as -> by (unfold loopEnter; rewrite <- Hst; by destruct gb).
  destruct (loopFrom_running evs gb Hrun) as (gb' & out & over & Hloop & _ & Hi & Hover).
  exists gb', out, over. split; [done|]. split; [congruence|]. split.
  - eapply loopFrom_reachable; [|exact Hloop].
    eapply reach_Tick; [apply reach_fresh|exact Htick].
  - rewrite <- Hidx. exact Hover.
Qed.

Lemma topOfStack_unique gb t :
  length (Slots gb) = Z.to_nat NumSlots ->
  0 <= t <= NumSlots ->
  (forall i, 0 <= i < t -> i <> fallerPos gb -> slotAt (Slots gb) i = Some None) ->
  (t < NumSlots ->
   t <> fallerPos gb /\ exists q, slotAt (Slots gb) t = Some (Some q)) ->
  topOfStack gb = t.
Proof.
  intros Hlen Ht Hbelow Hat.
  pose proof (topOfStack_range gb Hlen) as Hr.
  destruct (Z.lt_trichotomy (topOfStack gb) t) as [Hlt|[Heq|Hgt]]; [|done|].
  - destruct (topOfStackFrom_spec (fallerPos gb) (Slots gb) 0) as [Hs _].
    fold (topOfStack gb) in Hs.
    destruct Hs as [Heq|(_ & Hne & q & Hq)]; [lia|].
    rewrite Z.sub_0_r in Hq.
    specialize (Hbelow (topOfStack gb) ltac:(lia) Hne).
    apply slotAt_lookup in Hbelow as [_ Hb]. congruence.
  - destruct (Hat ltac:(lia)) as (Hne & q & Hq).
    pose proof (topOfStack_below gb t Hlen ltac:(lia) Hne). congruence.
Qed.

Lemma topOfStack_at gb :
  length (Slots gb) = Z.to_nat NumSlots -> topOfStack gb < NumSlots ->
  topOfStack gb <> fallerPos gb /\
  exists q, slotAt (Slots gb) (topOfStack gb) = Some (Some q).
Proof.
  intros Hlen Hlt. pose proof (topOfStack_range gb Hlen) as Hr.
  destruct (topOfStackFrom_spec (fallerPos gb) (Slots gb) 0) as [Ht _].
  fold (topOfStack gb) in Ht.
  destruct Ht as [Heq|(_ & Hne & q & Hq)]; [lia|].
  split; [done|]. exists q. apply slotAt_lookup. split; [lia|].
  by rewrite Z.sub_0_r in Hq.
Qed.

(** One [Tick] of a board whose piece is in flight. *)
Lemma Tick_flight gb :
  fallerAloft gb -> 0 <= fallerPos gb ->
  let fp := fallerPos gb in
  let tos := topOfStack gb in
  exists s gb' evs,
    Tick gb = Some (gb', evs) /\
    fp + 2 <= tos /\
    Slots gb !! Z.to_nat fp = Some s /\
    Slots gb' = <[Z.to_nat (fp + 1) := s]> (<[Z.to_nat fp := None]> (Slots gb)) /\
    Queue gb' = Queue gb /\ Dead gb' = Dead gb /\
    (if decide (fp + 2 = tos)
     then fallerPos gb' = -1 /\ status gb' = PieceAboutToDrop /\
          Timer gb' = Some (Z.quot TickDuration 4) /\
          evs = [Changed (stateChange2 PieceLand (fp + 1) fp);
                 TimerNew (Z.quot TickDuration 4)]
     else fallerPos gb' = fp + 1 /\ status gb' = PieceDropping /\
          Timer gb' = Some TickDuration /\
          evs = [Changed (stateChange2 PieceFall (fp + 1) fp);
                 TimerNew TickDuration] /\
          topOfStack gb' = tos /\ fallerAloft gb').
Proof.
  intros (Hlen & _ & Hfly) Hfp fp tos.
  destruct (Hfly Hfp) as (Hst & _ & Hroom & Hempty).
  pose proof (topOfStack_range gb Hlen) as Hr.
  pose proof (topOfStack_above gb (fp + 1) ltac:(subst fp; lia) Hempty) as Habove.
  fold tos in Hr, Habove.
  destruct (swapSlots_insert (Slots gb) fp (fp + 1) Hlen) as (a & b & Ha & Hb & Hswap);
    [subst fp; lia..|].
  assert (b = None) as ->.
  { specialize (Hempty (fp + 1) ltac:(subst fp; lia) ltac:(subst fp; lia)).
    apply slotAt_lookup in Hempty as [_ ?]. congruence. }
  exists a. unfold Tick, Tick_release. rewrite Hst. fold tos.
  destruct (decide (tos = 0)); [lia|].
  destruct (decide (fallerPos gb = -1)); [lia|].
  cbn [mbind option_bind]. unfold Tick_land, followFaller.
  cbn [fallerPos set_fallerPos set_LastStateChange Slots]. fold fp.
  replace (fp + 1 - 1) with fp by lia.
  destruct (decide (fp + 1 = tos - 1)) as [Hland|Hfall].
  - destruct (decide (fp + 1 > 0)); [|lia]. rewrite Hswap. cbn [mbind option_bind].
    destruct (decide (fp + 1 = 0)); [lia|].
    eexists _, _. split; [reflexivity|]. split; [lia|]. split; [done|].
    cbn. split; [done|]. split; [done|]. split; [done|].
    destruct (decide (fp + 2 = tos)); [done|lia].
  - destruct (decide (fp + 1 = 0 /\ tos = 0)); [lia|].
    destruct (decide (fp + 1 > 0)); [|lia]. rewrite Hswap. cbn [mbind option_bind].
    eexists _, _. split; [reflexivity|]. split; [lia|]. split; [done|].
    match goal with |- Slots ?g = _ /\ _ => remember g as gb' eqn:Hgb' end.
    assert (Slots gb' = <[Z.to_nat (fp + 1) := a]> (<[Z.to_nat fp := None]> (Slots gb)))
      as HS by (by subst gb').
    assert (fallerPos gb' = fp + 1) as HF by (by subst gb').
    split; [done|]. split; [by subst gb'|]. split; [by subst gb'|].
    destruct (decide (fp + 2 = tos)); [lia|].
    assert (length (Slots gb') = Z.to_nat NumSlots) as Hlen'
      by (by rewrite HS, !length_insert).
    assert (forall i, 0 <= i < tos -> i <> fp + 1 ->
                      slotAt (Slots gb') i = Some None) as Hbelow'.
    { intros i Hi Hne. apply slotAt_lookup. split; [lia|]. rewrite HS.
      rewrite list_lookup_insert_ne by lia.
      destruct (decide (i = fp)) as [->|Hne'].
      - apply list_lookup_insert_eq. unfold NumSlots in *. lia.
      - rewrite list_lookup_insert_ne by lia.
        pose proof (topOfStack_below gb i Hlen Hi Hne') as Hb'.
        by apply slotAt_lookup in Hb' as [_ ?]. }
    split; [done|]. split; [by subst gb'|]. split; [by subst gb'|].
    split; [by subst gb'|]. split.
    + apply topOfStack_unique; [done|done|by rewrite HF|].
      intros Hlt. rewrite HF. split; [lia|].
      destruct (topOfStack_at gb Hlen Hlt) as (Hne & q & Hq).
      exists q. apply slotAt_lookup. apply slotAt_lookup in Hq as [? Hq].
      split; [done|]. fold tos in Hq. rewrite HS.
      by rewrite !list_lookup_insert_ne by lia.
    + split; [done|]. split; [lia|]. intros _. rewrite HF.
      split_and!; [by subst gb'|by subst gb'|lia|].
      intros i Hi Hne. apply Hbelow'; lia.
Qed.

(** The rest of the flight: the ticks that take the faller down to the slot
    above the stack. *)
Lemma Ticks_flight : forall k gb,
  fallerAloft gb -> 0 <= fallerPos gb ->
  topOfStack gb = fallerPos gb + 2 + Z.of_nat k ->
  exists s gb' evs,
    Ticks (S k) gb = Some (gb', evs) /\
    Slots gb !! Z.to_nat (fallerPos gb) = Some s /\
    Slots gb' = <[Z.to_nat (topOfStack gb - 1) := s]>
                  (<[Z.to_nat (fallerPos gb) := None]> (Slots gb)) /\
    Queue gb' = Queue gb /\ Dead gb' = Dead gb /\
    fallerPos gb' = -1 /\ status gb' = PieceAboutToDrop /\
    Timer gb' = Some (Z.quot TickDuration 4) /\
    length evs = (2 * S k)%nat.
Proof.
  induction k as [|k IH]; intros gb Hal Hfp Htos.
  - destruct (Tick_flight gb Hal Hfp)
      as (s & gb' & evs & Htick & _ & Hs & HS & HQ & HD & Hcase).
    destruct (decide (fallerPos gb + 2 = topOfStack gb)); [|lia].
    destruct Hcase as (HF & Hst & HT & ->).
    eexists s, gb', _. cbn [Ticks]. rewrite Htick. cbn [mbind option_bind].
    split; [reflexivity|]. split; [done|]. split.
    { rewrite HS. do 2 f_equal. lia. }
    by split_and!.
  - destruct (Tick_flight gb Hal Hfp)
      as (s & gb1 & evs1 & Htick & _ & Hs & HS & HQ & HD & Hcase).
    destruct (decide (fallerPos gb + 2 = topOfStack gb)); [lia|].
    destruct Hcase as (HF & Hst & HT & -> & Htos1 & Hal1).
    destruct (IH gb1 Hal1 ltac:(lia) ltac:(lia))
      as (s1 & gb' & evs & Hticks & Hs1 & HS' & HQ' & HD' & HF' & Hst' & HT' & Hlen).
    eexists s, gb', _. change (Ticks (S (S k)) gb) with
      ('(g1, e1) ← Tick gb; '(g2, e2) ← Ticks (S k) g1; Some (g2, e1 ++ e2)).
    rewrite Htick. cbn [mbind option_bind]. rewrite Hticks. cbn [mbind option_bind].
    split; [reflexivity|]. split; [done|].
    destruct Hal as (Hlen0 & _ & Hfly0). unfold NumSlots in *.
    assert (s1 = s) as ->.
    { rewrite HS, HF in Hs1. rewrite list_lookup_insert_eq in Hs1; [congruence|].
      rewrite length_insert. lia. }
    split.
    { rewrite HS', Htos1, HF, HS. rewrite list_insert_insert_eq.
      f_equal. apply list_insert_id.
      rewrite list_lookup_insert_ne by lia.
      destruct (Hfly0 Hfp) as (_ & _ & _ & Hempty).
      specialize (Hempty (fallerPos gb + 1) ltac:(lia) ltac:(lia)).
      by apply slotAt_lookup in Hempty as [_ ?]. }
    split_and!; try congruence. cbn [length app]. rewrite Hlen. lia.
Qed.

(** The [Tick] that releases a piece onto a board without faller. *)
Lemma Tick_release_piece gb q :
  length (Slots gb) = Z.to_nat NumSlots -> fallerPos gb = -1 ->
  last (Queue gb) = Some q ->
  status gb = PieceDropping \/
    oppqueueReady gb && bool_decide (OppQueue gb <> []) = false ->
  0 < topOfStack gb ->
  exists gb' evs,
    Tick gb = Some (gb', evs) /\
    Slots gb' = <[0%nat := Some q]> (Slots gb) /\
    Queue gb' = take (length (Queue gb) - 1) (Queue gb) /\
    Dead gb' = Dead gb /\ Timer gb' = Some TickDuration /\
    (if decide (topOfStack gb = 1)
     then fallerPos gb' = -1 /\ status gb' = PieceAboutToDrop
     else fallerPos gb' = 0 /\ status gb' = PieceDropping).
Proof.
  intros Hlen Hfp Hq Hst Htos.
  assert (Queue gb <> []) as Hne by (intros E; by rewrite E in Hq).
  assert (setSlot (Slots gb) 0 (Some q) = Some (<[0%nat := Some q]> (Slots gb)))
    as Hset by (apply (setSlot_insert _ 0); [done|unfold NumSlots; lia]).
  assert (Tick_release gb =
          Some (TickContinue
                  (set_fallerPos 0
                     (set_Slots (<[0%nat := Some q]> (Slots gb))
                        (set_Queue (take (length (Queue gb) - 1) (Queue gb)) gb)))
                  (topOfStack gb))) as Hrel.
  { unfold Tick_release, LetGoNextPiece. rewrite Hq, Hset.
    destruct (status gb) eqn:Hs.
    - destruct (decide (topOfStack gb = 0)); [lia|].
      destruct (decide (fallerPos gb = -1)); [|lia]. cbn. by rewrite Hfp.
    - destruct Hst as [?| ->]; [done|].
      destruct (decide (Queue gb = [])); [done|].
      by destruct (decide (topOfStack gb = 0)); [lia|].
    - destruct Hst as [?| ->]; [done|].
      destruct (decide (Queue gb = [])); [done|].
      by destruct (decide (topOfStack gb = 0)); [lia|]. }
  unfold Tick. rewrite Hrel. cbn [mbind option_bind].
  unfold Tick_land, followFaller. cbn [fallerPos set_fallerPos set_LastStateChange].
  destruct (decide (0 = topOfStack gb - 1)).
  - destruct (decide (0 > 0)); [lia|]. cbn [mbind option_bind].
    eexists _, _. split; [reflexivity|]. cbn.
    destruct (decide (topOfStack gb = 1)); [done|lia].
  - destruct (decide (0 = 0 /\ topOfStack gb = 0)); [lia|].
    destruct (decide (0 > 0)); [lia|]. cbn [mbind option_bind].
    eexists _, _. split; [reflexivity|]. cbn.
    destruct (decide (topOfStack gb = 1)); [lia|done].
Qed.

(** X9: a piece released onto a board comes to rest on the stack.  On a
    board without faller whose top slot is free, with a piece waiting in
    the queue and no attack due, [topOfStack] ticks in a row all succeed and
    leave the last question of the queue in the slot just above the stack,
    every other slot as it was, no faller, the board in [PieceAboutToDrop]
    and not marked dead; the stack is then one slot higher.  The pause
    before the next piece is a full tick when the piece landed in the top
    slot and a quarter of a tick otherwise. *)
Theorem released_piece_settles_on_the_stack gb q :
  length (Slots gb) = Z.to_nat NumSlots -> fallerPos gb = -1 ->
  last (Queue gb) = Some q ->
  status gb = PieceDropping \/
    oppqueueReady gb && bool_decide (OppQueue gb <> []) = false ->
  0 < topOfStack gb ->
  exists gb' evs,
    Ticks (Z.to_nat (topOfStack gb)) gb = Some (gb', evs) /\
    Slots gb' = <[Z.to_nat (topOfStack gb - 1) := Some q]> (Slots gb) /\
    Queue gb' = take (length (Queue gb) - 1) (Queue gb) /\
    fallerPos gb' = -1 /\ status gb' = PieceAboutToDrop /\
    Dead gb' = Dead gb /\
    topOfStack gb' = topOfStack gb - 1 /\
    Timer gb' = Some (if decide (topOfStack gb = 1) then TickDuration
                      else Z.quot TickDuration 4).
Proof.
  intros Hlen Hfp Hq Hst Htos.
  pose proof (topOfStack_range gb Hlen) as Hr.
  destruct (Tick_release_piece gb q Hlen Hfp Hq Hst Htos)
    as (gb1 & evs1 & Htick & HS1 & HQ1 & HD1 & HT1 & Hcase).
  assert (Slots gb !! 0%nat = Some None) as Hzero.
  { pose proof (topOfStack_below gb 0 Hlen ltac:(lia) ltac:(lia)) as H0.
    by apply slotAt_lookup in H0 as [_ ?]. }
  assert (forall gb', fallerPos gb' = -1 ->
            Slots gb' = <[Z.to_nat (topOfStack gb - 1) := Some q]> (Slots gb) ->
            topOfStack gb' = topOfStack gb - 1) as Hnew.
  { intros gb' HF HS. unfold NumSlots in *.
    apply topOfStack_unique; unfold NumSlots.
    - by rewrite HS, length_insert.
    - lia.
    - intros i Hi Hne. apply slotAt_lookup. unfold NumSlots. split; [lia|].
      rewrite HS, list_lookup_insert_ne by lia.
      pose proof (topOfStack_below gb i Hlen ltac:(lia) ltac:(lia)) as Hb.
      by apply slotAt_lookup in Hb as [_ ?].
    - intros _. split; [lia|]. exists q. apply slotAt_lookup. unfold NumSlots.
      split; [lia|]. rewrite HS. apply list_lookup_insert_eq. lia. }
  destruct (decide (topOfStack gb = 1)) as [Hone|Hmore].
  - destruct Hcase as [HF1 Hst1]. exists gb1, (evs1 ++ []).
    rewrite Hone in *. change (Z.to_nat 1) with 1%nat. cbn [Ticks].
    rewrite Htick. cbn [mbind option_bind].
    split; [reflexivity|]. split_and!; try done. by apply Hnew.
  - destruct Hcase as [HF1 Hst1].
    assert (length (Slots gb1) = Z.to_nat NumSlots) as Hlen1
      by (by rewrite HS1, length_insert).
    assert (forall i, 0 < i < topOfStack gb -> slotAt (Slots gb1) i = Some None)
      as Hbelow1.
    { intros i Hi. apply slotAt_lookup. split; [lia|].
      rewrite HS1, list_lookup_insert_ne by lia.
      pose proof (topOfStack_below gb i Hlen ltac:(lia) ltac:(lia)) as Hb.
      by apply slotAt_lookup in Hb as [_ ?]. }
    assert (topOfStack gb1 = topOfStack gb) as Htos1.
    { apply topOfStack_unique; [done|done| |].
      - intros i Hi Hne. apply Hbelow1. lia.
      - intros Hlt. rewrite HF1. split; [lia|].
        destruct (topOfStack_at gb Hlen Hlt) as (_ & q' & Hq').
        exists q'. apply slotAt_lookup. apply slotAt_lookup in Hq' as [? Hq'].
        split; [done|]. by rewrite HS1, list_lookup_insert_ne by lia. }
    assert (fallerAloft gb1) as Hal1.
    { split; [done|]. split; [lia|]. intros _. rewrite HF1.
      split_and!; [done|by rewrite HT1|unfold NumSlots; lia|].
      intros i Hi Hne. apply Hbelow1. lia. }
    destruct (Ticks_flight (Z.to_nat (topOfStack gb - 2)) gb1 Hal1 ltac:(lia)
                ltac:(lia))
      as (s & gb' & evs & Hticks & Hs & HS' & HQ' & HD' & HF' & Hst' & HT' & _).
    exists gb', (evs1 ++ evs).
    replace (Z.to_nat (topOfStack gb))
      with (S (S (Z.to_nat (topOfStack gb - 2)))) by lia.
    change (Ticks (S (S ?k)) gb) with
      ('(g1, e1) ← Tick gb; '(g2, e2) ← Ticks (S k) g1; Some (g2, e1 ++ e2)).
    rewrite Htick. cbn [mbind option_bind]. rewrite Hticks. cbn [mbind option_bind].
    split; [reflexivity|].
    assert (Slots gb' = <[Z.to_nat (topOfStack gb - 1) := Some q]> (Slots gb)) as HSf.
    { rewrite HS', Htos1, HF1, HS1. rewrite HF1, HS1 in Hs.
      rewrite list_lookup_insert_eq in Hs by (unfold NumSlots in *; lia).
      injection Hs as <-. change (Z.to_nat 0) with 0%nat.
      rewrite list_insert_insert_eq. by rewrite (list_insert_id _ 0%nat None). }
    split_and!; try congruence. by apply Hnew.
Qed.

Lemma toLowerRune_idemp c : toLowerRune (toLowerRune c) = toLowerRune c.
Proof. by destruct c as [[] [] [] [] [] [] [] []]. Qed.

Lemma isSpace_toLowerRune c : isSpace (toLowerRune c) = isSpace c.
Proof. by destruct c as [[] [] [] [] [] [] [] []]. Qed.

Lemma trimLeft_map_toLower l :
  trimLeft (map toLowerRune l) = map toLowerRune (trimLeft l).
Proof.
  induction l as [|c l IH]; [done|]. cbn [map trimLeft].
  rewrite isSpace_toLowerRune. by destruct (isSpace c).
Qed.

Lemma trimLeft_spaces pre l :
  forallb isSpace pre = true -> trimLeft (pre ++ l) = trimLeft l.
Proof.
  induction pre as [|c pre IH]; [done|]. cbn [forallb app trimLeft].
  intros [-> Hpre]%andb_true_iff. by apply IH.
Qed.

Lemma trimLeft_app l post :
  trimLeft l <> [] -> trimLeft (l ++ post) = trimLeft l ++ post.
Proof.
  induction l as [|c l IH]; [done|]. cbn [app trimLeft].
  destruct (isSpace c); [exact IH|done].
Qed.

Lemma trimLeft_all_spaces l : trimLeft l = [] -> forallb isSpace l = true.
Proof.
  induction l as [|c l IH]; [done|]. cbn [forallb trimLeft].
  destruct (isSpace c); [exact IH|done].
Qed.

Lemma trimLeft_idemp l : trimLeft (trimLeft l) = trimLeft l.
Proof.
  induction l as [|c l IH]; [done|]. cbn [trimLeft].
  destruct (isSpace c) eqn:Hc; [exact IH|]. cbn [trimLeft]. by rewrite Hc.
Qed.

Lemma TrimSpace_ToLower g : TrimSpace (ToLower g) = ToLower (TrimSpace g).
Proof.
  unfold TrimSpace, ToLower. rewrite !runes_of_runes. f_equal.
  by rewrite trimLeft_map_toLower, <- map_rev, trimLeft_map_toLower, <- map_rev.
Qed.

Lemma ToLower_idemp g : ToLower (ToLower g) = ToLower g.
Proof.
  unfold ToLower. rewrite runes_of_runes, map_map. f_equal.
  apply map_ext. intros c. apply toLowerRune_idemp.
Qed.

Lemma TrimSpace_padding pre post l :
  forallb isSpace pre = true -> forallb isSpace post = true ->
  TrimSpace (of_runes (pre ++ l ++ post)) = TrimSpace (of_runes l).
Proof.
  intros Hpre Hpost. unfold TrimSpace. rewrite !runes_of_runes. f_equal. f_equal.
  rewrite (trimLeft_spaces pre) by done.
  assert (forallb isSpace (rev post) = true) as Hrev.
  { apply forallb_forall. intros c Hc%in_rev.
    by eapply forallb_forall in Hpost. }
  destruct (trimLeft l) as [|c l'] eqn:Hl.
  - apply trimLeft_all_spaces in Hl.
    assert (trimLeft (l ++ post) = []) as ->; [|done].
    rewrite trimLeft_spaces by done.
    clear -Hpost. induction post as [|c post IH]; [done|].
    cbn [forallb trimLeft] in *. apply andb_true_iff in Hpost as [-> ?]. auto.
  - rewrite trimLeft_app by (by rewrite Hl). rewrite Hl, rev_app_distr.
    by rewrite trimLeft_spaces.
Qed.

Lemma handleGuessEvent_norm gb g1 g2 :
  ToLower (TrimSpace g1) = ToLower (TrimSpace g2) ->
  handleGuessEvent gb g1 = handleGuessEvent gb g2.
Proof. unfold handleGuessEvent. by intros ->. Qed.

Lemma trimLeft_split l :
  exists pre, forallb isSpace pre = true /\ l = pre ++ trimLeft l.
Proof.
  induction l as [|c l (pre & Hpre & IH)]; [by exists []|]. cbn [trimLeft].
  destruct (isSpace c) eqn:Hc; [|by exists []].
  exists (c :: pre). cbn [forallb app]. rewrite Hc, Hpre. split; [done|].
  by rewrite <- IH.
Qed.

Lemma TrimSpace_idemp g : TrimSpace (TrimSpace g) = TrimSpace g.
Proof.
  destruct (trimLeft_split (runes g)) as (pre & Hpre & Hl).
  destruct (trimLeft_split (rev (trimLeft (runes g)))) as (post & Hpost & Hr).
  apply (f_equal (@rev _)) in Hr. rewrite rev_involutive, rev_app_distr in Hr.
  rewrite Hr in Hl.
  assert (forallb isSpace (rev post) = true) as Hrev.
  { apply forallb_forall. intros c Hc%in_rev. by eapply forallb_forall in Hpost. }
  rewrite <- (of_runes_runes g) at 2. rewrite Hl.
  rewrite TrimSpace_padding by done. by unfold TrimSpace at 2.
Qed.

(** X10: a guess of ASCII characters is read without its letter case and
    without the white space around it: white space added before or after
    the guess, and lowering its letters or trimming it beforehand, change
    nothing of what [handleGuessEvent] does or returns, on any board. *)
Theorem guess_is_read_without_case_and_padding gb g pre post :
  isASCII g = true ->
  forallb isSpace pre = true -> forallb isSpace post = true ->
  isASCII (of_runes (pre ++ runes g ++ post)) = true /\
  handleGuessEvent gb (of_runes (pre ++ runes g ++ post)) = handleGuessEvent gb g /\
  handleGuessEvent gb (ToLower g) = handleGuessEvent gb g /\
  handleGuessEvent gb (ToLower (TrimSpace g)) = handleGuessEvent gb g.
Proof.
  intros Hascii Hpre Hpost. split.
  { unfold isASCII in *. rewrite runes_of_runes.
    apply forallb_forall. intros c Hc.
    apply in_app_or in Hc as [Hc|Hc]; [|apply in_app_or in Hc as [Hc|Hc]].
    - eapply forallb_forall in Hpre; [|exact Hc].
      revert Hpre. by destruct c as [[] [] [] [] [] [] [] []].
    - by eapply forallb_forall in Hascii.
    - eapply forallb_forall in Hpost; [|exact Hc].
      revert Hpost. by destruct c as [[] [] [] [] [] [] [] []]. }
  split_and!; apply handleGuessEvent_norm.
  - by rewrite TrimSpace_padding, of_runes_runes.
  - by rewrite TrimSpace_ToLower, ToLower_idemp.
  - by rewrite TrimSpace_ToLower, ToLower_idemp, TrimSpace_idemp.
Qed.

(** X11: what one call of [solveQuestion] does to a question.  The guess is
    taken out of the answer map and nothing else changes; the call reports
    a partial solve exactly when the guess was in the map, and then one
    answer fewer is left; it reports a full solve exactly when that was the
    last answer; and it reports a wrong guess exactly when the guess was
    not in the map and its sorted letters are the lower-cased alphagram, so
    that no guess is both right and wrong. *)
Theorem solveQuestion_strikes_one_answer q g :
  let '(q', partially, fully, wrong) := solveQuestion q g in
  (partially = true <-> g ∈ AnswerMap q) /\
  AnswerMap q' = AnswerMap q ∖ {[ g ]} /\
  OrigQuestion q' = OrigQuestion q /\ Whose q' = Whose q /\
  answersLeft q' = answersLeft q - (if partially then 1 else 0) /\
  (fully = true <-> partially = true /\ answersLeft q' = 0) /\
  (wrong = true <->
   partially = false /\ alphagrammize g = ToLower (alphagram (OrigQuestion q))).
Proof.
  unfold solveQuestion. destruct (decide (g ∈ AnswerMap q)) as [Hin|Hout].
  - split_and!; try done.
    + unfold answersLeft. cbn [AnswerMap].
      rewrite size_difference by (by apply singleton_subseteq_l).
      rewrite size_singleton.
      assert (size (AnswerMap q) <> 0%nat)
        by (intros E%size_empty_inv; apply (not_elem_of_empty (C:=gset string) g); by apply E).
      lia.
    + rewrite bool_decide_eq_true. tauto.
    + split; [done|]. by intros [? _].
  - assert (AnswerMap q ∖ {[ g ]} = AnswerMap q) as Hsame
      by (apply set_eq; intros x; rewrite elem_of_difference, elem_of_singleton;
          split; [tauto|intros ?; split; [done|congruence]]).
    split_and!; try done.
    + lia.
    + split; [done|]. by intros [? _].
    + rewrite bool_decide_eq_true. tauto.
Qed.

Lemma dealtTo_cons whose idx alph alphs :
  dealtTo whose idx (alph :: alphs) =
    (if decide (Z.rem idx 2 = whose) then [dealtQuestion idx alph] else []) ++
    dealtTo whose (idx + 1) alphs.
Proof.
  unfold dealtTo. cbn [imap]. rewrite filter_cons.
  replace (idx + Z.of_nat 0) with idx by lia. cbn [Whose dealtQuestion populateMap].
  assert (imap ((fun k a => dealtQuestion (idx + Z.of_nat k) a) ∘ S) alphs =
          imap (fun k a => dealtQuestion (idx + 1 + Z.of_nat k) a) alphs) as ->.
  { apply imap_ext. intros k a _. cbn. f_equal. lia. }
  by destruct (decide (Z.rem idx 2 = whose)).
Qed.

Lemma set_Queue_same gb : set_Queue (Queue gb ++ []) gb = gb.
Proof. rewrite app_nil_r. by destruct gb. Qed.

Lemma deal_two : forall alphs idx b0 b1 rest,
  0 <= idx ->
  deal idx alphs (b0 :: b1 :: rest) =
    Some (set_Queue (Queue b0 ++ dealtTo 0 idx alphs) b0 ::
          set_Queue (Queue b1 ++ dealtTo 1 idx alphs) b1 :: rest).
Proof.
  induction alphs as [|alph alphs IH]; intros idx b0 b1 rest Hidx.
  { cbn [deal]. by rewrite !set_Queue_same. }
  cbn [deal]. rewrite !dealtTo_cons. unfold enqueue.
  cbn [Whose dealtQuestion populateMap].
  assert (Z.rem idx 2 = 0 \/ Z.rem idx 2 = 1) as [Hr|Hr]
    by (pose proof (Z.rem_bound_pos idx 2 Hidx ltac:(lia)); lia).
  - rewrite Hr. destruct (decide (0 <= 0)); [|lia].
    destruct (decide (0 = 0)); [|lia]. destruct (decide (0 = 1)); [lia|].
    change (Z.to_nat 0) with 0%nat. cbn [lookup list_lookup mbind option_bind].
    cbn [insert list_insert]. rewrite IH by lia. cbn [app]. do 2 f_equal.
    destruct b0; cbn. by rewrite <- app_assoc.
  - rewrite Hr. destruct (decide (0 <= 1)); [|lia].
    destruct (decide (1 = 0)); [lia|]. destruct (decide (1 = 1)); [|lia].
    change (Z.to_nat 1) with 1%nat. cbn [lookup list_lookup mbind option_bind].
    cbn [insert list_insert]. rewrite IH by lia. cbn [app]. do 3 f_equal.
    destruct b1; cbn. by rewrite <- app_assoc.
Qed.

Lemma dealtTo_length : forall n alphs idx whose,
  length alphs = (2 * n)%nat -> 0 <= idx -> whose = 0 \/ whose = 1 ->
  length (dealtTo whose idx alphs) = n.
Proof.
  induction n as [|n IH]; intros alphs idx whose Hlen Hidx Hw.
  { by destruct alphs. }
  destruct alphs as [|a [|b alphs]]; [done|cbn in Hlen; lia|].
  rewrite !dealtTo_cons, !length_app, (IH alphs) by (cbn in Hlen; lia).
  assert (Z.rem idx 2 = 0 /\ Z.rem (idx + 1) 2 = 1 \/
          Z.rem idx 2 = 1 /\ Z.rem (idx + 1) 2 = 0) as Hr.
  { rewrite !Z.rem_mod_nonneg by lia.
    pose proof (Z.mod_pos_bound idx 2 ltac:(lia)).
    rewrite <- (Zplus_mod_idemp_l idx 1).
    destruct (decide (idx mod 2 = 0)) as [E|E]; [left|right];
      (replace (idx mod 2) with 0 by lia) || (replace (idx mod 2) with 1 by lia);
      split; [lia|done|lia|done]. }
  destruct Hr as [[-> ->]|[-> ->]], Hw as [-> | ->]; reflexivity.
Qed.

Lemma Tick_fresh_deals idx queue q :
  exists gb evs,
    Tick (freshBoard idx (queue ++ [q])) = Some (gb, evs) /\
    Idx gb = idx /\ Queue gb = queue /\
    Slots gb = <[0%nat := Some q]> (replicate (Z.to_nat NumSlots) None) /\
    fallerPos gb = 0 /\ status gb = PieceDropping /\ Timer gb = Some TickDuration.
Proof.
  destruct (Tick_release_piece (freshBoard idx (queue ++ [q])) q)
    as (gb & evs & Htick & HS & HQ & _ & HT & Hcase).
  - done.
  - done.
  - cbn. apply last_snoc.
  - by left.
  - by change (topOfStack _) with 16.
  - change (topOfStack _) with 16 in Hcase. cbn in Hcase. destruct Hcase as [HF Hst].
    exists gb, evs. split; [done|].
    destruct (Tick_frame _ _ _ Htick) as (_ & _ & Hidx & _).
    split_and!; try done.
    cbn in HQ. rewrite HQ, length_app. cbn.
    replace (length queue + 1 - 1)%nat with (length queue) by lia.
    by rewrite take_app_length.
Qed.

Lemma snoc_of_length {A} (l : list A) n :
  length l = S n -> exists l' x, l = l' ++ [x] /\ length l' = n.
Proof.
  destruct l as [|x l] using rev_ind; [done|].
  rewrite length_app. cbn. intros Hlen. exists l, x. split; [done|lia].
Qed.

(** X12: what a successful [start] leaves.  With at least two players and
    at least [TotalNumQuestions] questions from [QuestionOffset] on, [start]
    returns no error, moves [QuestionOffset] on by [TotalNumQuestions],
    sets [Playing], clears the exit flags, and makes one board per player;
    it signals one state change.  Of the 50 questions dealt, board 0 got
    those at the even positions and board 1 those at the odd ones, 25 each,
    in the order of dealing: the last of them is the piece now falling from
    slot 0 of an otherwise empty board, the 24 before it wait in the
    queue. *)
Theorem start_deals_both_boards shuffle alphagrams gs p0 p1 others :
  Players gs = p0 :: p1 :: others ->
  0 <= QuestionOffset gs ->
  QuestionOffset gs + TotalNumQuestions <= Z.of_nat (length (shuffle alphagrams)) ->
  let dealt := take (Z.to_nat TotalNumQuestions)
                    (drop (Z.to_nat (QuestionOffset gs)) (shuffle alphagrams)) in
  exists gs',
    start shuffle (SearchReturns alphagrams) gs =
      Some (gs', None, [StateChangeSignal]) /\
    gsStatus gs' = Playing /\
    QuestionOffset gs' = QuestionOffset gs + TotalNumQuestions /\
    Players gs' = Players gs /\
    exitedboards gs' = replicate (length (Players gs)) false /\
    length (Boards gs') = length (Players gs) /\
    forall i, (i < 2)%nat ->
      exists gb q,
        Boards gs' !! i = Some gb /\ Idx gb = Z.of_nat i /\
        Queue gb ++ [q] = dealtTo (Z.of_nat i) 0 dealt /\
        length (Queue gb) = 24%nat /\
        Slots gb = <[0%nat := Some q]> (replicate (Z.to_nat NumSlots) None) /\
        fallerPos gb = 0 /\ status gb = PieceDropping /\
        Timer gb = Some TickDuration.
Proof.
  intros Hplayers Hoff Henough dealt.
  assert (length dealt = (2 * 25)%nat) as Hlen.
  { subst dealt. rewrite length_take, length_drop. unfold TotalNumQuestions in *. lia. }
  destruct (snoc_of_length (dealtTo 0 0 dealt) 24) as (queue0 & q0 & Hd0 & Hl0).
  { apply dealtTo_length; [done|lia|by left]. }
  destruct (snoc_of_length (dealtTo 1 0 dealt) 24) as (queue1 & q1 & Hd1 & Hl1).
  { apply dealtTo_length; [done|lia|by right]. }
  destruct (Tick_fresh_deals 0 queue0 q0)
    as (gb0 & evs0 & Htick0 & Hidx0 & HQ0 & HS0 & HF0 & Hst0 & HT0).
  destruct (Tick_fresh_deals 1 queue1 q1)
    as (gb1 & evs1 & Htick1 & Hidx1 & HQ1 & HS1 & HF1 & Hst1 & HT1).
  set (rest := imap ((fun i _ => newGameBoard (Z.of_nat i)) ∘ S ∘ S) others).
  assert (exists rest', mapM (fun gb => fst <$> Tick gb) rest = Some rest' /\
                        length rest' = length others) as (rest' & Hrest & Hlr).
  { destruct (mapM (fun gb => fst <$> Tick gb) rest) as [rest'|] eqn:Hm.
    - exists rest'. split; [done|]. apply length_mapM in Hm. symmetry in Hm.
      subst rest. by rewrite length_imap in Hm.
    - exfalso. assert (is_Some (mapM (fun gb => fst <$> Tick gb) rest)) as [? Hs];
        [|congruence].
      apply mapM_is_Some. apply Forall_forall. intros gb Hgb.
      subst rest. apply elem_of_lookup_imap in Hgb as (i & p & -> & _).
      destruct (Tick_fresh_running (Z.of_nat (S (S i))) []) as (g & e & Ht & _).
      change (freshBoard ?i []) with (newGameBoard i) in Ht.
      change (is_Some (fst <$> Tick (newGameBoard (Z.of_nat (S (S i)))))).
      by rewrite Ht. }
  unfold start. cbn [QuestionOffset set_exitedboards Players].
  destruct (decide _) as [Hfew|_]; [lia|].
  unfold slice. destruct (decide (0 <= QuestionOffset gs)); [|lia].
  cbn [mbind option_bind]. fold dealt. rewrite Hplayers. cbn [imap].
  fold rest. unfold compose. cbn beta.
  change (Z.of_nat 0) with 0. change (Z.of_nat 1) with 1.
  rewrite deal_two by lia. cbn [mbind option_bind].
  cbn [Boards set_QuestionOffset set_Boards mapM].
  change (set_Queue (Queue (newGameBoard ?i) ++ ?l) (newGameBoard ?i))
    with (freshBoard i l).
  rewrite Hd0, Hd1, Htick0, Htick1. cbn [fmap option_fmap option_map fst mbind option_bind].
  rewrite Hrest. cbn [mbind option_bind mret option_ret].
  eexists. split; [reflexivity|]. cbn.
  split_and!; try done.
  - by rewrite Hlr.
  - intros [|[|i]] Hi; [| |lia].
    + exists gb0, q0. cbn. split_and!; try done. by rewrite HQ0. by rewrite HQ0.
    + exists gb1, q1. cbn. split_and!; try done. by rewrite HQ1. by rewrite HQ1.
Qed.

(** X13: [start] needs two boards.  It makes one board per player and deals
    the questions to boards 0 and 1 in turn, so with fewer than two players
    and enough questions the dealing loop indexes [gs.Boards] out of range
    and the call panics, before anything is returned. *)
Theorem start_panics_without_two_players shuffle alphagrams gs :
  (length (Players gs) < 2)%nat ->
  0 <= QuestionOffset gs ->
  QuestionOffset gs + TotalNumQuestions <= Z.of_nat (length (shuffle alphagrams)) ->
  start shuffle (SearchReturns alphagrams) gs = None.
Proof.
  intros Hplayers Hoff Henough. unfold start.
  cbn [QuestionOffset set_exitedboards Players].
  destruct (decide _) as [Hfew|_]; [lia|].
  unfold slice. destruct (decide (0 <= QuestionOffset gs)); [|lia].
  cbn [mbind option_bind].
  remember (take _ _) as dealt eqn:Hdealt.
  assert (length dealt = 50%nat) as Hlen.
  { subst dealt. rewrite length_take, length_drop. unfold TotalNumQuestions in *. lia. }
  destruct dealt as [|a [|b dealt]]; [done|done|].
  destruct (Players gs) as [|p [|p' others]]; [done|done|cbn in Hplayers; lia].
Qed.

Lemma Tick_OppQueue gb gb' evs :
  Tick gb = Some (gb', evs) ->
  status gb = PieceDropping \/
    oppqueueReady gb && bool_decide (OppQueue gb <> []) = false ->
  OppQueue gb' = OppQueue gb.
Proof.
  assert (forall gb1 tos gb2 evs2,
            Tick_land gb1 tos = Some (gb2, evs2) -> OppQueue gb2 = OppQueue gb1)
    as Hland.
  { intros gb1 tos gb2 evs2. unfold Tick_land, followFaller.
    repeat case_match; intros; by simplify_option_eq. }
  assert (forall gb1 gb2 r, LetGoNextPiece gb1 = Some (gb2, r) ->
            OppQueue gb2 = OppQueue gb1) as Hlet.
  { intros gb1 gb2 r. unfold LetGoNextPiece.
    repeat case_match; intros; by simplify_option_eq. }
  unfold Tick, Tick_release. intros Htick Hst.
  destruct (status gb) eqn:Hs.
  - destruct (decide (topOfStack gb = 0)); [by injection Htick as <- _|].
    destruct (decide (fallerPos gb = -1)).
    + destruct (LetGoNextPiece gb) as [[gb1 r]|] eqn:Hl; [|done].
      cbn in Htick. apply Hland in Htick. apply Hlet in Hl. cbn in Htick. congruence.
    + cbn in Htick. by apply Hland in Htick.
  - destruct Hst as [?|Hst]; [done|]. rewrite Hst in Htick.
    destruct (decide (Queue gb = [])); [by injection Htick as <- _|].
    destruct (decide (topOfStack gb = 0)); [by injection Htick as <- _|].
    destruct (LetGoNextPiece gb) as [[gb1 r]|] eqn:Hl; [|done].
    cbn in Htick. apply Hland in Htick. apply Hlet in Hl. cbn in Htick. congruence.
  - destruct Hst as [?|Hst]; [done|]. rewrite Hst in Htick.
    destruct (decide (Queue gb = [])); [by injection Htick as <- _|].
    destruct (decide (topOfStack gb = 0)); [by injection Htick as <- _|].
    destruct (LetGoNextPiece gb) as [[gb1 r]|] eqn:Hl; [|done].
    cbn in Htick. apply Hland in Htick. apply Hlet in Hl. cbn in Htick. congruence.
Qed.

Lemma Tick_step gb gb' evs :
  fallerAloft gb -> Tick gb = Some (gb', evs) -> tickStep gb gb'.
Proof.
  intros Hal Htick. pose proof Hal as (Hlen & Hfp & Hfly).
  pose proof (topOfStack_range gb Hlen) as Hr.
  destruct (decide (0 <= fallerPos gb)) as [Hge|Hno].
  { destruct (Tick_flight gb Hal Hge)
      as (s & gb2 & evs2 & Ht & _ & Hs & HS & HQ & _ & Hcase).
    rewrite Htick in Ht. injection Ht as <- <-.
    apply (step_fall gb gb' s); try done.
    - destruct (decide (fallerPos gb + 2 = topOfStack gb)); by destruct Hcase.
    - eapply Tick_OppQueue; [done|]. left. by destruct (Hfly Hge). }
  assert (fallerPos gb = -1) as Hm by lia.
  assert (forall q, last (Queue gb) = Some q ->
            status gb = PieceDropping \/
              oppqueueReady gb && bool_decide (OppQueue gb <> []) = false ->
            0 < topOfStack gb -> tickStep gb gb') as Hrelease.
  { intros q Hq Hst Htos.
    destruct (Tick_release_piece gb q Hlen Hm Hq Hst Htos)
      as (gb2 & evs2 & Ht & HS & HQ & _ & _ & Hcase).
    rewrite Htick in Ht. injection Ht as <- <-.
    apply step_release; try done.
    - by rewrite Hq.
    - destruct (decide (topOfStack gb = 1)); by destruct Hcase.
    - by eapply Tick_OppQueue. }
  assert (Queue gb <> [] -> exists q, last (Queue gb) = Some q) as Hlast.
  { intros Hne. destruct (last (Queue gb)) as [q|] eqn:Hq; [by exists q|].
    by apply last_None in Hq. }
  assert (forall st, status gb = st -> st <> PieceDropping ->
            tickStep gb gb') as Hwait.
  { intros st Hst Hnd. unfold Tick, Tick_release in Htick. rewrite Hst in Htick.
    assert (Htick' :
      (if oppqueueReady gb && bool_decide (OppQueue gb <> []) then
         '(gb1, added) ← addOppQueue gb;
         let gb2 := set_oppqueueReady false gb1 in
         if Dead gb2 then
           Some (TickReturn (set_LastStateChange (stateChange0 Lost) gb2)
                   [Changed (stateChange0 Lost)])
         else
           Some (TickReturn
                   (set_LastStateChange (stateChange1 StackRise added)
                      (set_Timer (Some TickDuration) gb2))
                   [TimerNew TickDuration;
                    Changed (stateChange1 StackRise added)])
       else if decide (Queue gb = []) then
         Some (TickReturn
                 (set_Timer (Some TickDuration) (set_status PlayerQueueEmpty gb))
                 [TimerNew TickDuration])
       else
         let tos := topOfStack gb in
         if decide (tos = 0) then
           Some (TickReturn (lose gb) [Changed (stateChange0 Lost)])
         else
           gb1 ← fst <$> LetGoNextPiece gb;
           Some (TickContinue (set_fallerPos 0 gb1) tos))
      ≫= (fun ph => match ph with
                    | TickReturn gb' evs => Some (gb', evs)
                    | TickContinue gb' tos => Tick_land gb' tos
                    end) = Some (gb', evs)) by (by destruct st).
    clear Htick.
    destruct (oppqueueReady gb && bool_decide (OppQueue gb <> [])) eqn:Hdue.
    - apply andb_true_iff in Hdue as [Hready Hne%bool_decide_eq_true].
      unfold addOppQueue in Htick'.
      rewrite (addOppQueueLoop_column (OppQueue gb) gb 0 Hlen) in Htick'.
      cbn [mbind option_bind] in Htick'.
      apply step_rise; try done; try congruence;
        destruct (Dead _); by injection Htick' as <- _.
    - destruct (decide (Queue gb = [])) as [Hq|Hq].
      { injection Htick' as <- _. by apply step_idle. }
      cbv zeta in Htick'.
      destruct (decide (topOfStack gb = 0)).
      { injection Htick' as <- _. by apply step_idle. }
      destruct (Hlast Hq) as [q Hlq]. apply (Hrelease q Hlq); [by right|lia]. }
  destruct (status gb) eqn:Hst.
  - destruct (decide (topOfStack gb = 0)) as [Hz|Hnz].
    { unfold Tick, Tick_release in Htick. rewrite Hst in Htick.
      destruct (decide (topOfStack gb = 0)); [|done].
      injection Htick as <- _. by apply step_idle. }
    destruct (last (Queue gb)) as [q|] eqn:Hq.
    { apply (Hrelease q eq_refl); [by left|lia]. }
    unfold Tick, Tick_release, LetGoNextPiece in Htick. rewrite Hst, Hq in Htick.
    destruct (decide (topOfStack gb = 0)); [done|].
    destruct (decide (fallerPos gb = -1)); [|done].
    cbn [fmap option_fmap option_map fst mbind option_bind] in Htick.
    assert (Slots gb !! 0%nat = Some None) as Hzero.
    { pose proof (topOfStack_below gb 0 Hlen ltac:(lia) ltac:(lia)) as H0.
      by apply slotAt_lookup in H0 as [_ ?]. }
    apply last_None in Hq.
    unfold Tick_land, followFaller in Htick.
    cbn [fallerPos set_fallerPos set_LastStateChange] in Htick. rewrite Hm in Htick.
    replace (-1 + 1) with 0 in Htick by lia.
    apply step_release; try done; try lia.
    + rewrite Hq. cbn [last]. rewrite list_insert_id by done.
      repeat case_match; by simplify_option_eq.
    + destruct (decide (topOfStack gb = 1));
        repeat case_match; simplify_option_eq; try done; lia.
    + rewrite Hq. cbn. repeat case_match; by simplify_option_eq.
    + repeat case_match; by simplify_option_eq.
  - by apply (Hwait _ eq_refl).
  - by apply (Hwait _ eq_refl).
Qed.

(** On a contiguous stack every slot from [topOfStack] down is settled. *)
Lemma stackContiguous_solid gb j :
  length (Slots gb) = Z.to_nat NumSlots -> stackContiguous gb ->
  topOfStack gb <= j < NumSlots ->
  j = fallerPos gb \/ exists q, slotAt (Slots gb) j = Some (Some q).
Proof.
  intros Hlen Hc Hj. pose proof (topOfStack_range gb Hlen) as Hr.
  destruct (topOfStack_at gb Hlen ltac:(lia)) as (Hne & q & Hq).
  destruct (decide (j = topOfStack gb)) as [->|Hnj]; [right; by exists q|].
  apply (Hc (topOfStack gb) j); [lia|lia|lia|done|by exists q].
Qed.

(** X14: [Tick] keeps the stack contiguous.  On a board where a piece in
    flight has room under it, if every slot below a settled piece is
    settled or is the faller, then the same holds after [Tick], whatever it
    did: the faller moved or landed, a piece was released, or the attacks
    due pushed the column up. *)
Theorem Tick_keeps_the_stack_contiguous gb gb' evs :
  fallerAloft gb -> stackContiguous gb -> Tick gb = Some (gb', evs) ->
  stackContiguous gb'.
Proof.
  intros Hal Hc Htick. pose proof Hal as (Hlen & Hfp & Hfly).
  pose proof (topOfStack_range gb Hlen) as Hr.
  pose proof (stackContiguous_solid gb) as Hsolid.
  destruct (Tick_step gb gb' evs Hal Htick)
    as [HS HF _ _|_ _ Hne Hm HF HS _ _|s Hge Hs HS HF _ _|Hm Htos HS HF _ _];
    unfold stackContiguous; rewrite HS, HF; unfold NumSlots in *.
  - exact Hc.
  - intros i j Hi Hij Hj _ [q Hq]. right.
    apply slotAt_lookup in Hq as [_ Hq]. rewrite lookup_drop in Hq.
    destruct (decide (length (OppQueue gb) + Z.to_nat j < 16)%nat) as [Hin|Hout].
    + rewrite lookup_app_l in Hq by lia.
      destruct (Hc (Z.of_nat (length (OppQueue gb)) + i)
                   (Z.of_nat (length (OppQueue gb)) + j)) as [?|[q' Hq']];
        unfold NumSlots; [lia|lia|lia|lia| |lia|].
      * exists q. apply slotAt_lookup. unfold NumSlots. split; [lia|].
        by replace (Z.to_nat (Z.of_nat (length (OppQueue gb)) + i))
          with (length (OppQueue gb) + Z.to_nat i)%nat by lia.
      * exists q'. apply slotAt_lookup. unfold NumSlots. split; [lia|].
        apply slotAt_lookup in Hq' as [_ Hq']. rewrite lookup_drop.
        rewrite lookup_app_l by lia.
        by replace (length (OppQueue gb) + Z.to_nat j)%nat
          with (Z.to_nat (Z.of_nat (length (OppQueue gb)) + j)) by lia.
    + destruct (lookup_lt_is_Some_2 (OppQueue gb)
                  (length (OppQueue gb) + Z.to_nat j - 16)%nat ltac:(lia))
        as [a Ha].
      exists a. apply slotAt_lookup. unfold NumSlots. split; [lia|].
      rewrite lookup_drop, lookup_app_r by lia.
      rewrite list_lookup_fmap. replace (length (Slots gb)) with 16%nat by lia.
      by rewrite Ha.
  - destruct (Hfly Hge) as (_ & _ & Hroom & Hempty). unfold NumSlots in *.
    pose proof (topOfStack_above gb (fallerPos gb + 1) ltac:(unfold NumSlots; lia)
                  Hempty) as Habove.
    assert (forall i, 0 <= i < 16 -> i <> fallerPos gb + 1 ->
              (exists q, slotAt (<[Z.to_nat (fallerPos gb + 1):=s]>
                           (<[Z.to_nat (fallerPos gb):=None]> (Slots gb))) i
                         = Some (Some q)) ->
              topOfStack gb <= i /\ exists q, slotAt (Slots gb) i = Some (Some q))
      as Hold.
    { intros i Hi Hne [q Hq]. apply slotAt_lookup in Hq as [_ Hq].
      rewrite list_lookup_insert_ne in Hq by lia.
      destruct (decide (i = fallerPos gb)) as [->|Hne'].
      - rewrite list_lookup_insert_eq in Hq by lia. done.
      - rewrite list_lookup_insert_ne in Hq by lia.
        assert (slotAt (Slots gb) i = Some (Some q)) as Hq'
          by (apply slotAt_lookup; unfold NumSlots; split; [lia|done]).
        split; [|by exists q].
        destruct (decide (i < topOfStack gb)); [|lia].
        rewrite (topOfStack_below gb i Hlen) in Hq' by lia. done. }
    assert (forall j, topOfStack gb <= j < 16 ->
              exists q, slotAt (<[Z.to_nat (fallerPos gb + 1):=s]>
                          (<[Z.to_nat (fallerPos gb):=None]> (Slots gb))) j
                        = Some (Some q)) as Hnew.
    { intros j Hj. destruct (Hsolid j Hlen Hc ltac:(unfold NumSlots; lia))
        as [?|[q Hq]]; [lia|].
      exists q. apply slotAt_lookup. apply slotAt_lookup in Hq as [? Hq].
      split; [done|]. by rewrite !list_lookup_insert_ne by lia. }
    intros i j Hi Hij Hj Hne Hocc.
    destruct (decide (i = fallerPos gb + 1)) as [->|Hni].
    + destruct (decide (fallerPos gb + 2 = topOfStack gb)); [|done].
      right. apply Hnew. lia.
    + destruct (Hold i ltac:(lia) Hni Hocc) as [Hti _]. right. apply Hnew. lia.
  - assert (forall j, 0 < j < 16 ->
              slotAt (<[0%nat:=last (Queue gb)]> (Slots gb)) j
              = slotAt (Slots gb) j) as Hsame.
    { intros j Hj. unfold slotAt. destruct (decide (0 <= j < NumSlots)); [|done].
      by rewrite list_lookup_insert_ne by lia. }
    intros i j Hi Hij Hj Hne Hocc. right. rewrite Hsame by lia.
    destruct (decide (i = 0)) as [->|Hni].
    + destruct (decide (topOfStack gb = 1)); [|done].
      destruct (Hsolid j Hlen Hc ltac:(unfold NumSlots; lia)) as [?|?]; [lia|done].
    + rewrite Hsame in Hocc by lia.
      destruct (Hc i j) as [?|?]; unfold NumSlots; try done; lia.
Qed.

Lemma omap_id_Some (l : list Question) : omap id (Some <$> l) = l.
Proof. induction l as [|q l IH]; [done|]. cbn. by rewrite IH. Qed.

Lemma omap_id_None (l : list (option Question)) :
  Forall (fun s => s = None) l -> omap id l = [].
Proof. induction 1 as [|s l -> _ IH]; [done|]. by cbn. Qed.

Lemma omap_id_fall : forall i (l : list (option Question)) s,
  l !! i = Some s -> l !! S i = Some None ->
  omap id (<[S i := s]> (<[i := None]> l)) = omap id l.
Proof.
  induction i as [|i IH]; intros [|x l] s Hs Hn; try done.
  - destruct l as [|y l]; [done|]. cbn in Hs, Hn. injection Hs as ->.
    injection Hn as ->. by destruct s.
  - cbn in Hs, Hn. specialize (IH l s Hs Hn).
    change (<[S (S i) := s]> (<[S i := None]> (x :: l)))
      with (x :: <[S i := s]> (<[i := None]> l)).
    change (omap id (x :: ?k)) with
      (match x with Some y => y :: omap id k | None => omap id k end).
    by rewrite IH.
Qed.

(** X15: [Tick] neither loses nor duplicates a question, as long as the
    attacks that are due find room.  On a board where a piece in flight has
    room under it, the questions held in the slots, the queue and the attack
    queue after a [Tick] are those held before, provided that, when the
    board is waiting for a piece with the attack queue ready, there are at
    most 16 attacks and as many slots at the top are empty. *)
Theorem Tick_conserves_the_questions gb gb' evs :
  fallerAloft gb -> Tick gb = Some (gb', evs) ->
  (status gb <> PieceDropping -> oppqueueReady gb = true ->
   (length (OppQueue gb) <= 16)%nat /\
   Forall (fun s => s = None) (take (length (OppQueue gb)) (Slots gb))) ->
  held gb' ≡ₚ held gb.
Proof.
  intros Hal Htick Hroom. pose proof Hal as (Hlen & Hfp & Hfly).
  unfold NumSlots in *.
  destruct (Tick_step gb gb' evs Hal Htick)
    as [HS HF HQ HO|Hst Hready Hne Hm HF HS HQ HO|s Hge Hs HS HF HQ HO
       |Hm Htos HS HF HQ HO];
    unfold held; rewrite HS, HQ, HO.
  - done.
  - destruct (Hroom Hst Hready) as [Hn Hempty].
    rewrite drop_app_le by lia. rewrite omap_app, omap_id_Some.
    rewrite <- (take_drop (length (OppQueue gb)) (Slots gb)) at 2.
    rewrite omap_app, (omap_id_None _ Hempty), app_nil_r. cbn [app].
    rewrite <- !app_assoc. f_equiv. apply Permutation_app_comm.
  - destruct (Hfly Hge) as (_ & _ & Hroom' & Hempty).
    specialize (Hempty (fallerPos gb + 1) ltac:(lia) ltac:(lia)).
    apply slotAt_lookup in Hempty as [_ Hempty].
    replace (Z.to_nat (fallerPos gb + 1)) with (S (Z.to_nat (fallerPos gb)))
      in * by lia.
    by rewrite (omap_id_fall _ _ s Hs Hempty).
  - pose proof (topOfStack_below gb 0 Hlen ltac:(lia) ltac:(lia)) as H0.
    apply slotAt_lookup in H0 as [_ H0].
    destruct (Slots gb) as [|top below] eqn:Hsl; [done|].
    cbn in H0. injection H0 as ->. cbn [insert list_insert omap list_omap].
    change (list_omap ?f ?l) with (omap f l).
    destruct (Queue gb) as [|q0 queue] eqn:Hq using rev_ind; [done|].
    rewrite last_snoc. cbn [id]. rewrite length_app. cbn [length].
    replace (length queue + 1 - 1)%nat with (length queue) by lia.
    rewrite take_app_length. rewrite <- !app_assoc. cbn [app].
    by rewrite <- !Permutation_middle.
Qed.

Lemma sendAll_unserved : forall guesses,
  sendAll guesses (mkGuessChan [] false) =
    if decide (length guesses <= guessEventsCap)%nat
    then Returns (mkGuessChan guesses false) else Blocks.
Proof.
  induction guesses as [|guess guesses IH] using rev_ind; [done|].
  unfold sendAll in *. rewrite foldl_app, IH, length_app. cbn [foldl length].
  unfold guessEventsCap in *.
  destruct (decide (length guesses <= 5)%nat) as [Hle|Hgt].
  - unfold GameBoard_Guess, guessEventsCap. cbn [waiting served].
    destruct (decide (length guesses < 5)%nat);
      destruct (decide (length guesses + 1 <= 5)%nat); try lia; done.
  - destruct (decide (length guesses + 1 <= 5)%nat); [lia|done].
Qed.

(** X16: a guess reaches the board of the player who made it, if the
    channel takes it.  On a manager with a board for every player, as
    [start] leaves it, [Guess] for a name among the players sends the guess,
    as it was typed, on the channel of one board: the one at the first
    position that the name has among the players.  With room in the buffer
    of 5 the call returns no error at once; on a full buffer it returns
    once the loop of the board has received the oldest guess, and it blocks
    for ever when that loop receives no more, as after it has been left: of
    the guesses sent to such a board, starting on an empty buffer, the first
    five are taken and the sixth blocks.  For a name that is not among the
    players the call returns the error "player is not in this game" and
    sends nothing. *)
Theorem Guess_reaches_the_players_board username guess chan gs :
  length (Boards gs) = length (Players gs) ->
  (username ∈ Players gs ->
   exists i,
     Players gs !! i = Some username /\
     (forall j, (j < i)%nat -> Players gs !! j <> Some username) /\
     is_Some (Boards gs !! i) /\
     ((length (waiting (chan i)) < guessEventsCap)%nat ->
      Guess username guess chan gs =
        Returns (None, Some (i, mkGuessChan (waiting (chan i) ++ [guess])
                                  (served (chan i))))) /\
     ((guessEventsCap <= length (waiting (chan i)))%nat ->
      served (chan i) = true ->
      Guess username guess chan gs =
        Returns (None, Some (i, mkGuessChan (drop 1 (waiting (chan i)) ++ [guess])
                                  true))) /\
     ((guessEventsCap <= length (waiting (chan i)))%nat ->
      served (chan i) = false ->
      Guess username guess chan gs = Blocks)) /\
  (username ∉ Players gs ->
   Guess username guess chan gs =
     Returns (Some "player is not in this game", None)) /\
  (forall guesses,
     sendAll guesses (mkGuessChan [] false) =
       if decide (length guesses <= guessEventsCap)%nat
       then Returns (mkGuessChan guesses false) else Blocks).
Proof.
  intros Hlen. unfold Guess. split_and!.
  - intros Hin.
    destruct (list_find (fun p => p = username) (Players gs)) as [[i p]|] eqn:Hf.
    + apply list_find_Some in Hf as (Hi & -> & Hfirst).
      assert (is_Some (Boards gs !! i)) as [gb Hgb].
      { apply lookup_lt_is_Some. rewrite Hlen. by eapply lookup_lt_Some. }
      exists i. rewrite Hgb. split; [done|]. split.
      { intros j Hj Hp. by apply (Hfirst j username). }
      split; [by exists gb|]. unfold GameBoard_Guess. split_and!.
      * intros Hroom. by destruct (decide _).
      * intros Hfull Hserved. destruct (decide _); [lia|]. by rewrite Hserved.
      * intros Hfull Hserved. destruct (decide _); [lia|]. by rewrite Hserved.
    + apply list_find_None in Hf. rewrite Forall_forall in Hf.
      by destruct (Hf username Hin).
  - intros Hout.
    destruct (list_find (fun p => p = username) (Players gs)) as [[i p]|] eqn:Hf;
      [|done].
    apply list_find_Some in Hf as (Hi & -> & _).
    destruct Hout. by eapply list_elem_of_lookup_2.
  - apply sendAll_unserved.
Qed.

(** X17: a guess during the first countdown panics.  Between
    [StartGameCountdown] and the first [start] the manager has players but
    no boards, and [Guess] for one of the players indexes the empty
    [gs.Boards]. *)
Theorem Guess_before_the_first_start_panics criteria players id username guess
    chan :
  username ∈ players ->
  Guess username guess chan
    (StartGameCountdown (NewGameStateManager criteria players id)) = Panics.
Proof.
  intros Hin. unfold Guess. cbn [Players StartGameCountdown NewGameStateManager set_timer].
  destruct (list_find (fun p => p = username) players) as [[i p]|] eqn:Hf.
  - reflexivity.
  - apply list_find_None in Hf. rewrite Forall_forall in Hf.
    by destruct (Hf username Hin).
Qed.

Lemma sessionsConsistent_new : sessionsConsistent NewSessionManager.
Proof. split; intros ? a H; cbn in H; by rewrite lookup_empty in H. Qed.

Lemma Seek_consistent seeker listname criteria newid s s' r :
  sessionsConsistent s -> Sessions s !! newid = None ->
  Seek seeker listname criteria newid s = Returns (s', r) ->
  sessionsConsistent s'.
Proof.
  intros [Hp Hi] Hfresh. unfold Seek.
  destruct (SessionsForPlayer s !! seeker) as [a|] eqn:Hseek.
  { destruct (cells s !! a); [|done]. by intros [= <- _]. }
  intros [= <- _].
  set (a := fresh (dom (cells s))).
  assert (cells s !! a = None) as Hnew
    by (apply not_elem_of_dom; apply is_fresh).
  split; cbn.
  - intros p a' Hl. destruct (decide (p = seeker)) as [->|Hne].
    + rewrite lookup_insert_eq in Hl. injection Hl as <-.
      eexists. rewrite lookup_insert_eq. split; [done|]. cbn.
      split; [by apply list_elem_of_singleton|]. by rewrite lookup_insert_eq.
    + rewrite lookup_insert_ne in Hl by done.
      destruct (Hp p a' Hl) as (sess & Hc & Hin & Hs).
      exists sess. rewrite !lookup_insert_ne; [done| |]; congruence.
  - intros id a' Hl. destruct (decide (id = newid)) as [->|Hne].
    + rewrite lookup_insert_eq in Hl. injection Hl as <-.
      eexists. rewrite lookup_insert_eq. split; [done|]. cbn.
      split; [done|]. split; [|by exists seeker].
      intros p ->%list_elem_of_singleton. by rewrite lookup_insert_eq.
    + rewrite lookup_insert_ne in Hl by done.
      destruct (Hi id a' Hl) as (sess & Hc & Hid & Hall & Hopen).
      exists sess. rewrite lookup_insert_ne by congruence.
      split; [done|]. split; [done|]. split; [|done].
      intros p Hin. rewrite lookup_insert_ne; [by apply Hall|].
      intros <-. specialize (Hall _ Hin). congruence.
Qed.

Lemma Unseek_consistent seeker s s' r :
  sessionsConsistent s -> Unseek seeker s = Returns (s', r) ->
  sessionsConsistent s'.
Proof.
  intros [Hp Hi]. unfold Unseek.
  destruct (SessionsForPlayer s !! seeker) as [a|] eqn:Hseek;
    [|by intros [= <- _]].
  destruct (Hp _ _ Hseek) as (sess & Hc & Hin & Hs). rewrite Hc.
  destruct (GameSession.GameManager sess) as [m|] eqn:Hm; [by intros [= <- _]|].
  intros [= <- _].
  destruct (Hi _ _ Hs) as (sess0 & Hc0 & _ & Hall & Hopen).
  rewrite Hc in Hc0. injection Hc0 as <-.
  destruct (Hopen Hm) as [seeker' Hplayers].
  rewrite Hplayers in Hin. apply list_elem_of_singleton in Hin as <-.
  split; cbn.
  - intros p a' Hl. apply lookup_delete_Some in Hl as [Hne Hl].
    destruct (Hp p a' Hl) as (sess' & Hc' & Hin' & Hs').
    exists sess'. split; [done|]. split; [done|].
    rewrite lookup_delete_ne; [done|]. intros Heq. rewrite Heq in Hs.
    assert (a' = a) as -> by congruence.
    rewrite Hc in Hc'. injection Hc' as <-.
    rewrite Hplayers in Hin'. by apply list_elem_of_singleton in Hin'.
  - intros id a' Hl. apply lookup_delete_Some in Hl as [Hne Hl].
    destruct (Hi id a' Hl) as (sess' & Hc' & Hid' & Hall' & Hopen').
    exists sess'. split; [done|]. split; [done|]. split; [|done].
    intros p Hin'. rewrite lookup_delete_ne; [by apply Hall'|].
    intros <-. specialize (Hall' _ Hin'). rewrite Hseek in Hall'.
    injection Hall' as <-. rewrite Hc in Hc'. injection Hc' as <-. done.
Qed.

Lemma Join_consistent joiner id s s' r :
  sessionsConsistent s -> Join joiner id s = Returns (s', r) ->
  sessionsConsistent s'.
Proof.
  intros [Hp Hi]. unfold Join.
  destruct (SessionsForPlayer s !! joiner) as [a|] eqn:Hj.
  { destruct (cells s !! a); [|done]. by intros [= <- _]. }
  destruct (Sessions s !! id) as [a|] eqn:Hs; [|by intros [= <- _]].
  destruct (Hi _ _ Hs) as (gs & Hc & Hid & Hall & _). rewrite Hc.
  intros [= <- _]. split; cbn.
  - intros p a' Hl. destruct (decide (p = joiner)) as [->|Hne].
    + rewrite lookup_insert_eq in Hl. injection Hl as <-.
      eexists. rewrite lookup_insert_eq. split; [done|]. cbn.
      split; [apply elem_of_app; right; by apply list_elem_of_singleton|].
      by rewrite Hid.
    + rewrite lookup_insert_ne in Hl by done.
      destruct (Hp p a' Hl) as (sess & Hc' & Hin & Hs').
      destruct (decide (a' = a)) as [->|Hna].
      * rewrite Hc in Hc'. injection Hc' as <-.
        eexists. rewrite lookup_insert_eq. split; [done|]. cbn.
        split; [apply elem_of_app; by left|done].
      * exists sess. by rewrite lookup_insert_ne by done.
  - intros id' a' Hl.
    destruct (Hi id' a' Hl) as (sess & Hc' & Hid' & Hall' & Hopen').
    destruct (decide (a' = a)) as [->|Hna].
    + rewrite Hc in Hc'. injection Hc' as <-.
      eexists. rewrite lookup_insert_eq. split; [done|]. cbn.
      split; [done|]. split; [|done].
      intros p [Hin| ->%list_elem_of_singleton]%elem_of_app.
      * rewrite lookup_insert_ne; [by apply Hall|]. intros <-.
        specialize (Hall _ Hin). congruence.
      * by rewrite lookup_insert_eq.
    + exists sess. rewrite lookup_insert_ne by done.
      split; [done|]. split; [done|]. split; [|done].
      intros p Hin. rewrite lookup_insert_ne; [by apply Hall'|].
      intros <-. specialize (Hall' _ Hin). congruence.
Qed.

(** X18: the maps of the session manager stay consistent.  They are
    consistent in a new session manager, and on consistent maps [Seek] with
    an id not yet in use, [Unseek] and [Join] return, never following a
    pointer that leads nowhere, and leave consistent maps, whatever they
    answer. *)
Theorem session_maps_stay_consistent s :
  sessionsConsistent s ->
  (forall seeker listname criteria newid,
     Sessions s !! newid = None ->
     exists s' r, Seek seeker listname criteria newid s = Returns (s', r) /\
                  sessionsConsistent s') /\
  (forall seeker,
     exists s' r, Unseek seeker s = Returns (s', r) /\ sessionsConsistent s') /\
  (forall joiner id,
     exists s' r, Join joiner id s = Returns (s', r) /\ sessionsConsistent s').
Proof.
  intros Hs. pose proof Hs as [Hp Hi]. split_and!.
  - intros seeker listname criteria newid Hfresh.
    assert (exists s' r, Seek seeker listname criteria newid s = Returns (s', r))
      as (s' & r & Hseek).
    { unfold Seek. destruct (SessionsForPlayer s !! seeker) as [a|] eqn:Hl.
      - destruct (Hp _ _ Hl) as (sess & -> & _). by eexists _, _.
      - by eexists _, _. }
    exists s', r. split; [done|]. by eapply Seek_consistent.
  - intros seeker.
    assert (exists s' r, Unseek seeker s = Returns (s', r)) as (s' & r & Hun).
    { unfold Unseek. destruct (SessionsForPlayer s !! seeker) as [a|] eqn:Hl.
      - destruct (Hp _ _ Hl) as (sess & -> & _).
        destruct (GameSession.GameManager sess); by eexists _, _.
      - by eexists _, _. }
    exists s', r. split; [done|]. by eapply Unseek_consistent.
  - intros joiner id.
    assert (exists s' r, Join joiner id s = Returns (s', r)) as (s' & r & Hjoin).
    { unfold Join. destruct (SessionsForPlayer s !! joiner) as [a|] eqn:Hl.
      - destruct (Hp _ _ Hl) as (sess & -> & _). by eexists _, _.
      - destruct (Sessions s !! id) as [a|] eqn:Hl'; [|by eexists _, _].
        destruct (Hi _ _ Hl') as (sess & -> & _). by eexists _, _. }
    exists s', r. split; [done|]. by eapply Join_consistent.
Qed.

(** X19: a seek that is taken back leaves no trace in the maps.  For a
    player without session and an id not in use, [Seek] returns a new
    session of that id with the seeker as only player and no manager, and
    [Unseek] by the same player then returns no error and leaves [Sessions]
    and [SessionsForPlayer] as they were before the seek. *)
Theorem Seek_then_Unseek_restores_the_maps seeker listname criteria newid s :
  SessionsForPlayer s !! seeker = None -> Sessions s !! newid = None ->
  exists s1 a s2,
    Seek seeker listname criteria newid s = Returns (s1, inl a) /\
    cells s1 !! a =
      Some (GameSession.mk [seeker] newid listname criteria None) /\
    Sessions s1 !! newid = Some a /\ SessionsForPlayer s1 !! seeker = Some a /\
    Unseek seeker s1 = Returns (s2, None) /\
    Sessions s2 = Sessions s /\ SessionsForPlayer s2 = SessionsForPlayer s.
Proof.
  intros Hseeker Hfresh. unfold Seek. rewrite Hseeker.
  eexists _, _, _. split; [reflexivity|]. cbn.
  rewrite !lookup_insert_eq. split; [done|]. split; [done|]. split; [done|].
  unfold Unseek. cbn. rewrite !lookup_insert_eq. cbn.
  split; [reflexivity|]. cbn. split; by apply delete_insert_id.
Qed.

(** X20: [Join] puts both players into the one session and starts its
    countdown.  When the joiner has no session and the id leads to the open
    seek of [seeker], [Join] returns that session: it now lists the seeker
    and the joiner, in this order, and has a new manager on these two
    players whose countdown timer runs, in [Countdown] and without boards.
    Both players' entries lead to this one session, so that a further
    [Seek] by either is refused with "player already in game session" and
    an [Unseek] by the seeker with "game already started", each leaving the
    session manager as it is. *)
Theorem Join_starts_the_countdown_for_both seeker joiner id a sess s :
  SessionsForPlayer s !! joiner = None ->
  Sessions s !! id = Some a -> cells s !! a = Some sess ->
  SessionsForPlayer s !! seeker = Some a ->
  GameSession.Players sess = [seeker] ->
  let manager :=
    StartGameCountdown
      (NewGameStateManager (GameSession.SearchCriteria sess) [seeker; joiner] id) in
  exists s',
    Join joiner id s = Returns (s', inl a) /\
    cells s' !! a =
      Some (GameSession.mk [seeker; joiner] (GameSession.ID sess)
              (GameSession.ListName sess) (GameSession.SearchCriteria sess)
              (Some manager)) /\
    gsStatus manager = Countdown /\ timer manager = Some InitGameCountdownTime /\
    Boards manager = [] /\
    SessionsForPlayer s' !! seeker = Some a /\
    SessionsForPlayer s' !! joiner = Some a /\
    Sessions s' = Sessions s /\
    (forall p listname criteria newid,
       p = seeker \/ p = joiner ->
       Seek p listname criteria newid s'
         = Returns (s', inr "player already in game session")) /\
    Unseek seeker s' = Returns (s', Some "game already started").
Proof.
  intros Hjoiner Hid Hcell Hseeker Hplayers manager.
  assert (seeker <> joiner) as Hne by congruence.
  unfold Join. rewrite Hjoiner, Hid, Hcell, Hplayers. cbn [app].
  eexists. split; [reflexivity|]. cbn [cells SessionsForPlayer Sessions].
  rewrite lookup_insert_eq, lookup_insert_ne, lookup_insert_eq by done.
  split_and!; try done.
  - intros p listname criteria newid [-> | ->]; unfold Seek; cbn.
    + by rewrite lookup_insert_ne, Hseeker, lookup_insert_eq by done.
    + by rewrite !lookup_insert_eq.
  - unfold Unseek. cbn.
    by rewrite lookup_insert_ne, Hseeker, lookup_insert_eq by done.
Qed.

(** X21: a guess sent to a session before its first round panics.  While
    the session is an open seek it has no manager, and [SendGuess] calls
    [Guess] on the nil pointer; from [Join] to the first [start] its
    manager has no boards, and a guess by one of its players indexes the
    empty [gs.Boards].  A guess by anybody else only gets the error. *)
Theorem guess_before_the_first_round_panics sender gid guess chan a sess s :
  Sessions s !! gid = Some a -> cells s !! a = Some sess ->
  (GameSession.GameManager sess = None ->
   SendGuess sender gid guess chan s = Panics) /\
  (forall criteria players id,
     GameSession.GameManager sess
       = Some (StartGameCountdown (NewGameStateManager criteria players id)) ->
     (sender ∈ players -> SendGuess sender gid guess chan s = Panics) /\
     (sender ∉ players ->
      SendGuess sender gid guess chan s
        = Returns (Some "player is not in this game", None))).
Proof.
  intros Hid Hcell. unfold SendGuess. rewrite Hid, Hcell. split.
  - by intros ->.
  - intros criteria players id ->. unfold Guess.
    cbn [Players StartGameCountdown NewGameStateManager set_timer Boards].
    split; intros Hin.
    + destruct (list_find _ _) as [[i p]|] eqn:Hf; [done|].
      apply list_find_None in Hf. rewrite Forall_forall in Hf.
      by destruct (Hf sender Hin).
    + destruct (list_find _ _) as [[i p]|] eqn:Hf; [|done].
      apply list_find_Some in Hf as (Hi & -> & _).
      destruct Hin. by eapply list_elem_of_lookup_2.
Qed.

(** X22: [Leave] never destroys a session.  Whatever the session manager
    holds, the call ends in one of four ways, none of which deletes
    anything: it returns an error (the player has no session, the id is not
    that of the player's session, or the game is not in [Countdown]), it
    panics (the session is an open seek, without manager), or, with the
    game in [Countdown], it blocks for ever in [Stop]. *)
Theorem Leave_never_destroys_a_session leaver id s :
  match Leave leaver id s with
  | Returns (s', err) => s' = s /\ err <> None
  | Panics =>
      exists a, SessionsForPlayer s !! leaver = Some a /\
        forall sess, cells s !! a = Some sess ->
                     GameSession.ID sess = id /\
                     GameSession.GameManager sess = None
  | Blocks =>
      exists a sess manager,
        SessionsForPlayer s !! leaver = Some a /\ cells s !! a = Some sess /\
        GameSession.ID sess = id /\
        GameSession.GameManager sess = Some manager /\
        gsStatus manager = Countdown
  end.
Proof.
  unfold Leave. destruct (SessionsForPlayer s !! leaver) as [a|] eqn:Hl; [|done].
  destruct (cells s !! a) as [sess|] eqn:Hc.
  - destruct (decide (GameSession.ID sess <> id)) as [Hne|Heq]; [done|].
    assert (GameSession.ID sess = id) as Hid
      by (destruct (decide (GameSession.ID sess = id)); done).
    destruct (GameSession.GameManager sess) as [manager|] eqn:Hm.
    + unfold TryDestroy, Stop.
      destruct (decide (gsStatus manager <> Countdown)) as [Hst|Hst]; [done|].
      exists a, sess, manager. split_and!; try done.
      destruct (gsStatus manager); [done|by destruct Hst..].
    + exists a. split; [done|]. intros sess' Heq'. by simplify_eq.
  - exists a. split; [done|]. intros sess' Heq'. by simplify_eq.
Qed.

Lemma handleGuessEvent_sends_own gb g gb' changed evs q :
  handleGuessEvent gb g = Some (gb', changed, evs) -> q ∈ sentToOpp evs ->
  Whose q = Idx gb /\ sentToOpp evs = [q] /\ AnswerMap q = AnswerMap (populateMap q).
Proof.
  unfold handleGuessEvent.
  destruct (guessLoop _ _ _ _ _) as [slots1 v].
  repeat case_match; intros; simplify_option_eq; cbn in *;
    repeat match goal with
    | H : _ ∈ [] |- _ => by apply elem_of_nil in H
    | H : _ ∈ [_] |- _ => apply list_elem_of_singleton in H; subst
    end; try done.
Qed.

(** X23: an attack goes to the other player.  A question that
    [handleGuessEvent] puts on [addToOppQueue] belongs to the board that
    solved it and has all its answers again; on a board of the first or
    second player, the manager's [Loop], once both boards exist, passes it
    without panic to the board of the other player and changes nothing
    else, and that board's loop puts it at the end of its attack queue. *)
Theorem attack_goes_to_the_other_board shuffle gb g gb' changed evs q gs opp :
  handleGuessEvent gb g = Some (gb', changed, evs) -> q ∈ sentToOpp evs ->
  Idx gb = 0 \/ Idx gb = 1 ->
  (2 <= length (Boards gs))%nat ->
  Whose q = Idx gb /\
  AnswerMap q = AnswerMap (populateMap q) /\
  1 - Idx gb <> Idx gb /\ (1 - Idx gb = 0 \/ 1 - Idx gb = 1) /\
  Loop_iteration shuffle (AttackRouted q) gs
    = Some (gs, [ToBoard (1 - Idx gb) q], true) /\
  OppQueue (receiveAttack q opp) = OppQueue opp ++ [q].
Proof.
  intros Hguess Hsent Hidx Hboards.
  destruct (handleGuessEvent_sends_own _ _ _ _ _ _ Hguess Hsent) as (Hw & _ & Hfull).
  split; [done|]. split; [done|]. split; [lia|]. split; [lia|]. split.
  - unfold Loop_iteration. rewrite Hw.
    destruct (decide (0 <= 1 - Idx gb)); [|lia].
    destruct (lookup_lt_is_Some_2 (Boards gs) (Z.to_nat (1 - Idx gb)) ltac:(lia))
      as [b ->].
    reflexivity.
  - unfold receiveAttack. by destruct (decide (OppQueue opp = [])).
Qed.

Lemma Loop_app shuffle : forall before rest gs gs0 outs0,
  Loop shuffle before gs = Some (gs0, outs0, false) ->
  Loop shuffle (before ++ rest) gs =
    '(g, o, over) ← Loop shuffle rest gs0; Some (g, outs0 ++ o, over).
Proof.
  induction before as [|ev before IH]; intros rest gs gs0 outs0.
  { cbn [Loop app]. intros [= <- <-].
    by destruct (Loop shuffle rest gs) as [[[g o] over]|]. }
  cbn [Loop app]. destruct (timer gs); [|done]. cbn [mbind option_bind].
  destruct (Loop_iteration shuffle ev gs) as [[[gs1 outs1] continue]|]; [|done].
  cbn [mbind option_bind]. destruct continue; [|done].
  destruct (Loop shuffle before gs1) as [[[gs2 outs2] over2]|] eqn:Hbefore;
    [|done].
  cbn [mbind option_bind]. intros [= <- <- ->].
  rewrite (IH rest gs1 gs2 outs2 Hbefore).
  destruct (Loop shuffle rest gs2) as [[[g o] over]|]; [|done].
  cbn [mbind option_bind]. by rewrite app_assoc.
Qed.

Lemma Loop_iteration_break shuffle ev gs0 gs1 outs1 :
  Loop_iteration shuffle ev gs0 = Some (gs1, outs1, false) <->
  breaksLoop shuffle ev gs0 gs1 outs1.
Proof.
  unfold breaksLoop, Loop_iteration. split.
  - destruct ev as [found|alph| | |idx].
    + destruct (decide (gsStatus gs0 = Countdown)) as [Hc|]; [|done].
      destruct (start shuffle found gs0) as [[[gs2 err] outs2]|] eqn:Hs; [|done].
      cbn [mbind option_bind]. destruct err as [err|]; [|done].
      intros [= <- <-]. right. by exists found, err.
    + destruct (decide (0 <= 1 - Whose alph)); [|done].
      by destruct (Boards gs0 !! _).
    + intros [= <- <-]. by left.
    + done.
    + destruct (decide (0 <= idx)); [|done].
      destruct (exitedboards gs0 !! _); [|done]. cbn.
      by destruct (forallb id _).
  - intros [(-> & -> & ->)|(found & err & -> & Hc & Hs)]; [done|].
    destruct (decide (gsStatus gs0 = Countdown)); [|done]. by rewrite Hs.
Qed.

Lemma Loop_over shuffle : forall evs gs gs' outs,
  Loop shuffle evs gs = Some (gs', outs, true) ->
  exists before ev after gs0 outs0 gs1 outs1,
    evs = before ++ ev :: after /\
    Loop shuffle before gs = Some (gs0, outs0, false) /\
    breaksLoop shuffle ev gs0 gs1 outs1 /\
    gs' = set_gsStatus PermanentlyOver gs1 /\
    outs = outs0 ++ outs1 ++ [Snapshot gs'].
Proof.
  induction evs as [|ev rest IH]; intros gs gs' outs; [done|].
  cbn [Loop]. destruct (timer gs) eqn:Ht; [|done]. cbn [mbind option_bind].
  destruct (Loop_iteration shuffle ev gs) as [[[gs1 outs1] continue]|] eqn:Hit;
    [|done].
  cbn [mbind option_bind]. destruct continue.
  - destruct (Loop shuffle rest gs1) as [[[gs2 outs2] over]|] eqn:Hrest; [|done].
    cbn [mbind option_bind]. intros [= <- <- ->].
    destruct (IH _ _ _ Hrest)
      as (before & ev' & after & gs0 & outs0 & gs3 & outs3 & -> & Hb & Hbr & -> & ->).
    exists (ev :: before), ev', after, gs0, (outs1 ++ outs0), gs3, outs3.
    split; [done|]. split.
    { cbn [Loop]. rewrite Ht. cbn [mbind option_bind]. rewrite Hit.
      cbn [mbind option_bind]. by rewrite Hb. }
    split; [done|]. split; [done|]. by rewrite app_assoc.
  - intros [= <- <-].
    exists [], ev, rest, gs, [], gs1, outs1. split; [done|]. split; [done|].
    split; [by apply Loop_iteration_break|]. done.
Qed.

(** X24: how the manager's [Loop] ends.  [Loop] is left exactly at the
    first event that is a stop request or a timer event, with the manager
    then in [Countdown], whose [start] returns an error; the events after
    it are not read.  The status is then [PermanentlyOver] on the state
    that the stop or the failed [start] has left, and what was sent is what
    the events before had sent, what that [start] sent, and last the
    snapshot of the final state.  Without a stop request and without a
    timer event among the events, [Loop] is still running after them. *)
Theorem Loop_is_left_for_good shuffle evs gs gs' outs over :
  Loop shuffle evs gs = Some (gs', outs, over) ->
  (over = true <->
   exists before ev after gs0 outs0 gs1 outs1,
     evs = before ++ ev :: after /\
     Loop shuffle before gs = Some (gs0, outs0, false) /\
     breaksLoop shuffle ev gs0 gs1 outs1) /\
  (over = true ->
   exists before ev after gs0 outs0 gs1 outs1,
     evs = before ++ ev :: after /\
     Loop shuffle before gs = Some (gs0, outs0, false) /\
     breaksLoop shuffle ev gs0 gs1 outs1 /\
     gs' = set_gsStatus PermanentlyOver gs1 /\
     gsStatus gs' = PermanentlyOver /\
     outs = outs0 ++ outs1 ++ [Snapshot gs']) /\
  (StopRequested ∉ evs -> (forall found, TimerFires found ∉ evs) ->
   over = false).
Proof.
  intros Hloop.
  assert (over = true ->
          exists before ev after gs0 outs0 gs1 outs1,
            evs = before ++ ev :: after /\
            Loop shuffle before gs = Some (gs0, outs0, false) /\
            breaksLoop shuffle ev gs0 gs1 outs1 /\
            gs' = set_gsStatus PermanentlyOver gs1 /\
            gsStatus gs' = PermanentlyOver /\
            outs = outs0 ++ outs1 ++ [Snapshot gs']) as Hfwd.
  { intros ->.
    destruct (Loop_over shuffle _ _ _ _ Hloop)
      as (before & ev & after & gs0 & outs0 & gs1 & outs1 & ? & ? & ? & -> & ?).
    by exists before, ev, after, gs0, outs0, gs1, outs1. }
  split_and!.
  - split.
    + intros Ho.
      destruct (Hfwd Ho)
        as (before & ev & after & gs0 & outs0 & gs1 & outs1 & ? & ? & ? & _).
      by exists before, ev, after, gs0, outs0, gs1, outs1.
    + intros (before & ev & after & gs0 & outs0 & gs1 & outs1 & -> & Hb & Hbr).
      rewrite (Loop_app shuffle _ _ _ _ _ Hb) in Hloop.
      apply Loop_iteration_break in Hbr. cbn [Loop] in Hloop.
      destruct (timer gs0); [|done]. cbn [mbind option_bind] in Hloop.
      rewrite Hbr in Hloop. cbn [mbind option_bind] in Hloop.
      by injection Hloop as _ _ <-.
  - exact Hfwd.
  - intros Hstop Htimer. destruct over; [|done].
    destruct (Hfwd eq_refl)
      as (before & ev & after & gs0 & outs0 & gs1 & outs1 & -> & _ & Hbr & _).
    exfalso.
    destruct Hbr as [(-> & _)|(found & err & -> & _)].
    + apply Hstop. apply elem_of_app. right. by left.
    + apply (Htimer found). apply elem_of_app. right. by left.
Qed.

Lemma exitedAfter_length idxs : forall exited,
  length (exitedAfter idxs exited) = length exited.
Proof.
  induction idxs as [|idx idxs IH]; intros exited; [done|].
  cbn. change (foldl _ ?e idxs) with (exitedAfter idxs e).
  by rewrite IH, length_insert.
Qed.

(** Exit flags are only ever set. *)
Lemma exitedAfter_all idxs : forall exited,
  forallb id exited = true -> forallb id (exitedAfter idxs exited) = true.
Proof.
  induction idxs as [|idx idxs IH]; intros exited Hall; [done|].
  cbn. change (foldl _ ?e idxs) with (exitedAfter idxs e). apply IH.
  apply forallb_forall. intros b Hb.
  apply list_elem_of_In, list_elem_of_lookup in Hb as [i Hi].
  destruct (decide (i = Z.to_nat idx)) as [->|Hne].
  - apply list_lookup_insert_Some in Hi as [(_ & <- & _)|[? _]]; done.
  - rewrite list_lookup_insert_ne in Hi by done.
    rewrite forallb_forall in Hall. apply Hall.
    apply list_elem_of_In. by eapply list_elem_of_lookup_2.
Qed.

(** X25: the round is over when every board has reported its exit.  With
    a timer and an exit flag for every index reported, [Loop] takes the
    exits of boards in any order and number without panic and without
    sending anything, and stays in the loop; it sets the flag of each and
    keeps the players and [QuestionOffset].  When after the last of them
    every flag is set, the manager is in [Countdown] with the timer of
    [NextGameCountdownTime] running, so that the next round starts when it
    fires; as long as a flag is missing, status and timer are as before. *)
Theorem round_ends_when_every_board_has_exited : forall shuffle idxs gs,
  timer gs <> None ->
  Forall (fun idx => 0 <= idx < Z.of_nat (length (exitedboards gs))) idxs ->
  exists gs',
    Loop shuffle (BoardExited <$> idxs) gs = Some (gs', [], false) /\
    exitedboards gs' = exitedAfter idxs (exitedboards gs) /\
    Players gs' = Players gs /\ QuestionOffset gs' = QuestionOffset gs /\
    length (Boards gs') = length (Boards gs) /\ timer gs' <> None /\
    (idxs <> [] ->
     if forallb id (exitedboards gs')
     then gsStatus gs' = Countdown /\ timer gs' = Some NextGameCountdownTime
     else gsStatus gs' = gsStatus gs /\ timer gs' = timer gs).
Proof.
  intros shuffle. induction idxs as [|idx idxs IH]; intros gs Htimer Hidxs.
  { exists gs. by split_and!. }
  apply Forall_cons in Hidxs as [Hidx Hrest].
  cbn [fmap list_fmap Loop]. destruct (timer gs) as [t|] eqn:Ht; [|done].
  cbn [mbind option_bind Loop_iteration].
  destruct (decide (0 <= idx)); [|lia].
  destruct (lookup_lt_is_Some_2 (exitedboards gs) (Z.to_nat idx) ltac:(lia))
    as [b ->].
  cbn [mbind option_bind].
  set (exited := <[Z.to_nat idx := true]> (exitedboards gs)).
  destruct (forallb id exited) eqn:Hall; cbn [mbind option_bind].
  - match goal with |- context [Loop shuffle _ ?g] => set (gs1 := g) end.
    destruct (IH gs1) as (gs' & Hloop & Hex & Hp & Hq & Hb & Ht' & Hst).
    { done. }
    { unfold gs1. cbn. unfold exited. by rewrite length_insert. }
    change (list_fmap _ _ BoardExited idxs) with (BoardExited <$> idxs).
    rewrite Hloop. cbn [mbind option_bind app].
    exists gs'. split; [done|]. split; [exact Hex|]. split_and!; try done.
    intros _. rewrite Hex.
    change (exitedboards gs1) with exited.
    rewrite (exitedAfter_all idxs exited Hall).
    destruct idxs as [|idx' idxs'].
    + cbn in Hloop. by injection Hloop as <-.
    + specialize (Hst ltac:(done)). rewrite Hex in Hst.
      change (exitedboards gs1) with exited in Hst.
      by rewrite (exitedAfter_all _ exited Hall) in Hst.
  - match goal with |- context [Loop shuffle _ ?g] => set (gs1 := g) end.
    destruct (IH gs1) as (gs' & Hloop & Hex & Hp & Hq & Hb & Ht' & Hst).
    { unfold gs1. cbn. by rewrite Ht. }
    { unfold gs1. cbn. unfold exited. by rewrite length_insert. }
    change (list_fmap _ _ BoardExited idxs) with (BoardExited <$> idxs).
    rewrite Hloop. cbn [mbind option_bind app].
    exists gs'. split; [done|]. split; [exact Hex|]. split_and!; try done.
    { rewrite Hb. unfold gs1. cbn. by rewrite length_imap. }
    intros _. destruct idxs as [|idx' idxs'].
    + cbn in Hloop. injection Hloop as <-. cbn.
      change (<[Z.to_nat idx := true]> (exitedboards gs)) with exited.
      by rewrite Hall.
    + specialize (Hst ltac:(done)).
      destruct (forallb id (exitedboards gs')); [done|].
      destruct Hst as [-> ->]. unfold gs1. cbn. by rewrite ?Ht.
Qed.

Lemma loopIteration_quitting ev gb gb' out continue :
  loopIteration ev gb = Some (gb', out, continue) ->
  quitting gb' = quitting gb /\
  (ev = MainTimer -> quitting gb = true -> continue = false).
Proof.
  destruct ev as [| |evt|alph|]; cbn [loopIteration].
  - destruct (Tick gb) as [[gb1 evs]|] eqn:Htick; [|done].
    cbn. intros [= <- _ <-].
    destruct (Tick_frame _ _ _ Htick) as (_ & _ & _ & Hq & _).
    split; [done|]. intros _ Hquit. rewrite Hq, Hquit.
    by rewrite !orb_true_r.
  - by intros [= <- _ _].
  - destruct (handleGuessEvent gb evt) as [[[gb1 changed] evs]|] eqn:Hg; [|done].
    cbn. intros [= <- _ _].
    by destruct (handleGuessEvent_frame _ _ _ _ _ Hg) as (_ & _ & _ & _ & Hq & _).
  - intros [= <- _ _]. split; [|done].
    unfold receiveAttack. by destruct (decide _).
  - by intros [= <- _ _].
Qed.

(** X26: a board that was told to quit leaves its loop at its next tick at
    the latest.  On a running board with [quitting] set, whatever guesses,
    attacks or attack timers arrive first, the loop is left once the main
    timer has fired, without panic, and what comes later is not read. *)
Theorem quitting_board_leaves_at_its_next_tick : forall pre later gb,
  running gb -> quitting gb = true ->
  exists gb' out,
    loopFrom (pre ++ MainTimer :: later) gb = Some (gb', out, true) /\
    quitting gb' = true /\ Idx gb' = Idx gb /\
    exists before, out = before ++ [OppQueueTimerStop; TimerStop; SignalExit (Idx gb)].
Proof.
  induction pre as [|ev pre IH]; intros later gb Hrun Hquit;
    pose proof Hrun as (_ & Htimer & Hopp);
    cbn [app loopFrom];
    (destruct (Timer gb); [|done]); (destruct (OppQueueTimer gb); [|done]);
    cbn [mbind option_bind].
  - destruct (loopIteration_running MainTimer gb Hrun)
      as (gb1 & out & continue & Hit & Hrun1 & Hidx & _).
    destruct (loopIteration_quitting _ _ _ _ _ Hit) as [Hq Hstop].
    rewrite (Hstop eq_refl Hquit) in Hit. rewrite Hit. cbn [mbind option_bind].
    eexists _, _. split; [reflexivity|]. split; [congruence|]. split; [done|].
    exists out. by rewrite Hidx.
  - destruct (loopIteration_running ev gb Hrun)
      as (gb1 & out & continue & Hit & Hrun1 & Hidx & _).
    destruct (loopIteration_quitting _ _ _ _ _ Hit) as [Hq _].
    rewrite Hit. cbn [mbind option_bind]. destruct continue.
    + destruct (IH later gb1 Hrun1 ltac:(congruence))
        as (gb' & out' & -> & Hq' & Hidx' & before & ->).
      cbn [mbind option_bind]. eexists _, _. split; [reflexivity|].
      split; [done|]. split; [congruence|].
      exists (out ++ before). by rewrite Hidx, app_assoc.
    + eexists _, _. split; [reflexivity|]. split; [congruence|]. split; [done|].
      exists out. by rewrite Hidx.
Qed.

(** The loop of [handleGuessEvent] that closes the gap of a solved slot, on
    a column whose settled part starts at [tos >= 1]: the pieces from
    [tos] to [m], above the hole at [m + 1], each move down one slot. *)
Lemma shiftDown_stack fp (tos : nat) : forall m t,
  length t = Z.to_nat NumSlots -> (1 <= tos)%nat -> (tos <= S m)%nat ->
  (S m < 16)%nat ->
  t !! S m = Some None ->
  (forall i, (tos <= i <= m)%nat ->
             Z.of_nat i <> fp /\ exists q, t !! i = Some (Some q)) ->
  t !! (tos - 1)%nat = Some None ->
  exists t',
    shiftDown m fp t = Some t' /\ length t' = Z.to_nat NumSlots /\
    forall i, t' !! i =
      if decide (tos < i <= S m)%nat then t !! (i - 1)%nat
      else if decide (i = tos) then Some None else t !! i.
Proof.
  induction m as [|m IH]; intros t Hlen Htos Hm Hroom Hhole Hocc Hfree.
  { exists t. split; [done|]. split; [done|]. intros i.
    destruct (decide (tos < i <= 1)%nat); [lia|].
    destruct (decide (i = tos)) as [->|]; [|done].
    by replace tos with 1%nat by lia. }
  cbn [shiftDown].
  assert (slotAt t (Z.of_nat (S m)) = t !! S m) as Hat.
  { unfold slotAt. destruct (decide _) as [|Hout]; [by rewrite Nat2Z.id|].
    unfold NumSlots in Hout. lia. }
  destruct (decide (tos <= S m)%nat) as [Hin|Hout].
  - destruct (Hocc (S m) ltac:(lia)) as (Hnf & q & Hq).
    rewrite Hat, Hq. cbn [mbind option_bind].
    rewrite bool_decide_eq_true_2 by done.
    rewrite bool_decide_eq_true_2 by done. cbn [andb].
    destruct (swapSlots_insert t (Z.of_nat (S m)) (Z.of_nat (S m) + 1) Hlen)
      as (a & b & Ha & Hb & ->); [unfold NumSlots; lia..|].
    rewrite Nat2Z.id in Ha.
    replace (Z.to_nat (Z.of_nat (S m) + 1)) with (S (S m)) in * by lia.
    rewrite Nat2Z.id. rewrite Hq in Ha. injection Ha as <-.
    rewrite Hhole in Hb. injection Hb as <-.
    cbn [mbind option_bind].
    set (t1 := <[S (S m) := Some q]> (<[S m := None]> t)).
    destruct (IH t1) as (t' & Hshift & Hlen' & Hres).
    + unfold t1. by rewrite !length_insert.
    + done.
    + lia.
    + lia.
    + unfold t1. rewrite list_lookup_insert_ne by lia.
      apply list_lookup_insert_eq. unfold NumSlots in Hlen. lia.
    + intros i Hi. unfold t1. rewrite !list_lookup_insert_ne by lia.
      apply Hocc. lia.
    + unfold t1. rewrite !list_lookup_insert_ne by lia. done.
    + exists t'. split; [done|]. split; [done|]. intros i. rewrite Hres.
      unfold t1. unfold NumSlots in Hlen.
      destruct (decide (tos < i <= S m)%nat).
      * destruct (decide (tos < i <= S (S m))%nat); [|lia].
        by rewrite !list_lookup_insert_ne by lia.
      * destruct (decide (i = tos)) as [->|].
        { destruct (decide (tos < tos <= S (S m))%nat); [lia|done]. }
        destruct (decide (i = S (S m))) as [->|].
        { destruct (decide (tos < S (S m) <= S (S m))%nat); [|lia].
          rewrite list_lookup_insert_eq by (rewrite length_insert; lia).
          by replace (S (S m) - 1)%nat with (S m) by lia. }
        destruct (decide (tos < i <= S (S m))%nat); [lia|].
        rewrite list_lookup_insert_ne by lia.
        rewrite list_lookup_insert_ne by lia. done.
  - assert (tos = S (S m)) as -> by lia.
    replace (S (S m) - 1)%nat with (S m) in Hfree by lia.
    rewrite Hat, Hfree. cbn [mbind option_bind].
    rewrite bool_decide_eq_false_2 by (by intros []). cbn [andb].
    exists t. split; [done|]. split; [done|]. intros i.
    destruct (decide (S (S m) < i <= S (S m))%nat); [lia|].
    destruct (decide (i = S (S m))) as [->|]; done.
Qed.

Lemma checkWon_fallerPos gb : fallerPos (checkWon gb) = fallerPos gb.
Proof. unfold checkWon. by repeat case_match. Qed.

(** X27: a guess keeps the stack contiguous unless the column is full.  On
    a board where a piece in flight has room under it and [topOfStack] is
    not 0, if every slot below a settled piece is settled or is the faller,
    the same holds after [handleGuessEvent], whatever the guess did: nothing,
    one answer struck, the faller dropped onto the stack, the faller solved,
    or a settled piece solved and the pieces above it moved down. *)
Theorem guess_keeps_the_stack_contiguous gb g gb' changed evs :
  fallerAloft gb -> stackContiguous gb -> topOfStack gb <> 0 ->
  handleGuessEvent gb g = Some (gb', changed, evs) ->
  stackContiguous gb'.
Proof.
  intros Hal Hc Htos Hguess. pose proof Hal as (Hlen & Hfp & Hfly).
  pose proof (topOfStack_range gb Hlen) as Hr.
  set (g' := ToLower (TrimSpace g)) in *.
  assert (fallerPos gb + 1 < topOfStack gb) as Habove.
  { destruct (decide (0 <= fallerPos gb)) as [Hge|]; [|lia].
    destruct (Hfly Hge) as (_ & _ & Hroom & Hempty).
    apply (topOfStack_above gb (fallerPos gb + 1)); [lia|done]. }
  assert (forall j, topOfStack gb <= j < NumSlots ->
            exists q, slotAt (Slots gb) j = Some (Some q)) as Hsolid.
  { intros j Hj. destruct (stackContiguous_solid gb j Hlen Hc Hj); [lia|done]. }
  assert (forall i q, slotAt (Slots gb) i = Some (Some q) -> i <> fallerPos gb ->
            topOfStack gb <= i < NumSlots) as Hsettled.
  { intros i q Hq Hne. pose proof Hq as [Hi _]%slotAt_lookup.
    split; [|lia]. destruct (decide (i < topOfStack gb)); [|lia].
    rewrite (topOfStack_below gb i Hlen) in Hq by lia. done. }
  destruct (hit_or_miss g' (Slots gb)) as [Hmiss|(k & q & Hhit)].
  - (* no slot holds the guess *)
    rewrite (handleGuessEvent_miss gb g Hmiss) in Hguess. fold g' in Hguess.
    destruct (punishable g' (fallerPos gb) 0 (Slots gb)) eqn:Hp;
      [|by injection Hguess as <- _ _].
    apply punishable_inv in Hp as (Hrange & _).
    destruct (punishment_aloft gb Hal) as (slots2 & _ & Hswap & Hlen2 & Hpun).
    { unfold NumSlots in *. lia. }
    rewrite Hpun in Hguess. injection Hguess as <- _ _.
    apply swapSlots_Some in Hswap as (a & b & _ & _ & Ha & Hb & ->).
    assert (b = None) as ->.
    { pose proof (topOfStack_below gb (topOfStack gb - 1) Hlen ltac:(lia)
                    ltac:(lia)) as [_ Hn]%slotAt_lookup. congruence. }
    intros i j Hi Hij Hj _ [qi Hqi]. right. cbn in *.
    apply slotAt_lookup in Hqi as [_ Hqi].
    assert (topOfStack gb - 1 <= i) as Hlow.
    { destruct (decide (i = topOfStack gb - 1)); [lia|].
      rewrite list_lookup_insert_ne in Hqi by lia.
      destruct (decide (i = fallerPos gb)) as [->|].
      - rewrite list_lookup_insert_eq in Hqi; [done|]. unfold NumSlots in *. lia.
      - rewrite list_lookup_insert_ne in Hqi by lia.
        assert (topOfStack gb <= i < NumSlots); [|lia].
        apply (Hsettled i qi); [|done]. apply slotAt_lookup. by split; [lia|]. }
    destruct (Hsolid j ltac:(lia)) as [qj Hqj]. exists qj.
    apply slotAt_lookup. apply slotAt_lookup in Hqj as [? Hqj]. split; [done|].
    by rewrite !list_lookup_insert_ne by lia.
  - pose proof Hhit as (Hk & _ & _).
    pose proof (lookup_lt_Some _ _ _ Hk) as Hklt.
    assert (slotAt (Slots gb) (Z.of_nat k) = Some (Some q)) as Hkq.
    { apply slotAt_lookup. rewrite Nat2Z.id. split; [lia|done]. }
    destruct (decide (AnswerMap q = {[ g' ]})) as [Hall|Hmore].
    + (* the question of slot [k] is fully solved *)
      destruct (handleGuessEvent_full gb g k q Hlen Hhit Hall) as [Hfaller Hstack].
      destruct (decide (fallerPos gb = Z.of_nat k)) as [Hfk|Hnk].
      * rewrite (Hfaller Hfk) in Hguess. injection Hguess as <- _ _.
        intros i j Hi Hij Hj _ [qi Hqi]. right. cbn in *.
        apply slotAt_lookup in Hqi as [_ Hqi].
        destruct (decide (Z.to_nat i = k)) as [<-|Hne].
        { rewrite list_lookup_insert_eq in Hqi; [done|]. unfold NumSlots in *. lia. }
        rewrite list_lookup_insert_ne in Hqi by done.
        assert (topOfStack gb <= i < NumSlots) as Hti.
        { apply (Hsettled i qi); [|lia]. apply slotAt_lookup. by split; [lia|]. }
        destruct (Hsolid j ltac:(lia)) as [qj Hqj]. exists qj.
        apply slotAt_lookup. apply slotAt_lookup in Hqj as [? Hqj]. split; [done|].
        by rewrite list_lookup_insert_ne by lia.
      * destruct (Hstack Hnk) as (slots3 & Hshift & Hres).
        rewrite Hres in Hguess. injection Hguess as <- _ _.
        pose proof (Hsettled _ _ Hkq ltac:(lia)) as Htk.
        replace (Z.to_nat (Z.of_nat k - 1)) with (k - 1)%nat in Hshift by lia.
        destruct (shiftDown_stack (fallerPos gb) (Z.to_nat (topOfStack gb)) (k - 1)
                    (<[k := None]> (Slots gb))) as (t' & Hshift' & _ & Hlook).
        { by rewrite length_insert. }
        { lia. }
        { lia. }
        { unfold NumSlots in *. lia. }
        { replace (S (k - 1)) with k by lia. apply list_lookup_insert_eq. lia. }
        { intros i Hi. split; [lia|].
          destruct (Hsolid (Z.of_nat i) ltac:(lia)) as [qi Hqi]. exists qi.
          apply slotAt_lookup in Hqi as [_ Hqi]. rewrite Nat2Z.id in Hqi.
          by rewrite list_lookup_insert_ne by lia. }
        { rewrite list_lookup_insert_ne by lia.
          pose proof (topOfStack_below gb (topOfStack gb - 1) Hlen ltac:(lia)
                        ltac:(lia)) as [_ Hn]%slotAt_lookup.
          by replace (Z.to_nat (topOfStack gb) - 1)%nat
            with (Z.to_nat (topOfStack gb - 1)) by lia. }
        rewrite Hshift in Hshift'. injection Hshift' as <-.
        replace (S (k - 1)) with k in Hlook by lia.
        intros i j Hi Hij Hj Hne [qi Hqi]. right.
        rewrite checkWon_Slots, checkWon_fallerPos in *. cbn in *.
        apply slotAt_lookup in Hqi as [_ Hqi]. rewrite Hlook in Hqi.
        assert (topOfStack gb < i) as Hti.
        { destruct (decide (Z.to_nat (topOfStack gb) < Z.to_nat i <= k)%nat);
            [lia|].
          destruct (decide (Z.to_nat i = Z.to_nat (topOfStack gb))); [done|].
          destruct (decide (Z.to_nat i = k)) as [<-|].
          { rewrite list_lookup_insert_eq in Hqi; [done|]. unfold NumSlots in *. lia. }
          rewrite list_lookup_insert_ne in Hqi by done.
          assert (topOfStack gb <= i < NumSlots); [|lia].
          apply (Hsettled i qi); [|done]. apply slotAt_lookup. by split; [lia|]. }
        assert (exists qj, slots3 !! Z.to_nat j = Some (Some qj)) as [qj Hqj].
        { rewrite Hlook.
          destruct (decide (Z.to_nat (topOfStack gb) < Z.to_nat j <= k)%nat).
          - destruct (Hsolid (j - 1) ltac:(lia)) as [qj Hqj]. exists qj.
            apply slotAt_lookup in Hqj as [_ Hqj].
            rewrite list_lookup_insert_ne by lia.
            by replace (Z.to_nat j - 1)%nat with (Z.to_nat (j - 1)) by lia.
          - destruct (decide (Z.to_nat j = Z.to_nat (topOfStack gb))); [lia|].
            destruct (Hsolid j ltac:(lia)) as [qj Hqj]. exists qj.
            apply slotAt_lookup in Hqj as [_ Hqj].
            by rewrite list_lookup_insert_ne by lia. }
        exists qj. apply slotAt_lookup. split; [lia|done].
    + (* one answer is struck, the question stays *)
      rewrite (handleGuessEvent_partial gb g k q Hhit Hmore) in Hguess.
      injection Hguess as <- _ _.
      assert (forall i, (exists r, slotAt (<[k := Some (strike g' q)]> (Slots gb)) i
                                   = Some (Some r)) <->
                        (exists r, slotAt (Slots gb) i = Some (Some r))) as Hsame.
      { intros i. unfold slotAt. destruct (decide (0 <= i < NumSlots)); [|done].
        destruct (decide (Z.to_nat i = k)) as [<-|Hne].
        - rewrite list_lookup_insert_eq by lia. rewrite Hk. split; eauto.
        - by rewrite list_lookup_insert_ne by done. }
      intros i j Hi Hij Hj Hne Hocc.
      destruct (Hc i j Hi Hij Hj Hne (proj1 (Hsame i) Hocc)) as [?|?];
        [by left|right; by apply Hsame].
Qed.

Lemma insert_Permutation {A} : forall (l : list A) j b x,
  l !! j = Some b -> b :: <[j := x]> l ≡ₚ x :: l.
Proof.
  induction l as [|y l IH]; intros [|j] b x Hb; try done.
  - cbn in Hb. injection Hb as ->. cbn. apply perm_swap.
  - cbn in Hb. cbn [insert list_insert].
    change (list_insert j x l) with (<[j := x]> l).
    rewrite perm_swap, (IH j b x Hb). apply perm_swap.
Qed.

Lemma swap_Permutation {A} : forall (l : list A) i j a b,
  l !! i = Some a -> l !! j = Some b -> <[j := a]> (<[i := b]> l) ≡ₚ l.
Proof.
  induction l as [|y l IH]; intros [|i] [|j] a b Ha Hb; try done; cbn in Ha, Hb.
  - by simplify_eq.
  - injection Ha as ->. cbn [insert list_insert].
    change (list_insert j a l) with (<[j := a]> l).
    by apply insert_Permutation.
  - injection Hb as ->. cbn [insert list_insert].
    change (list_insert i b l) with (<[i := b]> l).
    by apply insert_Permutation.
  - cbn [insert list_insert].
    change (list_insert j a (list_insert i b l)) with (<[j := a]> (<[i := b]> l)).
    by rewrite (IH i j a b).
Qed.

Lemma swapSlots_Permutation i j slots slots' :
  swapSlots i j slots = Some slots' -> slots' ≡ₚ slots.
Proof.
  intros (a & b & _ & _ & Ha & Hb & ->)%swapSlots_Some.
  by apply swap_Permutation.
Qed.

Lemma shiftDown_Permutation fp : forall n slots slots',
  shiftDown n fp slots = Some slots' -> slots' ≡ₚ slots.
Proof.
  induction n as [|n IH]; intros slots slots'; cbn [shiftDown].
  { by intros [= <-]. }
  destruct (slotAt slots _) as [cur|]; [|done]. cbn [mbind option_bind].
  destruct (_ && _); [|by intros [= <-]].
  destruct (swapSlots _ _ slots) as [slots1|] eqn:Hswap; [|done].
  cbn [mbind option_bind]. intros Hshift%IH.
  by rewrite Hshift, (swapSlots_Permutation _ _ _ _ Hswap).
Qed.

Lemma omap_id_cons (s : option Question) l :
  omap id (s :: l) = match s with Some q => q :: omap id l | None => omap id l end.
Proof. by destruct s. Qed.

Lemma omap_id_strike : forall (l : list (option Question)) k q r,
  l !! k = Some (Some q) -> ident r = ident q ->
  ident <$> omap id (<[k := Some r]> l) = ident <$> omap id l.
Proof.
  induction l as [|s l IH]; intros [|k] q r Hk Hr; try done.
  - cbn in Hk. injection Hk as ->.
    change (<[0%nat := Some r]> (Some q :: l)) with (Some r :: l).
    rewrite !omap_id_cons, !fmap_cons. by rewrite Hr.
  - cbn in Hk.
    change (<[S k := Some r]> (s :: l)) with (s :: <[k := Some r]> l).
    rewrite !omap_id_cons. destruct s as [s|];
      rewrite ?fmap_cons; by rewrite (IH k q r Hk Hr).
Qed.

Lemma omap_id_delete : forall (l : list (option Question)) k q,
  l !! k = Some (Some q) ->
  omap id l ≡ₚ q :: omap id (<[k := None]> l).
Proof.
  induction l as [|s l IH]; intros [|k] q Hk; try done.
  - cbn in Hk. by injection Hk as ->.
  - cbn in Hk.
    change (<[S k := None]> (s :: l)) with (s :: <[k := None]> l).
    rewrite !omap_id_cons. destruct s as [s|].
    + rewrite (IH k q Hk). apply perm_swap.
    + by apply IH.
Qed.

(** X28: a guess takes a question off the board only by solving it.  After
    [handleGuessEvent] on a board of 16 slots, the questions held in the
    slots and the two queues, told apart by alphagram, words and owner, are
    those held before, unless the call records [FullySolveQuestion]: then
    exactly one question is gone, one whose last answer was the guess, and
    it was sent to the opponent, with all its answers again, exactly if the
    board owns it.  Otherwise nothing is sent. *)
Theorem guess_removes_only_the_solved_question gb g gb' changed evs :
  length (Slots gb) = Z.to_nat NumSlots ->
  handleGuessEvent gb g = Some (gb', changed, evs) ->
  if recorded FullySolveQuestion evs then
    exists q,
      Some q ∈ Slots gb /\ AnswerMap q = {[ ToLower (TrimSpace g) ]} /\
      ident <$> held gb ≡ₚ ident q :: (ident <$> held gb') /\
      sentToOpp evs = (if decide (Whose q = Idx gb) then [populateMap q] else [])
  else ident <$> held gb' ≡ₚ ident <$> held gb /\ sentToOpp evs = [].
Proof.
  intros Hlen Hguess. set (g' := ToLower (TrimSpace g)) in *.
  destruct (hit_or_miss g' (Slots gb)) as [Hmiss|(k & q & Hhit)].
  - rewrite (handleGuessEvent_miss gb g Hmiss) in Hguess. fold g' in Hguess.
    destruct (punishable g' (fallerPos gb) 0 (Slots gb));
      [|by injection Hguess as <- _ <-].
    unfold punishment in Hguess.
    destruct (Timer gb); [|done]. cbn [mbind option_bind] in Hguess.
    destruct (decide (topOfStack gb = 0)); [by injection Hguess as <- _ <-|].
    destruct (swapSlots _ _ _) as [slots2|] eqn:Hswap; [|done].
    injection Hguess as <- _ <-. change (recorded _ _) with false. cbv iota.
    split; [|done]. unfold held. cbn.
    by rewrite (swapSlots_Permutation _ _ _ _ Hswap).
  - pose proof Hhit as (Hk & _ & _).
    destruct (decide (AnswerMap q = {[ g' ]})) as [Hall|Hmore].
    + destruct (handleGuessEvent_full gb g k q Hlen Hhit Hall) as [Hfaller Hstack].
      assert (forall rest, recorded FullySolveQuestion
                (attackSent gb q ++
                 Changed (stateChange1 FullySolveQuestion (Z.of_nat k)) :: rest)
              = true) as Hrec.
      { intros rest. unfold attackSent. by destruct (decide _). }
      assert (forall rest,
                (forall e, e ∈ rest -> match e with SendToOpp _ => False | _ => True end) ->
                sentToOpp (attackSent gb q ++ rest)
                = (if decide (Whose q = Idx gb) then [populateMap q] else []))
        as Hsent.
      { intros rest Hrest. unfold attackSent, sentToOpp.
        assert (omap (fun e => match e with SendToOpp q0 => Some q0 | _ => None end)
                     rest = []) as Hnone.
        { clear -Hrest. induction rest as [|e rest IH]; [done|].
          cbn. pose proof (Hrest e ltac:(by left)) as He.
          destruct e; try done; apply IH; intros e' He'; apply Hrest; by right. }
        rewrite omap_app, Hnone. by destruct (decide _). }
      assert (Some q ∈ Slots gb) as Hin by (by eapply list_elem_of_lookup_2).
      destruct (decide (fallerPos gb = Z.of_nat k)) as [Hfk|Hnk].
      * rewrite (Hfaller Hfk) in Hguess. injection Hguess as <- _ <-.
        rewrite Hrec. exists q. split; [done|]. split; [done|]. split.
        -- unfold held. cbn. rewrite !fmap_app, (omap_id_delete _ k q Hk).
           by rewrite fmap_cons.
        -- apply Hsent. intros e He.
           repeat (apply elem_of_cons in He as [->|He]; [done|]).
           by apply elem_of_nil in He.
      * destruct (Hstack Hnk) as (slots3 & Hshift & Hres).
        rewrite Hres in Hguess. injection Hguess as <- _ <-.
        rewrite Hrec. exists q. split; [done|]. split; [done|]. split.
        -- unfold held. rewrite checkWon_Slots.
           assert (Queue (checkWon (set_Slots slots3 (solvedBoard gb k))) = Queue gb)
             as -> by (unfold checkWon; by repeat case_match).
           assert (OppQueue (checkWon (set_Slots slots3 (solvedBoard gb k)))
                   = OppQueue gb)
             as -> by (unfold checkWon; by repeat case_match).
           cbn. rewrite (shiftDown_Permutation _ _ _ _ Hshift).
           rewrite !fmap_app, (omap_id_delete _ k q Hk). by rewrite fmap_cons.
        -- apply Hsent. intros e He.
           repeat (apply elem_of_cons in He as [->|He]; [done|]).
           by apply elem_of_nil in He.
    + rewrite (handleGuessEvent_partial gb g k q Hhit Hmore) in Hguess.
      injection Hguess as <- _ <-. change (recorded _ _) with false. cbv iota.
      split; [|done].
      unfold held. cbn [Slots Queue OppQueue set_Slots]. rewrite !fmap_app.
      fold g'. by rewrite (omap_id_strike _ k q (strike g' q) Hk).
Qed.

(** The loop that closes the gap of a solved slot touches no slot below
    the hole. *)
Lemma shiftDown_beyond fp : forall n slots slots',
  shiftDown n fp slots = Some slots' ->
  forall j, (S n < j)%nat -> slots' !! j = slots !! j.
Proof.
  induction n as [|n IH]; intros slots slots'; cbn [shiftDown].
  { by intros [= <-]. }
  destruct (slotAt slots _) as [cur|]; [|done]. cbn [mbind option_bind].
  destruct (_ && _); [|by intros [= <-]].
  destruct (swapSlots _ _ slots) as [slots1|] eqn:Hswap; [|done].
  cbn [mbind option_bind]. intros Hshift j Hj.
  rewrite (IH _ _ Hshift j) by lia.
  apply swapSlots_Some in Hswap as (a & b & _ & _ & _ & _ & ->).
  by rewrite !list_lookup_insert_ne by lia.
Qed.

(** C5, as amended: when the normalised guess is an answer left in some
    occupied slot, and [k] is the lowest such slot, the walk over the slots
    strikes the guess from the answers of the question of slot [k] and
    leaves every other slot as it was; the call returns [true].  If answers
    remain in that question, the board changes in nothing else.  If the
    guess was its last answer, slot [k] is cleared and the other questions
    stay on the board, each unchanged: the slots afterwards are a
    rearrangement of the slots before with slot [k] emptied, the slots
    below [k] are where they were, and no slot moves at all when the solved
    piece was the faller.  When it was a settled piece of a contiguous
    stack that does not reach slot 0, the pieces that rested on it are each
    one slot lower, the slot where the stack began is empty, and every
    other slot is as before. *)
Theorem guess_strikes_lowest_slot_only gb g k q :
  let g' := ToLower (TrimSpace g) in
  let walked := fst (guessLoop g' (fallerPos gb) 0 (Slots gb) guessVars0) in
  length (Slots gb) = Z.to_nat NumSlots ->
  lowestHit g' (Slots gb) k q ->
  (walked !! k = Some (Some (strike g' q)) /\
   AnswerMap (strike g' q) = AnswerMap q ∖ {[ g' ]} /\
   forall j, j <> k -> walked !! j = Slots gb !! j) /\
  exists gb' evs,
    handleGuessEvent gb g = Some (gb', true, evs) /\
    (AnswerMap q <> {[ g' ]} -> gb' = set_Slots walked gb /\ evs = []) /\
    (AnswerMap q = {[ g' ]} ->
     Slots gb' ≡ₚ <[k := None]> (Slots gb) /\
     (forall j, (k < j)%nat -> Slots gb' !! j = Slots gb !! j) /\
     (fallerPos gb = Z.of_nat k -> Slots gb' = <[k := None]> (Slots gb)) /\
     (fallerPos gb <> Z.of_nat k ->
      fallerAloft gb -> stackContiguous gb -> topOfStack gb <> 0 ->
      let tos := Z.to_nat (topOfStack gb) in
      forall j, Slots gb' !! j =
        if decide (tos < j <= k)%nat then Slots gb !! (j - 1)%nat
        else if decide (j = tos) then Some None else Slots gb !! j)) /\
    (forall j r, Slots gb' !! j = Some (Some r) ->
       r = strike g' q \/ exists i, i <> k /\ Slots gb !! i = Some (Some r)).
Proof.
  intros g' walked Hlen Hhit.
  pose proof (lowestHit_range _ _ _ _ Hhit) as Hk.
  pose proof Hhit as (Hkq & _ & _).
  assert (walked = <[k := Some (strike g' q)]> (Slots gb)) as Hwalked.
  { unfold walked.
    by rewrite (guessLoop_hit g' (fallerPos gb) (Slots gb) 0 guessVars0 k q Hhit). }
  split.
  { rewrite Hwalked. split_and!.
    - by apply list_lookup_insert_eq.
    - reflexivity.
    - intros j Hj. by apply list_lookup_insert_ne. }
  assert (forall (slots' : list (option Question)) j r,
            slots' ≡ₚ <[k := None]> (Slots gb) ->
            slots' !! j = Some (Some r) ->
            exists i, i <> k /\ Slots gb !! i = Some (Some r)) as Hothers.
  { intros slots' j r Hperm Hj.
    assert (Some r ∈ <[k := None]> (Slots gb)) as Hin.
    { rewrite <- Hperm. apply list_elem_of_lookup. eauto. }
    apply list_elem_of_lookup in Hin as [i Hi].
    apply list_lookup_insert_Some in Hi as [(_ & ? & _)|[? ?]]; [done|].
    by exists i. }
  destruct (decide (AnswerMap q = {[ g' ]})) as [Hall|Hmore].
  - destruct (handleGuessEvent_full gb g k q Hlen Hhit Hall) as [Hfaller Hstack].
    destruct (decide (fallerPos gb = Z.of_nat k)) as [Hfp|Hfp].
    + eexists _, _. split; [exact (Hfaller Hfp)|]. split; [done|].
      cbn [Slots set_Timer set_status set_fallerPos solvedBoard
           set_LastStateChange set_Solved set_Slots].
      split.
      * intros _. split; [done|]. split; [|by split].
        intros j Hj. by rewrite list_lookup_insert_ne by lia.
      * intros j r Hj. right. by eapply (Hothers _ j r).
    + destruct (Hstack Hfp) as (slots3 & Hshift & Hres).
      eexists _, _. split; [exact Hres|]. split; [done|].
      rewrite checkWon_Slots. cbn [Slots set_Slots].
      pose proof (shiftDown_Permutation _ _ _ _ Hshift) as Hperm.
      split.
      * intros _. split; [done|]. split; [|split; [done|]].
        { intros j Hj.
          destruct (decide (k = 0)%nat) as [->|Hpos].
          - cbn in Hshift. injection Hshift as <-.
            by rewrite list_lookup_insert_ne by lia.
          - rewrite (shiftDown_beyond _ _ _ _ Hshift j) by lia.
            by rewrite list_lookup_insert_ne by lia. }
        intros _ Hal Hc Htos. set (tos := Z.to_nat (topOfStack gb)). intros j.
        pose proof Hal as (_ & _ & Hfly).
        pose proof (topOfStack_range gb Hlen) as Hr.
        assert (fallerPos gb + 1 < topOfStack gb) as Habove.
        { destruct (decide (0 <= fallerPos gb)) as [Hge|]; [|lia].
          destruct (Hfly Hge) as (_ & _ & Hroom & Hempty).
          apply (topOfStack_above gb (fallerPos gb + 1)); [lia|done]. }
        assert (topOfStack gb <= Z.of_nat k) as Htk.
        { destruct (decide (Z.of_nat k < topOfStack gb)); [|lia].
          pose proof (topOfStack_below gb (Z.of_nat k) Hlen ltac:(lia) ltac:(lia))
            as [_ Hn]%slotAt_lookup.
          rewrite Nat2Z.id in Hn. congruence. }
        replace (Z.to_nat (Z.of_nat k - 1)) with (k - 1)%nat in Hshift by lia.
        destruct (shiftDown_stack (fallerPos gb) tos (k - 1)
                    (<[k := None]> (Slots gb))) as (t' & Hshift' & _ & Hlook).
        { by rewrite length_insert. }
        { unfold tos. lia. }
        { unfold tos. lia. }
        { unfold NumSlots in *. lia. }
        { replace (S (k - 1)) with k by (unfold tos in *; lia).
          apply list_lookup_insert_eq. lia. }
        { intros i Hi. unfold tos in Hi. split; [lia|].
          destruct (stackContiguous_solid gb (Z.of_nat i) Hlen Hc) as [?|[qi Hqi]];
            [unfold NumSlots in *; lia|lia|].
          exists qi. apply slotAt_lookup in Hqi as [_ Hqi]. rewrite Nat2Z.id in Hqi.
          by rewrite list_lookup_insert_ne by lia. }
        { unfold tos. rewrite list_lookup_insert_ne by lia.
          pose proof (topOfStack_below gb (topOfStack gb - 1) Hlen ltac:(lia)
                        ltac:(lia)) as [_ Hn]%slotAt_lookup.
          by replace (Z.to_nat (topOfStack gb) - 1)%nat
            with (Z.to_nat (topOfStack gb - 1)) by lia. }
        rewrite Hshift in Hshift'. injection Hshift' as <-.
        replace (S (k - 1)) with k in Hlook by (unfold tos in *; lia).
        rewrite Hlook.
        destruct (decide (tos < j <= k)%nat).
        { by rewrite list_lookup_insert_ne by lia. }
        destruct (decide (j = tos)); [done|].
        apply list_lookup_insert_ne. unfold tos in *. lia.
      * intros j r Hj. right. by eapply (Hothers _ j r).
  - eexists _, _. split; [exact (handleGuessEvent_partial gb g k q Hhit Hmore)|].
    split; [by rewrite Hwalked|]. split; [done|]. simpl. intros j r Hj.
    apply list_lookup_insert_Some in Hj as [(_ & [= <-] & _)|[? ?]];
      [by left | right; by exists j].
Qed.

(** * The engine on a concrete match *)

(** C1 (the code departs from it): the first player lets sixteen pieces
    pile up, so that the last one lands in slot 0 and every slot is
    occupied, and then solves the piece of slot 6.  The loop of
    [handleGuessEvent] stops above slot 0: the piece of slot 0 stays, slot 1
    is empty, and the stack is no longer contiguous.  The board is not dead
    before the next tick, which then declares it lost. *)
Theorem solving_under_a_full_column_leaves_a_gap :
  (exists gs outs,
     start id (SearchReturns pool) match0 = Some (gs, None, outs) /\
     Boards gs !! 0%nat = Some board0) /\
  (exists full,
     after (replicate 135 MainTimer) = Some (full, false) /\
     fallerPos full = -1 /\ Forall (fun s => s <> None) (Slots full)) /\
  (exists gb,
     after (replicate 135 MainTimer ++ [GuessEvent "dk"]) = Some (gb, false) /\
     fallerPos gb = -1 /\ Dead gb = false /\
     (exists q, slotAt (Slots gb) 0 = Some (Some q)) /\
     slotAt (Slots gb) 1 = Some None /\
     ~ stackContiguous gb) /\
  (exists lost,
     after (replicate 135 MainTimer ++ [GuessEvent "dk"; MainTimer])
       = Some (lost, true) /\
     Dead lost = true).
Proof.
  split_and!.
  - eexists _, _. split; vm_compute; reflexivity.
  - eexists. split; [vm_compute; reflexivity|].
    split; [vm_compute; reflexivity|].
    apply (bool_decide_unpack _). vm_compute. exact I.
  - eexists. split; [vm_compute; reflexivity|].
    assert (forall gb, fallerPos gb = -1 ->
              (exists q, slotAt (Slots gb) 0 = Some (Some q)) ->
              slotAt (Slots gb) 1 = Some None -> ~ stackContiguous gb) as Hgap.
    { intros gb Hfp Htop Hhole Hc.
      destruct (Hc 0 1 ltac:(lia) ltac:(lia) ltac:(unfold NumSlots; lia)
                  ltac:(lia) Htop) as [Heq|[q Hq]]; [lia|congruence]. }
    match goal with |- _ /\ _ /\ ?T /\ ?H /\ _ =>
      assert T as Htop by (eexists; vm_compute; reflexivity);
      assert H as Hhole by (vm_compute; reflexivity)
    end.
    split; [vm_compute; reflexivity|]. split; [vm_compute; reflexivity|].
    split; [exact Htop|]. split; [exact Hhole|].
    apply Hgap; [vm_compute; reflexivity|exact Htop|exact Hhole].
  - eexists. split; vm_compute; reflexivity.
Qed.

(** C2 (the code departs from it): when the column is full and one attack
    is ready, the tick that drains the attack queue rotates the piece of
    slot 0 to the bottom and overwrites it with the attack.  That question
    was never solved and is afterwards in no slot and in neither queue of
    the board, nothing was sent to the opponent, and the board is not dead:
    the loop goes on. *)
Theorem attack_on_full_column_discards_top_question :
  exists before top gb evs,
    loop attackOnFullColumn board0 = Some (before, evs, false) /\
    slotAt (Slots before) 0 = Some (Some top) /\
    Forall (fun s => s <> None) (Slots before) /\
    OppQueue before = [attackET] /\ oppqueueReady before = true /\
    after (attackOnFullColumn ++ [MainTimer]) = Some (gb, false) /\
    ~ heldBy gb top /\
    Solved gb = Solved before /\ Solved gb = 0 /\
    Dead gb = false /\ Won gb = false /\
    slotAt (Slots gb) (NumSlots - 1) = Some (Some attackET).
Proof.
  eexists _, _, _, _.
  split; [vm_compute; reflexivity|].
  split; [vm_compute; reflexivity|].
  split; [apply (bool_decide_unpack _); vm_compute; exact I|].
  split; [vm_compute; reflexivity|].
  split; [vm_compute; reflexivity|].
  split; [vm_compute; reflexivity|].
  split; [apply (bool_decide_unpack _); vm_compute; exact I|].
  repeat split; vm_compute; reflexivity.
Qed.

(** C6 (the code departs from it): the first player solves each of the 25
    pieces of the queue while it falls.  After the last guess the queue is
    empty and every slot is empty, yet [Won] is not set, because the branch
    for a solved faller returns before the check; later ticks only idle in
    [PlayerQueueEmpty] and the loop is never left. *)
Theorem solving_the_last_piece_in_flight_does_not_win :
  (exists gb,
     after (take 49 solveInFlight) = Some (gb, false) /\
     Queue gb = [] /\ allSlotsEmpty (Slots gb) = true /\
     Solved gb = 25 /\ Won gb = false /\ Dead gb = false) /\
  (exists gb,
     after (solveInFlight ++ replicate 20 MainTimer) = Some (gb, false) /\
     Queue gb = [] /\ allSlotsEmpty (Slots gb) = true /\
     status gb = PlayerQueueEmpty /\ Won gb = false).
Proof.
  split; eexists; (split; [vm_compute; reflexivity|]);
    repeat split; vm_compute; reflexivity.
Qed.

Lemma wrong_guess_without_faller_is_ignored_witness :
  fallerPos settled = -1 /\
  wrongFor (ToLower (TrimSpace " SE ")) pieceES = true /\
  slotAt (Slots settled) 15 = Some (Some pieceES) /\
  handleGuessEvent settled " SE " = Some (settled, false, []).
Proof.
  split; [crunch|]. split; [crunch|]. split; [crunch|].
  apply wrong_guess_without_faller_is_ignored; crunch.
Defined.

Lemma wrong_anagram_of_faller_is_punished_witness :
  exists below,
    slotAt (Slots board0) (topOfStack board0 - 1) = Some below /\
    handleGuessEvent board0 "se" =
      Some (set_Timer (Some (Z.quot TickDuration 4))
              (set_status PieceAboutToDrop
                 (set_fallerPos (-1)
                    (set_LastStateChange
                       (stateChange2 PieceLand (topOfStack board0 - 1)
                          (fallerPos board0))
                       (set_Slots
                          (<[Z.to_nat (topOfStack board0 - 1) := Some pieceES]>
                             (<[Z.to_nat (fallerPos board0) := below]>
                                (Slots board0))) board0)))),
            true,
            [TimerStop;
             Changed (stateChange2 PieceLand (topOfStack board0 - 1)
                        (fallerPos board0));
             TimerNew (Z.quot TickDuration 4)]).
Proof.
  refine (proj2 (wrong_anagram_of_faller_is_punished board0 "se" pieceES
                   _ _ _ _ _) _); crunch.
Defined.

Lemma solved_own_question_is_forwarded_fresh_witness :
  exists gb' evs sent,
    handleGuessEvent board0 "es" = Some (gb', true, evs) /\
    sentToOpp evs = [sent] /\
    Whose sent = Whose pieceES /\
    OrigQuestion sent = OrigQuestion pieceES /\
    (forall w, w ∈ AnswerMap sent <->
       exists answer, answer ∈ Words (OrigQuestion pieceES) /\
                      w = ToLower answer).
Proof.
  apply (solved_own_question_is_forwarded_fresh board0 "es" 0%nat pieceES);
    [crunch|split_and!; crunch|crunch|crunch].
Defined.

Lemma too_few_questions_ends_the_match_witness :
  let gs0 := set_exitedboards [false; false] match0 in
  Z.of_nat (length (take 49 pool)) - QuestionOffset match0 < TotalNumQuestions /\
  Loop id [TimerFires (SearchReturns (take 49 pool)); StateChangeNotified] match0 =
    Some (set_gsStatus PermanentlyOver gs0,
          [Snapshot (set_gsStatus PermanentlyOver gs0)], true).
Proof.
  split; [crunch|].
  refine (proj2 (proj2 (proj2
            (proj2 (too_few_questions_ends_the_match id (take 49 pool) match0) _)))
            _ _ [StateChangeNotified]); crunch.
Defined.

Lemma dealt_alphagram_is_sorted_not_lowercased_witness :
  exists idx alph,
    alph ∈ pool /\
    pieceES = dealtQuestion idx alph /\
    alphagram (OrigQuestion pieceES) = alphagrammize (alphagram alph) /\
    (isASCII (alphagram alph) = true -> noUpper (alphagram alph) = true ->
     alphagram (OrigQuestion pieceES) = alphagrammize (ToLower (alphagram alph))) /\
    (forall g, wrongFor g pieceES =
       bool_decide (alphagrammize g = ToLower (alphagrammize (alphagram alph)))) /\
    (isASCII (alphagram alph) = true -> uniformCase (alphagram alph) ->
     forall g, isASCII g = true ->
               (wrongFor g pieceES = true <->
                runes g ≡ₚ runes (ToLower (alphagram alph)))).
Proof.
  apply (dealt_alphagram_is_sorted_not_lowercased id pool match0 startedMatch
           [StateChangeSignal] ltac:(crunch) board0 pieceES).
  - crunch.
  - right. crunch.
Defined.

(** C9 as the specification states it fails on the concrete match: the
    provider's alphagram "ES" is stored as "ES" in the question that [start]
    puts on the first board, while its lower-cased sorted form is "es". *)
Lemma stored_alphagram_keeps_upper_case :
  start id (SearchReturns pool) match0
    = Some (startedMatch, None, [StateChangeSignal]) /\
  board0 ∈ Boards startedMatch /\
  onBoard board0 pieceES /\
  alphagram (poolEntry 48) = "ES" /\
  alphagram (OrigQuestion pieceES) = "ES" /\
  alphagrammize (ToLower (alphagram (poolEntry 48))) = "es" /\
  ToLower (alphagrammize (alphagram (poolEntry 48))) = "es" /\
  alphagram (OrigQuestion pieceES)
    <> alphagrammize (ToLower (alphagram (poolEntry 48))).
Proof.
  split_and!; crunch.
Qed.

Lemma landing_schedules_the_next_tick_witness :
  reachable board0 /\
  exists gb' evs,
    handleGuessEvent board0 "se" = Some (gb', true, evs) /\
    landedAt evs 15 /\
    fallerPos gb' = -1 /\ nextTick evs = Some (landingPause 15) /\
    Timer gb' = Some (landingPause 15).
Proof.
  assert (reachable board0) as Hreach.
  { eapply (reach_Tick
              (freshBoard 0
                 (map (fun i => dealtQuestion (Z.of_nat (2 * i)) (poolEntry (2 * i)))
                      (seq 0 25)))).
    - apply reach_fresh.
    - vm_compute. reflexivity. }
  split; [exact Hreach|].
  destruct (landing_schedules_the_next_tick board0 Hreach) as (_ & Hguess & _).
  eexists _, _. split; [vm_compute; reflexivity|].
  assert (forall evs, evs = [TimerStop; Changed (stateChange2 PieceLand 15 0);
                             TimerNew (Z.quot TickDuration 4)] ->
                      landedAt evs 15) as Hl.
  { intros evs ->. exists 0, "". apply elem_of_cons. right.
    apply elem_of_cons. by left. }
  split; [apply Hl; vm_compute; reflexivity|].
  eapply (Hguess "se"); [vm_compute; reflexivity|].
  apply Hl. vm_compute. reflexivity.
Defined.

(** With letters of both cases in the provider's string the comparison of
    [solveQuestion] never succeeds: "aB" is stored as "Ba", lower-cased to
    "ba", which no sorted guess equals. *)
Example mixed_case_alphagram_matches_no_guess :
  alphagram (OrigQuestion (dealtQuestion 0 (mkAlphagram "aB" ["ab"]))) = "Ba" /\
  wrongFor "ba" (dealtQuestion 0 (mkAlphagram "aB" ["ab"])) = false /\
  wrongFor "ab" (dealtQuestion 0 (mkAlphagram "aB" ["ab"])) = false.
Proof. split_and!; vm_compute; reflexivity. Qed.

(** * The further properties on the concrete match *)

Lemma stackContiguousb_sound gb :
  stackContiguousb gb = true -> stackContiguous gb.
Proof.
  unfold stackContiguousb. intros Hall i j Hi Hij Hj Hne [q Hq].
  rewrite forallb_forall in Hall.
  specialize (Hall i ltac:(apply list_elem_of_In, elem_of_seqZ; unfold NumSlots in *; lia)).
  rewrite forallb_forall in Hall.
  specialize (Hall j ltac:(apply list_elem_of_In, elem_of_seqZ; unfold NumSlots in *; lia)).
  rewrite Hq in Hall.
  rewrite !bool_decide_eq_true_2 in Hall by done. cbn in Hall.
  destruct (decide (j = fallerPos gb)) as [?|Hnj]; [by left|right].
  rewrite (bool_decide_eq_false_2 (j = fallerPos gb)) in Hall by done.
  rewrite bool_decide_eq_true_2 in Hall by done. cbn in Hall.
  destruct (slotAt (Slots gb) j) as [[q'|]|]; [by exists q'|done|done].
Qed.

Lemma board0_reachable : reachable board0.
Proof.
  eapply (reach_Tick
            (freshBoard 0
               (map (fun i => dealtQuestion (Z.of_nat (2 * i)) (poolEntry (2 * i)))
                    (seq 0 25)))).
  - apply reach_fresh.
  - vm_compute. reflexivity.
Qed.

Lemma after_reachable evs gb over :
  after evs = Some (gb, over) -> reachable gb.
Proof.
  unfold after, loop. intros Hafter.
  destruct (loopFrom evs (loopEnter board0)) as [[[gb1 out] over1]|] eqn:Hloop;
    [|done].
  cbn in Hafter. injection Hafter as <- _.
  eapply loopFrom_reachable; [|exact Hloop].
  apply reach_loopEnter, board0_reachable.
Qed.

Lemma settled_reachable : reachable settled.
Proof. apply (after_reachable (replicate 15 MainTimer) _ false). crunch. Qed.

Lemma attacked_reachable : reachable attacked.
Proof. apply reach_ready, reach_attack, settled_reachable. Qed.

Lemma topOfStack_is_the_highest_settled_slot_witness :
  length (Slots settled) = Z.to_nat NumSlots /\
  0 <= topOfStack settled <= NumSlots /\
  (forall i, 0 <= i < topOfStack settled -> i <> fallerPos settled ->
             slotAt (Slots settled) i = Some None) /\
  (topOfStack settled < NumSlots ->
   topOfStack settled <> fallerPos settled /\
   exists q, slotAt (Slots settled) (topOfStack settled) = Some (Some q)).
Proof.
  split; [crunch|]. apply topOfStack_is_the_highest_settled_slot. crunch.
Defined.

Lemma addOppQueue_lifts_the_column_witness :
  length (Slots attacked) = Z.to_nat NumSlots /\
  OppQueue attacked = [attackET] /\
  let n := length (OppQueue attacked) in
  let column := Slots attacked ++ (Some <$> OppQueue attacked) in
  exists gb',
    addOppQueue attacked = Some (gb', Z.of_nat n) /\
    Slots gb' = drop n column /\
    OppQueue gb' = [] /\
    Dead gb' = Dead attacked || existsb occupied (take (n - 1) (drop 1 column)) /\
    Queue gb' = Queue attacked /\ fallerPos gb' = fallerPos attacked /\
    Solved gb' = Solved attacked /\ Won gb' = Won attacked /\
    ((n <= 16)%nat -> Forall (fun s => s = None) (take n (Slots attacked)) ->
     Slots gb' = drop n (Slots attacked) ++ (Some <$> OppQueue attacked) /\
     Dead gb' = Dead attacked).
Proof.
  split; [crunch|]. split; [crunch|].
  apply addOppQueue_lifts_the_column. crunch.
Defined.

Lemma won_only_on_an_empty_board_witness :
  exists gb' changed evs,
    handleGuessEvent lastAtRest "ak" = Some (gb', changed, evs) /\
    Won lastAtRest = false /\ Won gb' = true /\
    Queue gb' = [] /\ allSlotsEmpty (Slots gb') = true /\ changed = true /\
    exists k, Changed (stateChange1 FullySolveQuestion k) ∈ evs.
Proof.
  eexists _, _, _. split; [vm_compute; reflexivity|].
  split; [crunch|]. split; [crunch|].
  eapply (won_only_on_an_empty_board lastAtRest "ak"); crunch.
Defined.

Lemma guess_never_kills_a_reachable_board_witness :
  reachable settled /\
  exists gb' changed evs,
    handleGuessEvent settled "es" = Some (gb', changed, evs) /\
    Dead gb' = Dead settled /\ Queue gb' = Queue settled /\
    OppQueue gb' = OppQueue settled /\
    oppqueueReady gb' = oppqueueReady settled /\ Idx gb' = Idx settled /\
    quitting gb' = quitting settled /\
    Solved gb' =
      Solved settled + (if recorded FullySolveQuestion evs then 1 else 0).
Proof.
  split; [exact settled_reachable|].
  apply guess_never_kills_a_reachable_board. exact settled_reachable.
Defined.

Lemma Tick_keeps_score_witness :
  exists gb' evs,
    Tick attacked = Some (gb', evs) /\
    (Won gb' = Won attacked /\ Solved gb' = Solved attacked /\
     Idx gb' = Idx attacked /\
     quitting gb' = quitting attacked /\
     OppQueueTimer gb' = OppQueueTimer attacked /\
     (Dead attacked = true -> Dead gb' = true) /\
     (Timer attacked <> None -> Timer gb' <> None)) /\
    sentToOpp evs = [] /\ TimerStop ∉ evs.
Proof.
  eexists _, _. split; [vm_compute; reflexivity|].
  apply Tick_keeps_score. crunch.
Defined.

Lemma released_piece_settles_on_the_stack_witness :
  last (Queue settled) = Some pieceEQ /\ topOfStack settled = 15 /\
  exists gb' evs,
    Ticks (Z.to_nat (topOfStack settled)) settled = Some (gb', evs) /\
    Slots gb' = <[Z.to_nat (topOfStack settled - 1) := Some pieceEQ]> (Slots settled) /\
    Queue gb' = take (length (Queue settled) - 1) (Queue settled) /\
    fallerPos gb' = -1 /\ status gb' = PieceAboutToDrop /\
    Dead gb' = Dead settled /\
    topOfStack gb' = topOfStack settled - 1 /\
    Timer gb' = Some (if decide (topOfStack settled = 1) then TickDuration
                      else Z.quot TickDuration 4).
Proof.
  split; [crunch|]. split; [crunch|].
  apply released_piece_settles_on_the_stack;
    [crunch|crunch|crunch|right; crunch|crunch].
Defined.

Lemma guess_is_read_without_case_and_padding_witness :
  let pre := [" "%char; "009"%char] in
  let post := ["010"%char; " "%char] in
  isASCII "Es" = true /\
  isASCII (of_runes (pre ++ runes "Es" ++ post)) = true /\
  handleGuessEvent board0 (of_runes (pre ++ runes "Es" ++ post))
    = handleGuessEvent board0 "Es" /\
  handleGuessEvent board0 (ToLower "Es") = handleGuessEvent board0 "Es" /\
  handleGuessEvent board0 (ToLower (TrimSpace "Es")) = handleGuessEvent board0 "Es".
Proof.
  split; [reflexivity|].
  apply guess_is_read_without_case_and_padding; reflexivity.
Defined.

Lemma alphagrammize_sorts_the_runes_witness :
  isASCII "SE" = true /\
  alphagrammize "SE" = "ES" /\
  isASCII (alphagrammize "SE") = true /\
  Sorted runeLe (runes (alphagrammize "SE")) /\
  runes (alphagrammize "SE") ≡ₚ runes "SE" /\
  length (runes (alphagrammize "SE")) = length (runes "SE") /\
  alphagrammize (alphagrammize "SE") = alphagrammize "SE".
Proof.
  split; [reflexivity|]. split; [reflexivity|].
  apply alphagrammize_sorts_the_runes. reflexivity.
Defined.

Lemma start_deals_both_boards_witness :
  let dealt := take (Z.to_nat TotalNumQuestions)
                    (drop (Z.to_nat (QuestionOffset match0)) (id pool)) in
  exists gs',
    start id (SearchReturns pool) match0 =
      Some (gs', None, [StateChangeSignal]) /\
    gsStatus gs' = Playing /\
    QuestionOffset gs' = QuestionOffset match0 + TotalNumQuestions /\
    Players gs' = Players match0 /\
    exitedboards gs' = replicate (length (Players match0)) false /\
    length (Boards gs') = length (Players match0) /\
    forall i, (i < 2)%nat ->
      exists gb q,
        Boards gs' !! i = Some gb /\ Idx gb = Z.of_nat i /\
        Queue gb ++ [q] = dealtTo (Z.of_nat i) 0 dealt /\
        length (Queue gb) = 24%nat /\
        Slots gb = <[0%nat := Some q]> (replicate (Z.to_nat NumSlots) None) /\
        fallerPos gb = 0 /\ status gb = PieceDropping /\
        Timer gb = Some TickDuration.
Proof.
  apply (start_deals_both_boards id pool match0 "ann" "bob" []);
    [reflexivity|crunch|crunch].
Defined.

Lemma start_panics_without_two_players_witness :
  start id (SearchReturns pool)
    (StartGameCountdown (NewGameStateManager "" ["ann"] "m")) = None.
Proof.
  apply start_panics_without_two_players;
    [apply (bool_decide_unpack _); vm_compute; exact I|crunch|crunch].
Defined.

Lemma Tick_keeps_the_stack_contiguous_witness :
  stackContiguous board0 /\
  exists gb' evs,
    Tick board0 = Some (gb', evs) /\ fallerPos gb' = 1 /\ stackContiguous gb'.
Proof.
  assert (stackContiguous board0) as Hc by (apply stackContiguousb_sound; crunch).
  split; [exact Hc|].
  eexists _, _. split; [vm_compute; reflexivity|]. split; [crunch|].
  eapply (Tick_keeps_the_stack_contiguous board0).
  - apply reachable_aloft, board0_reachable.
  - exact Hc.
  - vm_compute. reflexivity.
Defined.

Lemma Tick_conserves_the_questions_witness :
  attackET ∈ held attacked /\
  exists gb' evs,
    Tick attacked = Some (gb', evs) /\
    Slots gb' !! 15%nat = Some (Some attackET) /\
    held gb' ≡ₚ held attacked.
Proof.
  split; [crunch|].
  eexists _, _. split; [vm_compute; reflexivity|]. split; [crunch|].
  eapply (Tick_conserves_the_questions attacked).
  - apply reachable_aloft, attacked_reachable.
  - vm_compute. reflexivity.
  - intros _ _. split; crunch.
Defined.

Lemma seekOpen_consistent : sessionsConsistent seekOpen.
Proof.
  apply (Seek_consistent "ann" "twos" "{}" "g1" NewSessionManager seekOpen (inl 0%nat)).
  - apply sessionsConsistent_new.
  - reflexivity.
  - vm_compute. reflexivity.
Qed.

Lemma Guess_reaches_the_players_board_witness :
  length (Boards startedMatch) = length (Players startedMatch) /\
  Guess "bob" "et" stuckChans startedMatch = Blocks /\
  ("bob" ∈ Players startedMatch ->
   exists i,
     Players startedMatch !! i = Some "bob" /\
     (forall j, (j < i)%nat -> Players startedMatch !! j <> Some "bob") /\
     is_Some (Boards startedMatch !! i) /\
     ((length (waiting (stuckChans i)) < guessEventsCap)%nat ->
      Guess "bob" "et" stuckChans startedMatch =
        Returns (None, Some (i, mkGuessChan (waiting (stuckChans i) ++ ["et"])
                                  (served (stuckChans i))))) /\
     ((guessEventsCap <= length (waiting (stuckChans i)))%nat ->
      served (stuckChans i) = true ->
      Guess "bob" "et" stuckChans startedMatch =
        Returns (None, Some (i, mkGuessChan (drop 1 (waiting (stuckChans i)) ++ ["et"])
                                  true))) /\
     ((guessEventsCap <= length (waiting (stuckChans i)))%nat ->
      served (stuckChans i) = false ->
      Guess "bob" "et" stuckChans startedMatch = Blocks)) /\
  ("bob" ∉ Players startedMatch ->
   Guess "bob" "et" stuckChans startedMatch =
     Returns (Some "player is not in this game", None)) /\
  (forall guesses,
     sendAll guesses (mkGuessChan [] false) =
       if decide (length guesses <= guessEventsCap)%nat
       then Returns (mkGuessChan guesses false) else Blocks).
Proof.
  split; [crunch|]. split; [crunch|].
  apply Guess_reaches_the_players_board. crunch.
Defined.

Lemma Guess_before_the_first_start_panics_witness :
  "bob" ∈ Players match0 /\ Guess "bob" "et" stuckChans match0 = Panics.
Proof.
  split; [crunch|].
  apply (Guess_before_the_first_start_panics "" ["ann"; "bob"] "m"). crunch.
Defined.

Lemma session_maps_stay_consistent_witness :
  sessionsConsistent seekOpen /\
  (forall seeker listname criteria newid,
     Sessions seekOpen !! newid = None ->
     exists s' r, Seek seeker listname criteria newid seekOpen = Returns (s', r) /\
                  sessionsConsistent s') /\
  (forall seeker,
     exists s' r, Unseek seeker seekOpen = Returns (s', r) /\
                  sessionsConsistent s') /\
  (forall joiner id,
     exists s' r, Join joiner id seekOpen = Returns (s', r) /\
                  sessionsConsistent s').
Proof.
  split; [exact seekOpen_consistent|].
  apply session_maps_stay_consistent. exact seekOpen_consistent.
Defined.

Lemma Seek_then_Unseek_restores_the_maps_witness :
  exists s1 a s2,
    Seek "bob" "twos" "{}" "g2" seekOpen = Returns (s1, inl a) /\
    cells s1 !! a = Some (GameSession.mk ["bob"] "g2" "twos" "{}" None) /\
    Sessions s1 !! "g2" = Some a /\ SessionsForPlayer s1 !! "bob" = Some a /\
    Unseek "bob" s1 = Returns (s2, None) /\
    Sessions s2 = Sessions seekOpen /\
    SessionsForPlayer s2 = SessionsForPlayer seekOpen.
Proof.
  apply Seek_then_Unseek_restores_the_maps; crunch.
Defined.

Lemma Join_starts_the_countdown_for_both_witness :
  let manager :=
    StartGameCountdown
      (NewGameStateManager (GameSession.SearchCriteria annsSeek) ["ann"; "bob"] "g1") in
  exists s',
    Join "bob" "g1" seekOpen = Returns (s', inl 0%nat) /\
    cells s' !! 0%nat =
      Some (GameSession.mk ["ann"; "bob"] (GameSession.ID annsSeek)
              (GameSession.ListName annsSeek) (GameSession.SearchCriteria annsSeek)
              (Some manager)) /\
    gsStatus manager = Countdown /\ timer manager = Some InitGameCountdownTime /\
    Boards manager = [] /\
    SessionsForPlayer s' !! "ann" = Some 0%nat /\
    SessionsForPlayer s' !! "bob" = Some 0%nat /\
    Sessions s' = Sessions seekOpen /\
    (forall p listname criteria newid,
       p = "ann" \/ p = "bob" ->
       Seek p listname criteria newid s'
         = Returns (s', inr "player already in game session")) /\
    Unseek "ann" s' = Returns (s', Some "game already started").
Proof.
  apply (Join_starts_the_countdown_for_both "ann" "bob" "g1" 0%nat annsSeek seekOpen);
    crunch.
Defined.

Lemma guess_before_the_first_round_panics_witness :
  Sessions seekOpen !! "g1" = Some 0%nat /\
  (GameSession.GameManager annsSeek = None ->
   SendGuess "ann" "g1" "es" stuckChans seekOpen = Panics) /\
  (forall criteria players id,
     GameSession.GameManager annsSeek
       = Some (StartGameCountdown (NewGameStateManager criteria players id)) ->
     ("ann" ∈ players -> SendGuess "ann" "g1" "es" stuckChans seekOpen = Panics) /\
     ("ann" ∉ players ->
      SendGuess "ann" "g1" "es" stuckChans seekOpen
        = Returns (Some "player is not in this game", None))).
Proof.
  split; [crunch|].
  apply (guess_before_the_first_round_panics "ann" "g1" "es" stuckChans 0%nat
           annsSeek seekOpen);
    crunch.
Defined.

Lemma attack_goes_to_the_other_board_witness :
  exists gb' evs,
    handleGuessEvent board0 "es" = Some (gb', true, evs) /\
    populateMap pieceES ∈ sentToOpp evs /\
    Whose (populateMap pieceES) = Idx board0 /\
    AnswerMap (populateMap pieceES)
      = AnswerMap (populateMap (populateMap pieceES)) /\
    1 - Idx board0 <> Idx board0 /\
    (1 - Idx board0 = 0 \/ 1 - Idx board0 = 1) /\
    Loop_iteration id (AttackRouted (populateMap pieceES)) startedMatch
      = Some (startedMatch, [ToBoard (1 - Idx board0) (populateMap pieceES)], true) /\
    OppQueue (receiveAttack (populateMap pieceES) (newGameBoard 1))
      = OppQueue (newGameBoard 1) ++ [populateMap pieceES].
Proof.
  eexists _, _. split; [vm_compute; reflexivity|]. split; [crunch|].
  eapply (attack_goes_to_the_other_board id board0 "es"); [crunch|crunch|left; crunch|].
  apply (bool_decide_unpack _). vm_compute. exact I.
Defined.

Lemma Loop_is_left_for_good_witness :
  let evs := [StateChangeNotified; TimerFires (SearchReturns (take 49 pool));
              StateChangeNotified] in
  exists gs' outs,
    Loop id evs match0 = Some (gs', outs, true) /\
    (true = true <->
     exists before ev after gs0 outs0 gs1 outs1,
       evs = before ++ ev :: after /\
       Loop id before match0 = Some (gs0, outs0, false) /\
       breaksLoop id ev gs0 gs1 outs1) /\
    (true = true ->
     exists before ev after gs0 outs0 gs1 outs1,
       evs = before ++ ev :: after /\
       Loop id before match0 = Some (gs0, outs0, false) /\
       breaksLoop id ev gs0 gs1 outs1 /\
       gs' = set_gsStatus PermanentlyOver gs1 /\
       gsStatus gs' = PermanentlyOver /\
       outs = outs0 ++ outs1 ++ [Snapshot gs']) /\
    (StopRequested ∉ evs -> (forall found, TimerFires found ∉ evs) ->
     true = false).
Proof.
  intros evs. eexists _, _. split; [vm_compute; reflexivity|].
  apply (Loop_is_left_for_good id evs match0). vm_compute. reflexivity.
Defined.

Lemma round_ends_when_every_board_has_exited_witness :
  exists gs',
    Loop id (BoardExited <$> [1; 0]) startedMatch = Some (gs', [], false) /\
    exitedboards gs' = exitedAfter [1; 0] (exitedboards startedMatch) /\
    Players gs' = Players startedMatch /\
    QuestionOffset gs' = QuestionOffset startedMatch /\
    length (Boards gs') = length (Boards startedMatch) /\ timer gs' <> None /\
    ([1; 0] <> [] ->
     if forallb id (exitedboards gs')
     then gsStatus gs' = Countdown /\ timer gs' = Some NextGameCountdownTime
     else gsStatus gs' = gsStatus startedMatch /\ timer gs' = timer startedMatch).
Proof.
  apply round_ends_when_every_board_has_exited; crunch.
Defined.

Lemma quitting_board_leaves_at_its_next_tick_witness :
  quitting (shouldQuitSoon board0) = true /\
  exists gb' out,
    loopFrom ([GuessEvent "zz"; OppTimer] ++ MainTimer :: [MainTimer])
             (shouldQuitSoon board0) = Some (gb', out, true) /\
    quitting gb' = true /\ Idx gb' = Idx (shouldQuitSoon board0) /\
    exists before,
      out = before ++ [OppQueueTimerStop; TimerStop;
                       SignalExit (Idx (shouldQuitSoon board0))].
Proof.
  split; [reflexivity|].
  apply quitting_board_leaves_at_its_next_tick; [|reflexivity].
  split; [apply reachable_aloft, reach_quit, board0_reachable|].
  split; crunch.
Defined.

Lemma guess_keeps_the_stack_contiguous_witness :
  slotAt (Slots twoSettled) 14 = Some (Some pieceEQ) /\
  slotAt (Slots twoSettled) 15 = Some (Some pieceES) /\
  exists gb' changed evs,
    handleGuessEvent twoSettled "es" = Some (gb', changed, evs) /\
    slotAt (Slots gb') 14 = Some None /\
    slotAt (Slots gb') 15 = Some (Some pieceEQ) /\
    stackContiguous gb'.
Proof.
  split; [crunch|]. split; [crunch|].
  eexists _, _, _. split; [vm_compute; reflexivity|].
  split; [crunch|]. split; [crunch|].
  eapply (guess_keeps_the_stack_contiguous twoSettled "es").
  - apply reachable_aloft, (after_reachable (replicate 30 MainTimer) _ false).
    crunch.
  - apply stackContiguousb_sound. crunch.
  - crunch.
  - vm_compute. reflexivity.
Defined.

Lemma guess_removes_only_the_solved_question_witness :
  exists gb' changed evs,
    handleGuessEvent twoSettled " ES" = Some (gb', changed, evs) /\
    recorded FullySolveQuestion evs = true /\
    if recorded FullySolveQuestion evs then
      exists q,
        Some q ∈ Slots twoSettled /\ AnswerMap q = {[ ToLower (TrimSpace " ES") ]} /\
        ident <$> held twoSettled ≡ₚ ident q :: (ident <$> held gb') /\
        sentToOpp evs
        = (if decide (Whose q = Idx twoSettled) then [populateMap q] else [])
    else ident <$> held gb' ≡ₚ ident <$> held twoSettled /\ sentToOpp evs = [].
Proof.
  eexists _, _, _. split; [vm_compute; reflexivity|]. split; [crunch|].
  eapply (guess_removes_only_the_solved_question twoSettled " ES");
    [crunch|vm_compute; reflexivity].
Defined.

Lemma guess_strikes_lowest_slot_only_witness :
  let g' := ToLower (TrimSpace " ES") in
  let walked :=
    fst (guessLoop g' (fallerPos twoSettled) 0 (Slots twoSettled) guessVars0) in
  (walked !! 15%nat = Some (Some (strike g' pieceES)) /\
   AnswerMap (strike g' pieceES) = AnswerMap pieceES ∖ {[ g' ]} /\
   forall j, j <> 15%nat -> walked !! j = Slots twoSettled !! j) /\
  exists gb' evs,
    handleGuessEvent twoSettled " ES" = Some (gb', true, evs) /\
    (AnswerMap pieceES <> {[ g' ]} ->
     gb' = set_Slots walked twoSettled /\ evs = []) /\
    (AnswerMap pieceES = {[ g' ]} ->
     Slots gb' ≡ₚ <[15%nat := None]> (Slots twoSettled) /\
     (forall j, (15 < j)%nat -> Slots gb' !! j = Slots twoSettled !! j) /\
     (fallerPos twoSettled = Z.of_nat 15 ->
      Slots gb' = <[15%nat := None]> (Slots twoSettled)) /\
     (fallerPos twoSettled <> Z.of_nat 15 ->
      fallerAloft twoSettled -> stackContiguous twoSettled ->
      topOfStack twoSettled <> 0 ->
      let tos := Z.to_nat (topOfStack twoSettled) in
      forall j, Slots gb' !! j =
        if decide (tos < j <= 15)%nat then Slots twoSettled !! (j - 1)%nat
        else if decide (j = tos) then Some None else Slots twoSettled !! j)) /\
    (forall j r, Slots gb' !! j = Some (Some r) ->
       r = strike g' pieceES \/
       exists i, i <> 15%nat /\ Slots twoSettled !! i = Some (Some r)).
Proof.
  apply (guess_strikes_lowest_slot_only twoSettled " ES" 15%nat pieceES);
    [crunch|split_and!; crunch].
Defined.

(** C5 as the specification states it fails on the concrete match: with
    "ES" at rest in slot 15 and "EQ" on top of it in slot 14, the guess "es"
    is an answer left in slot 15 only, and the call that strikes it also
    changes slot 14, which becomes empty, and puts "EQ" into slot 15. *)
Lemma full_solve_moves_the_piece_above :
  lowestHit (ToLower (TrimSpace "es")) (Slots twoSettled) 15 pieceES /\
  exists gb' evs,
    handleGuessEvent twoSettled "es" = Some (gb', true, evs) /\
    Slots twoSettled !! 14%nat = Some (Some pieceEQ) /\
    Slots gb' !! 14%nat = Some None /\
    Slots gb' !! 15%nat = Some (Some pieceEQ) /\
    ~ (forall j, j <> 15%nat -> Slots gb' !! j = Slots twoSettled !! j).
Proof.
  split; [split_and!; crunch|].
  eexists _, _. split; [vm_compute; reflexivity|].
  assert (forall (a b : list (option Question)),
            a !! 14%nat = Some (Some pieceEQ) -> b !! 14%nat = Some None ->
            ~ (forall j, j <> 15%nat -> b !! j = a !! j)) as Hdiff.
  { intros a b Ha Hb Hsame. specialize (Hsame 14%nat ltac:(lia)). congruence. }
  match goal with |- ?A /\ ?B /\ _ =>
    assert A as Ha by crunch; assert B as Hb by crunch
  end.
  split; [exact Ha|]. split; [exact Hb|]. split; [crunch|].
  exact (Hdiff _ _ Ha Hb).
Qed.

